(** * Hybrid NOrec transactional memory (hynorec_cgrundey.cpp)

    A shallow embedding of the software (NOrec) path, the hardware path, the
    retry dispatcher of [th_run] and the argument check of [main], together
    with the properties of the specification that concern them.

    One thread of the program is modelled at a time.  The other threads are
    an environment: a list of steps on the shared state, one of which is
    taken before every access of the modelled thread to a shared variable.
    An empty list is a run without concurrent modification.  Loops that can
    spin take a fuel argument and answer [Spin] when it is used up. *)

From Stdlib Require Import ZArith List Lia Bool String Ascii.
Import ListNotations.
Open Scope Z_scope.

(** ** Constants of the source *)

Definition NUM_ACCTS : Z := 1000.
Definition TRFR_AMT : Z := 50.
Definition INIT_BALANCE : Z := 1000.
(** Size of [counter] and [snap_counter]. *)
Definition NUM_SLOTS : nat := 72.

(** [unsigned int] and [uintptr_t] arithmetic wraps; [int] arithmetic that
    leaves the range of [int] is undefined. *)
Definition u32 (z : Z) : Z := z mod 2 ^ 32.
Definition u64 (z : Z) : Z := z mod 2 ^ 64.
Definition in_int (z : Z) : bool := (- 2 ^ 31 <=? z) && (z <=? 2 ^ 31 - 1).

(** ** Data model *)

(** [typedef struct { int addr; int value; } Acct;] *)
Record Acct : Type := mkAcct { addr : Z; value : Z }.

(** The globals [accts], [seqlock] and [counter] (the [val] fields). *)
Record Shared : Type := mkShared {
  accts : list Acct;
  seqlock : Z;
  counter : Z -> Z
}.

(** A step of the other threads. *)
Definition Step : Type := Shared -> Shared.

(** The shared state, the thread-local variables [read_set], [write_set],
    [rv], [snap_counter], the local [tid] of [th_run] (which doubles as the
    seed of the random generator), the pending steps of the other threads
    and the pending answers of the hardware to [_xbegin] ([true]: the region
    runs to its end and commits unless it aborts itself). *)
Record World : Type := mkWorld {
  sh : Shared;
  read_set : list Acct;
  write_set : list Acct;
  rv : Z;
  snap_counter : Z -> Z;
  tid : Z;
  env : list Step;
  htm : list bool
}.

Definition set_sh (s : Shared) (w : World) : World :=
  mkWorld s (read_set w) (write_set w) (rv w) (snap_counter w) (tid w) (env w) (htm w).
Definition set_read_set (l : list Acct) (w : World) : World :=
  mkWorld (sh w) l (write_set w) (rv w) (snap_counter w) (tid w) (env w) (htm w).
Definition set_write_set (l : list Acct) (w : World) : World :=
  mkWorld (sh w) (read_set w) l (rv w) (snap_counter w) (tid w) (env w) (htm w).
Definition set_rv (r : Z) (w : World) : World :=
  mkWorld (sh w) (read_set w) (write_set w) r (snap_counter w) (tid w) (env w) (htm w).
Definition set_snap_counter (c : Z -> Z) (w : World) : World :=
  mkWorld (sh w) (read_set w) (write_set w) (rv w) c (tid w) (env w) (htm w).
Definition set_tid (t : Z) (w : World) : World :=
  mkWorld (sh w) (read_set w) (write_set w) (rv w) (snap_counter w) t (env w) (htm w).
Definition set_env (e : list Step) (w : World) : World :=
  mkWorld (sh w) (read_set w) (write_set w) (rv w) (snap_counter w) (tid w) e (htm w).
Definition set_htm (h : list bool) (w : World) : World :=
  mkWorld (sh w) (read_set w) (write_set w) (rv w) (snap_counter w) (tid w) (env w) h.

Definition set_accts (l : list Acct) (s : Shared) : Shared :=
  mkShared l (seqlock s) (counter s).
Definition set_seqlock (v : Z) (s : Shared) : Shared :=
  mkShared (accts s) v (counter s).
Definition set_counter (c : Z -> Z) (s : Shared) : Shared :=
  mkShared (accts s) (seqlock s) c.

(** Array update. *)
Definition upd (f : Z -> Z) (i v : Z) : Z -> Z :=
  fun j => if j =? i then v else f j.

(** [accts[i].value] as an rvalue; [None] outside the vector. *)
Definition acct_value (l : list Acct) (i : Z) : option Z :=
  if i <? 0 then None else option_map value (nth_error l (Z.to_nat i)).

Fixpoint store_nth (l : list Acct) (n : nat) (v : Z) : option (list Acct) :=
  match l, n with
  | [], _ => None
  | a :: l', O => Some (mkAcct (addr a) v :: l')
  | a :: l', S n' => option_map (cons a) (store_nth l' n' v)
  end.

(** [accts[i].value = v]; [None] outside the vector. *)
Definition acct_store (l : list Acct) (i v : Z) : option (list Acct) :=
  if i <? 0 then None else store_nth l (Z.to_nat i) v.

(** ** Results and the monad of one thread *)

Inductive Res (A : Type) : Type :=
| Ret (a : A) (w : World)   (* normal return *)
| Throw (w : World)         (* [throw "Transaction ABORTED"] *)
| Spin                      (* still looping when the fuel ran out *)
| Undef.                    (* access outside an array: undefined *)
Arguments Ret {A} a w.
Arguments Throw {A} w.
Arguments Spin {A}.
Arguments Undef {A}.

Definition M (A : Type) : Type := World -> Res A.

Definition ret {A} (a : A) : M A := fun w => Ret a w.

Definition bind {A B} (m : M A) (k : A -> M B) : M B :=
  fun w =>
    match m w with
    | Ret a w' => k a w'
    | Throw w' => Throw w'
    | Spin => Spin
    | Undef => Undef
    end.

Declare Scope tm_scope.
Delimit Scope tm_scope with tm.
Notation "x <- c ;; k" := (bind c (fun x => k))
  (at level 61, c at next level, right associativity) : tm_scope.
Notation "c ;; k" := (bind c (fun _ => k))
  (at level 61, right associativity) : tm_scope.
Open Scope tm_scope.

Definition spin {A} : M A := fun _ => Spin.
Definition undef {A} : M A := fun _ => Undef.
Definition get {A} (f : World -> A) : M A := fun w => Ret (f w) w.
Definition modify (f : World -> World) : M unit := fun w => Ret tt (f w).

(** ** Accesses to shared variables *)

(** The other threads move before the access. *)
Definition tick : M unit :=
  fun w =>
    match env w with
    | [] => Ret tt w
    | f :: e => Ret tt (set_env e (set_sh (f (sh w)) w))
    end.

Definition load_seqlock : M Z :=
  tick ;; get (fun w => seqlock (sh w)).

Definition store_seqlock (v : Z) : M unit :=
  tick ;; modify (fun w => set_sh (set_seqlock v (sh w)) w).

(** [__sync_bool_compare_and_swap(&seqlock, old, new)] *)
Definition cas_seqlock (old new : Z) : M bool :=
  tick ;;
  s <- get (fun w => seqlock (sh w)) ;;
  if s =? old
  then modify (fun w => set_sh (set_seqlock new (sh w)) w) ;; ret true
  else ret false.

Definition raw_load_acct (a : Z) : M Z :=
  fun w =>
    match acct_value (accts (sh w)) a with
    | Some v => Ret v w
    | None => Undef
    end.

Definition raw_store_acct (a v : Z) : M unit :=
  fun w =>
    match acct_store (accts (sh w)) a v with
    | Some l => Ret tt (set_sh (set_accts l (sh w)) w)
    | None => Undef
    end.

Definition load_acct (a : Z) : M Z := tick ;; raw_load_acct a.
Definition store_acct (a v : Z) : M unit := tick ;; raw_store_acct a v.

Definition load_counter (i : Z) : M Z :=
  tick ;; get (fun w => counter (sh w) i).

(** ** The software path *)

(** [sw_abort] *)
Definition sw_abort {A} : M A :=
  fun w => Throw (set_write_set [] (set_read_set [] w)).

(** [do { rv = seqlock; } while (rv & 1);], the loop that opens both
    [sw_validate] and [sw_begin]. *)
Fixpoint wait_even (fuel : nat) : M unit :=
  match fuel with
  | O => spin
  | S f =>
      s <- load_seqlock ;;
      modify (set_rv s) ;;
      if Z.land s 1 =? 0 then ret tt else wait_even f
  end.

(** The [for] loop of [sw_validate] over the read set. *)
Fixpoint check_reads (rs : list Acct) : M unit :=
  match rs with
  | [] => ret tt
  | e :: rs' =>
      v <- load_acct (addr e) ;;
      if value e =? v then check_reads rs' else sw_abort
  end.

(** [sw_validate] *)
Fixpoint sw_validate (fuel : nat) : M unit :=
  match fuel with
  | O => spin
  | S f =>
      wait_even f ;;
      rs <- get read_set ;;
      check_reads rs ;;
      r <- get rv ;;
      s <- load_seqlock ;;
      if r =? s then ret tt else sw_validate f
  end.

(** [std::copy(std::begin(counter), std::end(counter), std::begin(snap_counter))] *)
Fixpoint copy_counters (n : nat) (i : Z) : M unit :=
  match n with
  | O => ret tt
  | S n' =>
      c <- load_counter i ;;
      modify (fun w => set_snap_counter (upd (snap_counter w) i c) w) ;;
      copy_counters n' (i + 1)
  end.

(** [sw_begin] *)
Definition sw_begin (fuel : nat) : M unit :=
  wait_even fuel ;;
  copy_counters NUM_SLOTS 0.

(** [while (!__sync_bool_compare_and_swap(&seqlock, rv, rv + 1)) sw_validate();] *)
Fixpoint acquire (fuel : nat) : M unit :=
  match fuel with
  | O => spin
  | S f =>
      r <- get rv ;;
      ok <- cas_seqlock r (u32 (r + 1)) ;;
      if ok then ret tt else (sw_validate f ;; acquire f)
  end.

(** The [for] loop of [sw_commit] over the 72 counters, left by [break]
    after the call of [sw_validate]. *)
Fixpoint check_counters (fuel : nat) (n : nat) (i : Z) : M unit :=
  match n with
  | O => ret tt
  | S n' =>
      s <- get (fun w => snap_counter w i) ;;
      c <- load_counter i ;;
      if s =? c then check_counters fuel n' (i + 1) else sw_validate fuel
  end.

(** The write-back loop of [sw_commit]. *)
Fixpoint writeback (ws : list Acct) : M unit :=
  match ws with
  | [] => ret tt
  | e :: ws' => store_acct (addr e) (value e) ;; writeback ws'
  end.

(** [seqlock++] on a volatile: a load and a store. *)
Definition incr_seqlock : M unit :=
  s <- load_seqlock ;;
  store_seqlock (u32 (s + 1)).

(** [sw_commit] *)
Definition sw_commit (fuel : nat) : M unit :=
  ws <- get write_set ;;
  match ws with
  | [] => ret tt
  | _ :: _ =>
      acquire fuel ;;
      check_counters fuel NUM_SLOTS 0 ;;
      ws' <- get write_set ;;
      writeback ws' ;;
      incr_seqlock ;;
      modify (set_read_set []) ;;
      modify (set_write_set [])
  end.

(** The reverse scan of the write set in [sw_read]. *)
Definition ws_lookup (a : Z) (ws : list Acct) : option Z :=
  option_map value (find (fun e => addr e =? a) (rev ws)).

(** [while (rv != seqlock) { sw_validate(); val = accts[addr].value; }] *)
Fixpoint reload (fuel : nat) (a val : Z) : M Z :=
  match fuel with
  | O => spin
  | S f =>
      r <- get rv ;;
      s <- load_seqlock ;;
      if r =? s then ret val
      else (sw_validate f ;; v <- load_acct a ;; reload f a v)
  end.

(** [sw_read] *)
Definition sw_read (fuel : nat) (a : Z) : M Z :=
  ws <- get write_set ;;
  match ws_lookup a ws with
  | Some v => ret v
  | None =>
      v0 <- load_acct a ;;
      v <- reload fuel a v0 ;;
      modify (fun w => set_read_set (read_set w ++ [mkAcct a v]) w) ;;
      ret v
  end.

(** [sw_write] *)
Definition sw_write (a v : Z) : M unit :=
  modify (fun w => set_write_set (write_set w ++ [mkAcct a v]) w).

(** ** The transactions of [th_run] *)

(** [int] arithmetic: undefined outside the range of [int]. *)
Definition int_arith (z : Z) : M Z :=
  if in_int z then ret z else undef.

(** [counter[tid].val += 1], inside the hardware region. *)
Definition incr_counter_tid : M unit :=
  fun w =>
    let t := tid w in
    if (0 <=? t) && (t <? Z.of_nat NUM_SLOTS)
    then Ret tt (set_sh (set_counter (upd (counter (sh w)) t
                                          (u64 (counter (sh w) t + 1))) (sh w)) w)
    else Undef.

(** [_xbegin()]: the next answer of the hardware; no answer left means that
    the region aborts. *)
Definition xbegin : M bool :=
  fun w =>
    match htm w with
    | [] => Ret false w
    | b :: h => Ret b (set_htm h w)
    end.

(** How a transaction of [th_run] ended. *)
Inductive Path : Type := ByHTM | BySW.

Section Workload.

(** [rand_r_32] of rand_r_32.h, which is not part of the sources: from the
    seed to the new seed and the number returned. *)
Variable rand_r_32 : Z -> Z * Z.

(** [rand_r_32(&tid) % NUM_ACCTS] *)
Definition next_acct : M Z :=
  fun w =>
    let (s, r) := rand_r_32 (tid w) in
    Ret (Z.rem r NUM_ACCTS) (set_tid (u32 s) w).

(** [int r1 = 0; int r2 = 0; while (r1 == r2) { r1 = ...; r2 = ...; }] *)
Fixpoint pick_accounts (fuel : nat) : M (Z * Z) :=
  match fuel with
  | O => spin
  | S f =>
      r1 <- next_acct ;;
      r2 <- next_acct ;;
      if r1 =? r2 then pick_accounts f else ret (r1, r2)
  end.

(** The [for] loop of the hardware transaction (lines 171-184), with [j]
    rounds left. *)
Fixpoint htm_body (fuel : nat) (j : nat) : M unit :=
  match j with
  | O => ret tt
  | S j' =>
      p <- pick_accounts fuel ;;
      a1 <- raw_load_acct (fst p) ;;
      if a1 <? TRFR_AMT then ret tt
      else (a2 <- raw_load_acct (snd p) ;;
            d1 <- int_arith (a1 - TRFR_AMT) ;;
            raw_store_acct (fst p) d1 ;;
            d2 <- int_arith (a2 - TRFR_AMT) ;;
            raw_store_acct (snd p) d2 ;;
            htm_body fuel j')
  end.

(** One execution of the hardware path (lines 167-187): [true] when the
    region committed.  The region is atomic: the other threads move before
    it, not inside it, and a region that aborts leaves nothing behind. *)
Definition htm_txn (fuel : nat) : M bool :=
  tick ;;
  started <- xbegin ;;
  if started
  then (s <- get (fun w => seqlock (sh w)) ;;
        if Z.land s 1 =? 0
        then (htm_body fuel 10 ;; incr_counter_tid ;; ret true)
        else ret false)
  else ret false.

(** The [for] loop of the software transaction (lines 196-210). *)
Fixpoint sw_body (fuel : nat) (j : nat) : M unit :=
  match j with
  | O => ret tt
  | S j' =>
      p <- pick_accounts fuel ;;
      a1 <- sw_read fuel (fst p) ;;
      if a1 <? TRFR_AMT then ret tt
      else (a2 <- sw_read fuel (snd p) ;;
            d1 <- int_arith (a1 - TRFR_AMT) ;;
            sw_write (fst p) d1 ;;
            d2 <- int_arith (a2 + TRFR_AMT) ;;
            sw_write (snd p) d2 ;;
            sw_body fuel j')
  end.

(** The body of the [try] block (lines 195-211). *)
Definition sw_txn (fuel : nat) : M unit :=
  sw_begin fuel ;;
  sw_body fuel 10 ;;
  sw_commit fuel.

(** The [try]/[catch] around it: [None] stands for [aborted = true]. *)
Definition try_sw (fuel : nat) : M (option Path) :=
  fun w =>
    match sw_txn fuel w with
    | Ret _ w' => Ret (Some BySW) w'
    | Throw w' => Ret None w'
    | Spin => Spin
    | Undef => Undef
    end.

(** From the label [again] to the end of the [do] body, with the current
    value of [attempts]. *)
Fixpoint attempt (fuel : nat) (attempts : Z) : M (option Path) :=
  match fuel with
  | O => spin
  | S f =>
      ok <- htm_txn f ;;
      if ok then ret (Some ByHTM)
      else if attempts >? 0 then attempt f (attempts - 1)
      else try_sw f
  end.

(** The [do ... while (aborted)] loop: one user transaction.  The pair is
    ([htmCount], [swCount]). *)
Fixpoint txn (fuel : nat) (counts : Z * Z) : M (Z * Z) :=
  match fuel with
  | O => spin
  | S f =>
      r <- attempt f 5 ;;
      match r with
      | Some ByHTM => ret (u32 (fst counts + 1), snd counts)
      | Some BySW => ret (fst counts, u32 (snd counts + 1))
      | None => txn f counts
      end
  end.




End Workload.

(** ** The start of [main] *)

(** The line of [printf("Usage: <# of threads 1-64>\n")]. *)
Definition usage : string :=
  String.append "Usage: <# of threads 1-64>" (String (ascii_of_nat 10) EmptyString).

(** [atoi] of the C library: white space, an optional sign, decimal digits;
    undefined when the number is not an [int]. *)
Definition isspace (c : ascii) : bool :=
  let n := Z.of_nat (nat_of_ascii c) in
  (n =? 32) || ((9 <=? n) && (n <=? 13)).

Definition digit (c : ascii) : option Z :=
  let n := Z.of_nat (nat_of_ascii c) in
  if (48 <=? n) && (n <=? 57) then Some (n - 48) else None.

Fixpoint skip_spaces (s : string) : string :=
  match s with
  | String c s' => if isspace c then skip_spaces s' else s
  | EmptyString => s
  end.

Fixpoint digits (s : string) (acc : Z) : Z :=
  match s with
  | String c s' =>
      match digit c with
      | Some d => digits s' (10 * acc + d)
      | None => acc
      end
  | EmptyString => acc
  end.

Definition atoi (s : string) : option Z :=
  let n :=
    match skip_spaces s with
    | String "-" s' => - digits s' 0
    | String "+" s' => digits s' 0
    | s' => digits s' 0
    end in
  if in_int n then Some n else None.

(** What [main] does with its arguments: leave through [exit] with a code
    after printing a line, or go on with [numThreads] and start [th_run] on
    the listed ids. *)
Inductive Start : Type :=
| Exit (code : Z) (out : string)
| Go (numThreads : Z) (ids : list Z).

(** The ids on which [th_run] runs: 1, 2, ... from [pthread_create] in the
    loop [for (int i = 1; i < numThreads; i++)], then 0 in [main] itself. *)
Definition thread_ids (numThreads : Z) : list Z :=
  map Z.of_nat (seq 1 (Z.to_nat (numThreads - 1))) ++ [0].

(** Lines 229-263 of [main]; [None] where [atoi] is undefined. *)
Definition main (argv : list string) : option Start :=
  if negb (Z.of_nat (List.length argv) =? 2)
  then Some (Exit 0 usage)
  else
    match atoi (List.nth 1 argv EmptyString) with
    | None => None
    | Some numThreads =>
        if (numThreads <=? 0) || (numThreads >? 64)
        then Some (Exit 0 usage)
        else Some (Go numThreads (thread_ids numThreads))
    end.

(** The accounts as [main] fills them. *)
Definition init_accts : list Acct :=
  map (fun i => mkAcct (Z.of_nat i) INIT_BALANCE) (seq 0 (Z.to_nat NUM_ACCTS)).

Definition init_shared : Shared := mkShared init_accts 0 (fun _ => 0).

(** A thread before its first transaction. *)
Definition init_world (e : list Step) (h : list bool) : World :=
  mkWorld init_shared [] [] 0 (fun _ => 0) 0 e h.

(** ** The barrier *)

(** [static volatile int barriers[16]] *)
Definition NUM_BARRIERS : Z := 16.

(** Wrap-around of [int]. *)
Definition s32 (z : Z) : Z := (z + 2 ^ 31) mod 2 ^ 32 - 2 ^ 31.

(** The slots, and the steps of the other threads on them. *)
Definition BStep : Type := (Z -> Z) -> (Z -> Z).

Record BWorld : Type := mkBWorld {
  barriers : Z -> Z;
  benv : list BStep
}.

Inductive BRes : Type :=
| BRet (w : BWorld)   (* the barrier is passed *)
| BSpin               (* still waiting when the fuel ran out *)
| BUndef.             (* slot outside the array *)

(** The other threads move before an access to the slots. *)
Definition btick (w : BWorld) : BWorld :=
  match benv w with
  | [] => w
  | f :: e => mkBWorld (f (barriers w)) e
  end.

(** [__sync_fetch_and_add(&barriers[which], 1)] *)
Definition fetch_and_add (which : Z) (w : BWorld) : BWorld :=
  let w1 := btick w in
  mkBWorld (upd (barriers w1) which (s32 (barriers w1 which + 1))) (benv w1).

(** [while (barriers[which] < numThreads) { }] *)
Fixpoint barrier_wait (fuel : nat) (numThreads which : Z) (w : BWorld) : BRes :=
  match fuel with
  | O => BSpin
  | S f =>
      let w1 := btick w in
      if barriers w1 which <? numThreads
      then barrier_wait f numThreads which w1
      else BRet w1
  end.

(** [barrier] *)
Definition barrier (fuel : nat) (numThreads which : Z) (w : BWorld) : BRes :=
  if (0 <=? which) && (which <? NUM_BARRIERS)
  then barrier_wait fuel numThreads which (fetch_and_add which w)
  else BUndef.

(** ** Specification-side notions used in the statements *)

(** The next even value of [seqlock] that a spinning reader meets: the
    shared state at that read and the steps of the other threads left. *)
Fixpoint first_even (s : Shared) (e : list Step) : option (Shared * list Step) :=
  match e with
  | [] => if Z.even (seqlock s) then Some (s, []) else None
  | f :: e' =>
      if Z.even (seqlock (f s)) then Some (f s, e') else first_even (f s) e'
  end.

(** The write set applied to the accounts, in order. *)
Fixpoint flush (l : list Acct) (ws : list Acct) : option (list Acct) :=
  match ws with
  | [] => Some l
  | e :: ws' =>
      match acct_store l (addr e) (value e) with
      | Some l' => flush l' ws'
      | None => None
      end
  end.

(** A read-set entry that still agrees with the accounts. *)
Definition agrees (l : list Acct) (e : Acct) : Prop :=
  acct_value l (addr e) = Some (value e).

(** Every pending step of the other threads keeps the property [P] of the
    shared state. *)
Definition stable (P : Shared -> Prop) (e : list Step) : Prop :=
  Forall (fun f : Step => forall s, P s -> P (f s)) e.

(** A step that does not change an odd [seqlock]: it leaves the write-back
    window to the thread that holds it. *)
Definition respects (f : Step) : Prop :=
  forall s, Z.even (seqlock s) = false -> seqlock (f s) = seqlock s.

(** A property of the shared state that does not depend on [seqlock]. *)
Definition seqlock_free (P : Shared -> Prop) : Prop :=
  forall s v, P s -> P (set_seqlock v s).

(** The world after the other threads took their next [n] steps. *)
Fixpoint ticks (n : nat) (w : World) : World :=
  match n with
  | O => w
  | S n' =>
      match env w with
      | [] => w
      | f :: e => ticks n' (set_env e (set_sh (f (sh w)) w))
      end
  end.

(** Sum of the balances. *)
Definition total (l : list Acct) : Z :=
  fold_right (fun a s => value a + s) 0 l.


(** A sample generator for concrete runs (a linear congruential one). *)
Definition lcg (s : Z) : Z * Z :=
  let s' := (s * 1103515245 + 12345) mod 2 ^ 32 in (s', s' / 65536).

(** A generator whose seed stays below 72, so that [counter[tid]] is inside
    the array and the hardware path can be followed to its commit. *)
Definition small_rand (s : Z) : Z * Z := ((s + 1) mod 64, s).

(** The value of a run that returned. *)
Definition value_of {A} (r : Res A) : option A :=
  match r with
  | Ret a _ => Some a
  | _ => None
  end.

(** What a run guarantees: [Q] when it returns, [E] when it throws. *)
Definition post {A} (Q : A -> World -> Prop) (E : World -> Prop)
                (r : Res A) : Prop :=
  match r with
  | Ret a w' => Q a w'
  | Throw w' => E w'
  | Spin | Undef => True
  end.

(** The shared state satisfies [P], the other threads will keep it so, and
    each of their pending steps satisfies [R]. *)
Definition inv (P : Shared -> Prop) (R : Step -> Prop) (w : World) : Prop :=
  P (sh w) /\ stable P (env w) /\ Forall R (env w).

(** The same, with the logs and [rv] known. *)
Definition keeps (P : Shared -> Prop) (R : Step -> Prop)
           (rs ws : list Acct) (r : Z) (w : World) : Prop :=
  inv P R w /\ read_set w = rs /\ write_set w = ws /\ rv w = r.

(** The state in which [sw_abort] throws. *)
Definition aborted (P : Shared -> Prop) (R : Step -> Prop) (w : World) : Prop :=
  inv P R w /\ read_set w = [] /\ write_set w = [].

(** The write-back window is taken and the other threads will leave it. *)
Definition held (w : World) : Prop :=
  Z.even (seqlock (sh w)) = false /\ Forall respects (env w).

(** The world once the window is taken from an even [seqlock]. *)
Definition in_window (w : World) : World :=
  set_sh (set_seqlock (u32 (seqlock (sh w) + 1)) (sh w))
         (set_rv (seqlock (sh w)) w).

(** The state of a software transaction that runs alone: the shared state
    [s0] does not move, [rv] is its [seqlock], the snapshot is [sc] and the
    accounts with the write set applied are [l]. *)
Definition alone (s0 : Shared) (sc : Z -> Z) (l : list Acct) (w : World) : Prop :=
  env w = [] /\ sh w = s0 /\ rv w = seqlock s0 /\ snap_counter w = sc /\
  flush (accts s0) (write_set w) = Some l.

(** A read-only transaction that has read account 0. *)
Definition world_read_only : World :=
  mkWorld init_shared [mkAcct 0 1000] [] 0 (fun _ => 0) 0 [] [].

(** A thread whose first pick, account 0, holds less than the amount: its
    transaction reads it and commits without a write. *)
Definition world_poor : World :=
  mkWorld (mkShared (mkAcct 0 10 :: tl init_accts) 0 (fun _ => 0))
          [] [] 0 (fun _ => 0) 0 [] [].

(** A transfer of 50 from account 0 to account 1, ready to commit. *)
Definition world_commit (c0 : Z) : World :=
  mkWorld (mkShared init_accts 4 (upd (fun _ => 0) 0 c0))
          [mkAcct 0 1000; mkAcct 1 1000] [mkAcct 0 950; mkAcct 1 1050]
          4 (fun _ => 0) 0 [] [].

(** Another thread commits a new balance of account 0 while the modelled
    one is between its first and its second read. *)
Definition writer : Step :=
  fun s =>
    if Z.even (seqlock s)
    then match acct_store (accts s) 0 900 with
         | Some l => mkShared l (u32 (seqlock s + 2)) (counter s)
         | None => s
         end
    else s.

(** The window held by the thread itself ([rv = 0], [seqlock = 1]) while
    the others count a hardware commit and try to commit in software. *)
Definition world_in_window : World :=
  mkWorld (mkShared init_accts 1 (fun _ => 0)) [mkAcct 0 1000] [mkAcct 0 950]
          0 (fun _ => 0) 0 [set_counter (fun _ => 9); writer] [].

(** The modelled thread with that writer at its 76th access. *)
Definition world_abort : World :=
  init_world (repeat (fun s => s) 75 ++ [writer]) [].

(** A writer holds the window ([seqlock = 1]) and releases it at its
    second step. *)
Definition world_waiting : World :=
  mkWorld (mkShared init_accts 1 (fun _ => 0)) [] [] 0 (fun _ => 5) 0
          [(fun s => s); set_seqlock 2] [].

(** A transaction that has read account 0 and written account 1, while a
    writer has moved [seqlock] from 0 to 2 and account 2 to 700. *)
Definition world_reading (first : Z) : World :=
  mkWorld (mkShared (mkAcct 0 1000 :: mkAcct 1 1000 :: mkAcct 2 700 ::
                     tl (tl (tl init_accts))) 2 (fun _ => 0))
          [mkAcct 0 first] [mkAcct 1 900; mkAcct 1 950] 0 (fun _ => 0) 0 [] [].

(** ** Notions on the other threads and on runs alone *)

(** A step of the other threads when they all run in software: it leaves
    [seqlock] as it is, and the accounts too unless [seqlock] is odd (a
    store of a write-back), or it moves [seqlock] forward (the beginning or
    the end of a commit, or a whole one). *)
Definition sw_step (f : Step) : Prop :=
  forall s,
    (seqlock (f s) = seqlock s /\
     (Z.even (seqlock s) = true -> accts (f s) = accts s)) \/
    seqlock s < seqlock (f s).

(** The accounts were [a0] when [seqlock] was [v], and the entries [l]
    agree with them. *)
Definition snapshot (v : Z) (a0 : list Acct) (l : list Acct) (s : Shared) : Prop :=
  v <= seqlock s /\ (seqlock s = v -> accts s = a0 /\ Forall (agrees a0) l).

(** The read set is a view of the accounts as of [rv], which is even. *)
Definition coherent (w : World) : Prop :=
  Z.even (rv w) = true /\ rv w <= seqlock (sh w) /\
  (seqlock (sh w) = rv w -> Forall (agrees (accts (sh w))) (read_set w)).

(** A property of the shared state that does not depend on the accounts. *)
Definition accts_free (P : Shared -> Prop) : Prop :=
  forall s l, P s -> P (set_accts l s).

(** The steps of another thread that commits in software: it adds one to
    [seqlock] when it takes the window and when it leaves it, and it stores
    a balance in between, [seqlock] being odd. *)
Definition bump_other : Step :=
  fun s => set_seqlock (seqlock s + 1) s.

Definition store_other (a v : Z) : Step :=
  fun s =>
    if Z.even (seqlock s) then s
    else match acct_store (accts s) a v with
         | Some l => set_accts l s
         | None => s
         end.

(** A transaction that began at [seqlock = 0] and has read account 0,
    while another thread is about to commit 900 to account 1. *)
Definition world_validating : World :=
  mkWorld init_shared [mkAcct 0 1000] [] 0 (fun _ => 0) 0
          [bump_other; store_other 1 900; bump_other] [].

(** A step that does not write [seqlock], as a hardware commit. *)
Definition seqlock_kept (f : Step) : Prop :=
  forall s, seqlock (f s) = seqlock s.

(** Another thread commits in hardware the transfer of the source: 50 off
    account 0 and 50 off account 1, and its counter slot goes up. *)
Definition htm_other : Step :=
  fun s =>
    mkShared (mkAcct 0 950 :: mkAcct 1 950 :: tl (tl (accts s)))
             (seqlock s) (upd (counter s) 3 (counter s 3 + 1)).

(** A transaction that has read account 0 just before that commit. *)
Definition world_htm_race : World :=
  mkWorld init_shared [mkAcct 0 1000] [] 0 (fun _ => 0) 0
          [htm_other; (fun s => s)] [].


(** A step that stores to no counter, as those of the software path. *)
Definition counter_kept (f : Step) : Prop :=
  forall s, counter (f s) = counter s.

(** Another thread arrives at the barrier [k]. *)
Definition arrive (k : Z) : BStep :=
  fun b => upd b k (s32 (b k + 1)).

(** The threads that have arrived at [which] once those of [ks] have. *)
Definition arrived (which : Z) (ks : list Z) (w : BWorld) : Z :=
  barriers w which + Z.of_nat (count_occ Z.eq_dec ks which).

(** The shared state and the pending steps of [w'] are those of [w] after
    [k] steps of the other threads. *)
Definition advanced (k : nat) (w w' : World) : Prop :=
  sh w' = sh (ticks k w) /\ env w' = env (ticks k w).




(** ** Basic facts *)

Lemma land1_even (s : Z) : (Z.land s 1 =? 0) = Z.even s.
Proof.
  change 1 with (Z.ones 1). rewrite Z.land_ones by lia.
  change (2 ^ 1) with 2. rewrite Zeven_mod. reflexivity.
Qed.

Lemma u32_succ_succ (r : Z) : u32 (u32 (r + 1) + 1) = u32 (r + 2).
Proof.
  unfold u32. rewrite Zplus_mod_idemp_l. f_equal. lia.
Qed.

Lemma even_u32 (z : Z) : Z.even (u32 z) = Z.even z.
Proof.
  unfold u32. rewrite Z.mod_eq by lia.
  rewrite Z.even_sub, Z.even_mul. change (Z.even (2 ^ 32)) with true.
  cbn. destruct (Z.even z); reflexivity.
Qed.

Lemma even_u32_succ (r : Z) : Z.even r = true -> Z.even (u32 (r + 1)) = false.
Proof.
  intros H. rewrite even_u32, Z.even_add, H. reflexivity.
Qed.

Lemma stable_True (e : list Step) : stable (fun _ => True) e.
Proof. apply Forall_forall. intros; exact I. Qed.

Lemma Forall_any {A} (l : list A) : Forall (fun _ => True) l.
Proof. apply Forall_forall. intros; exact I. Qed.

Lemma tick_quiet (w : World) : env w = [] -> tick w = Ret tt w.
Proof. intros H. unfold tick. rewrite H. reflexivity. Qed.

(** Destructs a world and replaces its environment by what is known. *)
Ltac open_world w :=
  destruct w as [?s ?rs ?ws ?r ?sc ?t ?e ?h]; cbn [sh read_set write_set rv
    snap_counter tid env htm] in *; subst.

(** *** The spinning loop *)

Lemma wait_even_quiet_odd (fuel : nat) (w : World) :
  env w = [] -> Z.even (seqlock (sh w)) = false -> wait_even fuel w = Spin.
Proof.
  revert w. induction fuel as [|f IH]; intros w He Ho; [reflexivity|].
  cbn [wait_even]. unfold bind at 1, load_seqlock, bind at 1.
  rewrite (tick_quiet w He). cbn. rewrite land1_even, Ho.
  apply IH; assumption.
Qed.

Lemma sw_validate_quiet_odd (fuel : nat) (w : World) :
  env w = [] -> Z.even (seqlock (sh w)) = false -> sw_validate fuel w = Spin.
Proof.
  intros He Ho. destruct fuel as [|f]; [reflexivity|].
  cbn [sw_validate]. unfold bind at 1.
  rewrite (wait_even_quiet_odd f w He Ho). reflexivity.
Qed.

Lemma first_even_even (s s' : Shared) (e e' : list Step) :
  first_even s e = Some (s', e') -> Z.even (seqlock s') = true.
Proof.
  revert s. induction e as [|g e IH]; intros s H; cbn in H.
  - destruct (Z.even (seqlock s)) eqn:E; [|discriminate].
    inversion H; subst. exact E.
  - destruct (Z.even (seqlock (g s))) eqn:E; [|apply (IH _ H)].
    inversion H; subst. exact E.
Qed.

Lemma wait_even_meets (fuel : nat) (w : World) (s' : Shared) (e' : list Step) :
  first_even (sh w) (env w) = Some (s', e') ->
  (List.length (env w) < fuel)%nat ->
  wait_even fuel w = Ret tt (set_rv (seqlock s') (set_env e' (set_sh s' w))).
Proof.
  revert w. induction fuel as [|f IH]; intros w Hf Hl; [inversion Hl|].
  open_world w. destruct e as [|g e]; cbn in Hf |- *.
  - rewrite land1_even. destruct (Z.even (seqlock s)); [|discriminate].
    inversion Hf; subst. reflexivity.
  - rewrite land1_even. destruct (Z.even (seqlock (g s))).
    + inversion Hf; subst. reflexivity.
    + cbn in Hl.
      apply (IH (mkWorld (g s) rs ws (seqlock (g s)) sc t e h));
        [exact Hf | cbn; lia].
Qed.

Lemma wait_even_never (fuel : nat) (w : World) :
  first_even (sh w) (env w) = None -> wait_even fuel w = Spin.
Proof.
  revert w. induction fuel as [|f IH]; intros w Hf; [reflexivity|].
  open_world w. destruct e as [|g e]; cbn in Hf |- *.
  - rewrite land1_even. destruct (Z.even (seqlock s)) eqn:E; [discriminate|].
    apply (IH (mkWorld s rs ws (seqlock s) sc t [] h)). cbn.
    rewrite E. reflexivity.
  - rewrite land1_even. destruct (Z.even (seqlock (g s))); [discriminate|].
    apply (IH (mkWorld (g s) rs ws (seqlock (g s)) sc t e h)). exact Hf.
Qed.

(** *** Copying the counters *)

Lemma copy_counters_quiet (n : nat) (i : Z) (w : World) :
  env w = [] ->
  exists sc',
    copy_counters n i w = Ret tt (set_snap_counter sc' w) /\
    (forall j, i <= j < i + Z.of_nat n -> sc' j = counter (sh w) j) /\
    (forall j, ~ (i <= j < i + Z.of_nat n) -> sc' j = snap_counter w j).
Proof.
  revert i w. induction n as [|n IH]; intros i w He.
  - open_world w. exists sc. cbn.
    split; [reflexivity|]. split; intros; [lia|reflexivity].
  - open_world w.
    destruct (IH (i + 1) (mkWorld s rs ws r (upd sc i (counter s i)) t [] h)
                eq_refl) as (sc' & Hrun & Hin & Hout).
    exists sc'. cbn in Hrun, Hin, Hout |- *. split; [|split].
    + unfold copy_counters in *. cbn. exact Hrun.
    + intros j Hj. destruct (Z.eq_dec j i) as [->|Hne].
      * rewrite Hout by lia. unfold upd. rewrite Z.eqb_refl. reflexivity.
      * apply Hin. lia.
    + intros j Hj. rewrite Hout by lia. unfold upd.
      destruct (j =? i) eqn:E; [apply Z.eqb_eq in E; lia|reflexivity].
Qed.

(** The copy always ends; it leaves [rv] and the logs alone. *)
Lemma copy_counters_returns (n : nat) (i : Z) (w : World) :
  exists w',
    copy_counters n i w = Ret tt w' /\
    rv w' = rv w /\ read_set w' = read_set w /\ write_set w' = write_set w.
Proof.
  revert i w. induction n as [|n IH]; intros i w.
  - exists w. repeat split; reflexivity.
  - cbn [copy_counters]. unfold bind at 1, load_counter, bind at 1, tick.
    destruct (env w) as [|g e].
    + unfold get at 1. unfold bind at 1, modify at 1.
      destruct (IH (i + 1)
                   (set_snap_counter (upd (snap_counter w) i (counter (sh w) i))
                                     w)) as (w' & Hrun & Hr & Hrs & Hws).
      exists w'. split; [exact Hrun|]. auto.
    + unfold get at 1. unfold bind at 1, modify at 1.
      match goal with
      | |- exists w', copy_counters _ _ ?w0 = _ /\ _ =>
          destruct (IH (i + 1) w0) as (w' & Hrun & Hr & Hrs & Hws)
      end.
      exists w'. split; [exact Hrun|]. auto.
Qed.

(** ** Partial-correctness reasoning under interference *)

Lemma post_bind {A B} (m : M A) (k : A -> M B) (w : World)
      (R : A -> World -> Prop) (Q : B -> World -> Prop) (E : World -> Prop) :
  post R E (m w) ->
  (forall a w', R a w' -> post Q E (k a w')) ->
  post Q E (bind m k w).
Proof.
  unfold bind. destruct (m w); cbn; auto.
Qed.

Lemma post_weaken {A} (Q Q' : A -> World -> Prop) (E E' : World -> Prop)
      (r : Res A) :
  post Q E r -> (forall a w, Q a w -> Q' a w) -> (forall w, E w -> E' w) ->
  post Q' E' r.
Proof. destruct r; cbn; auto. Qed.

Section Frame.

(** A property of the shared state that the other threads keep, and a
    property of their steps. *)
Variable P : Shared -> Prop.
Variable R : Step -> Prop.

Lemma inv_tick (w : World) :
  inv P R w ->
  match env w with
  | [] => True
  | f :: e => inv P R (set_env e (set_sh (f (sh w)) w))
  end.
Proof.
  intros (Hp & Hs & Hr). destruct (env w) as [|f e] eqn:E; [exact I|].
  unfold stable in Hs. inversion Hs; subst. inversion Hr; subst.
  repeat split; cbn; auto.
Qed.

Lemma post_tick rs ws r (E : World -> Prop) (w : World) :
  keeps P R rs ws r w -> post (fun _ w' => keeps P R rs ws r w') E (tick w).
Proof.
  intros (Hi & Hr & Hw & Hv). unfold tick.
  pose proof (inv_tick w Hi) as Ht.
  destruct (env w); cbn; [repeat split; auto; apply Hi|].
  repeat split; auto; apply Ht.
Qed.

Lemma post_load_seqlock rs ws r (E : World -> Prop) (w : World) :
  keeps P R rs ws r w ->
  post (fun s w' => keeps P R rs ws r w' /\ s = seqlock (sh w')) E (load_seqlock w).
Proof.
  intros H. unfold load_seqlock.
  eapply post_bind; [apply post_tick; eassumption|].
  intros [] w' H'. cbn. auto.
Qed.

Lemma post_load_counter rs ws r i (E : World -> Prop) (w : World) :
  keeps P R rs ws r w ->
  post (fun _ w' => keeps P R rs ws r w') E (load_counter i w).
Proof.
  intros H. unfold load_counter.
  eapply post_bind; [apply post_tick; eassumption|].
  intros [] w' H'. cbn. auto.
Qed.

Lemma post_load_acct rs ws r a (E : World -> Prop) (w : World) :
  keeps P R rs ws r w ->
  post (fun v w' => keeps P R rs ws r w' /\ acct_value (accts (sh w')) a = Some v)
       E (load_acct a w).
Proof.
  intros H. unfold load_acct.
  eapply post_bind; [apply post_tick; eassumption|].
  intros [] w' H'. unfold raw_load_acct.
  destruct (acct_value (accts (sh w')) a) eqn:Ev; cbn; auto.
Qed.

Lemma keeps_set_rv rs ws r r' (w : World) :
  keeps P R rs ws r w -> keeps P R rs ws r' (set_rv r' w).
Proof. intros (Hi & Hr & Hw & Hv). repeat split; auto; apply Hi. Qed.

Lemma keeps_set_snap rs ws r c (w : World) :
  keeps P R rs ws r w -> keeps P R rs ws r (set_snap_counter c w).
Proof. intros (Hi & Hr & Hw & Hv). repeat split; auto; apply Hi. Qed.

Lemma post_wait_even rs ws r (E : World -> Prop) (fuel : nat) (w : World) :
  keeps P R rs ws r w ->
  post (fun _ w' => keeps P R rs ws (rv w') w' /\ Z.even (rv w') = true) E
       (wait_even fuel w).
Proof.
  revert r w. induction fuel as [|f IH]; intros r w H; [exact I|].
  cbn [wait_even].
  eapply post_bind; [apply post_load_seqlock; eassumption|].
  intros s w1 [H1 Hs]. cbn beta.
  eapply post_bind with (R := fun _ w' => keeps P R rs ws s w').
  { cbn. apply keeps_set_rv with (r := r). exact H1. }
  intros [] w2 H2. rewrite land1_even. destruct (Z.even s) eqn:Ev.
  - cbn. destruct H2 as (Hi & Hr & Hw & Hv). rewrite Hv.
    split; [unfold keeps; auto | exact Ev].
  - eapply IH. eassumption.
Qed.

Lemma post_check_reads rs ws r (l : list Acct) (w : World) :
  keeps P R rs ws r w ->
  post (fun _ w' => keeps P R rs ws r w') (aborted P R) (check_reads l w).
Proof.
  revert w. induction l as [|e l IH]; intros w H; [exact H|].
  cbn [check_reads].
  eapply post_bind; [apply post_load_acct; eassumption|].
  intros v w1 [H1 _]. cbn beta. destruct (value e =? v).
  - apply IH. exact H1.
  - cbn. destruct H1 as (Hi & _). repeat split; auto; apply Hi.
Qed.

Lemma post_sw_validate rs ws r (fuel : nat) (w : World) :
  keeps P R rs ws r w ->
  post (fun _ w' => keeps P R rs ws (rv w') w' /\ Z.even (rv w') = true /\
                    rv w' = seqlock (sh w'))
       (aborted P R) (sw_validate fuel w).
Proof.
  revert r w. induction fuel as [|f IH]; intros r w H; [exact I|].
  cbn [sw_validate].
  eapply post_bind; [apply (post_wait_even rs ws r); exact H|].
  intros [] w1 [H1 Ev]. cbn beta.
  eapply post_bind with (R := fun l w' => w' = w1).
  { reflexivity. }
  intros l w2 ->.
  eapply post_bind; [apply post_check_reads; eassumption|].
  intros [] w3 H3. cbn beta.
  eapply post_bind with (R := fun x w' => w' = w3 /\ x = rv w3).
  { cbn. auto. }
  intros x w4 [-> ->].
  eapply post_bind; [apply post_load_seqlock; eassumption|].
  intros s w5 [H5 ->]. cbn beta.
  assert (Hrv : rv w5 = rv w1).
  { destruct H5 as (_ & _ & _ & ->). reflexivity. }
  assert (Hrv3 : rv w3 = rv w1).
  { destruct H3 as (_ & _ & _ & ->). reflexivity. }
  destruct (rv w3 =? seqlock (sh w5)) eqn:Eq.
  - cbn. apply Z.eqb_eq in Eq. rewrite Hrv. repeat split; try apply H5.
    + congruence.
    + congruence.
  - eapply IH. eassumption.
Qed.

Lemma inv_keeps (w : World) :
  inv P R w -> keeps P R (read_set w) (write_set w) (rv w) w.
Proof. intros H. repeat split; auto; apply H. Qed.

Lemma post_copy_counters rs ws r (E : World -> Prop) (n : nat) (i : Z)
      (w : World) :
  keeps P R rs ws r w ->
  post (fun _ w' => keeps P R rs ws r w') E (copy_counters n i w).
Proof.
  revert i w. induction n as [|n IH]; intros i w H; [exact H|].
  cbn [copy_counters].
  eapply post_bind; [apply post_load_counter; eassumption|].
  intros c w1 H1. cbn beta.
  eapply post_bind with (R := fun _ w' => keeps P R rs ws r w').
  { cbn. apply keeps_set_snap. exact H1. }
  intros [] w2 H2. apply IH. exact H2.
Qed.

Lemma post_sw_begin rs ws r (E : World -> Prop) (fuel : nat) (w : World) :
  keeps P R rs ws r w ->
  post (fun _ w' => keeps P R rs ws (rv w') w' /\ Z.even (rv w') = true) E
       (sw_begin fuel w).
Proof.
  intros H. unfold sw_begin.
  eapply post_bind; [apply (post_wait_even rs ws r); exact H|].
  intros [] w1 [H1 Ev]. cbn beta.
  eapply post_weaken;
    [apply (post_copy_counters rs ws (rv w1)); exact H1 | | intros ? HE; exact HE].
  intros [] w2 H2. cbn beta.
  assert (Hrv : rv w2 = rv w1) by apply H2.
  rewrite Hrv. split; assumption.
Qed.

Lemma post_reload rs ws r (V : Z -> Prop) (fuel : nat) (a val : Z)
      (w : World) :
  (forall s v, P s -> acct_value (accts s) a = Some v -> V v) ->
  keeps P R rs ws r w -> V val ->
  post (fun v w' => keeps P R rs ws (rv w') w' /\ rv w' = seqlock (sh w') /\
                    (Z.even r = true -> Z.even (rv w') = true) /\ V v)
       (aborted P R) (reload fuel a val w).
Proof.
  intros HV. revert r val w.
  induction fuel as [|f IH]; intros r val w H Hval; [exact I|].
  cbn [reload].
  eapply post_bind with (R := fun x w' => w' = w /\ x = rv w).
  { cbn. auto. }
  intros x w1 [-> ->].
  eapply post_bind; [apply post_load_seqlock; eassumption|].
  intros s w2 [H2 ->]. cbn beta.
  assert (Hr : rv w = r) by apply H.
  assert (Hrv : rv w2 = rv w).
  { destruct H2 as (_ & _ & _ & ->). symmetry. exact Hr. }
  destruct (rv w =? seqlock (sh w2)) eqn:Eq.
  - cbn. apply Z.eqb_eq in Eq. rewrite Hrv.
    split; [|split; [exact Eq | split; [rewrite Hr; auto | exact Hval]]].
    rewrite <- Hrv.
    destruct H2 as (Hi & Hrs & Hws & Hv). unfold keeps. auto.
  - eapply post_bind; [apply (post_sw_validate rs ws r); exact H2|].
    intros [] w3 (H3 & Hev3 & _). cbn beta.
    eapply post_bind; [apply post_load_acct; eassumption|].
    intros v w4 [H4 Hv]. cbn beta.
    eapply post_weaken.
    + eapply IH; [exact H4|]. eapply HV; [|exact Hv]. apply H4.
    + intros v' w' (K1 & K2 & K3 & K4). auto.
    + auto.
Qed.

Lemma post_sw_read_miss rs ws r (V : Z -> Prop) (fuel : nat) (a : Z)
      (w : World) :
  (forall s v, P s -> acct_value (accts s) a = Some v -> V v) ->
  keeps P R rs ws r w -> ws_lookup a ws = None ->
  post (fun v w' => keeps P R (rs ++ [mkAcct a v]) ws (rv w') w' /\
                    rv w' = seqlock (sh w') /\
                    (Z.even r = true -> Z.even (rv w') = true) /\ V v)
       (aborted P R) (sw_read fuel a w).
Proof.
  intros HV H Hm. unfold sw_read.
  eapply post_bind with (R := fun x w' => w' = w /\ x = ws).
  { cbn. split; [reflexivity | apply H]. }
  intros x w1 [-> ->]. rewrite Hm.
  eapply post_bind; [apply post_load_acct; eassumption|].
  intros v0 w2 [H2 Hv0]. cbn beta.
  eapply post_bind.
  { apply (post_reload rs ws r V); [exact HV | exact H2 |].
    eapply HV; [|exact Hv0]. apply H2. }
  intros v w3 (H3 & Hrv & Hev & Hv). cbn beta.
  eapply post_bind with
    (R := fun _ w' => keeps P R (rs ++ [mkAcct a v]) ws (rv w') w' /\
                      rv w' = seqlock (sh w') /\
                      (Z.even r = true -> Z.even (rv w') = true)).
  { cbn. split; [|split; [exact Hrv | exact Hev]].
    destruct H3 as (Hi & Hr & Hw & _). unfold keeps. cbn.
    rewrite Hr. repeat split; auto; apply Hi. }
  intros [] w4 (H4 & Hrv4 & Hev4). cbn. auto.
Qed.

Lemma post_sw_read_inv (fuel : nat) (a : Z) (w : World) :
  inv P R w ->
  post (fun _ w' => inv P R w' /\
                    (Z.even (rv w) = true -> Z.even (rv w') = true))
       (aborted P R) (sw_read fuel a w).
Proof.
  intros H. destruct (ws_lookup a (write_set w)) eqn:Hm.
  - unfold sw_read, bind, get. rewrite Hm. cbn. auto.
  - eapply post_weaken.
    + apply (post_sw_read_miss (read_set w) (write_set w) (rv w)
               (fun _ => True)); auto using inv_keeps.
    + intros v w' (Hk & _ & Hev & _). split; [apply Hk | exact Hev].
    + auto.
Qed.

Lemma post_sw_write (E : World -> Prop) (a v : Z) (w : World) :
  inv P R w ->
  post (fun _ w' => inv P R w' /\ rv w' = rv w) E (sw_write a v w).
Proof. intros H. cbn. split; [|reflexivity]. repeat split; apply H. Qed.

End Frame.

Section FrameSeqlockFree.

(** A property that the other threads keep and that a write to [seqlock]
    cannot break: one of the accounts and the counters. *)
Variable P : Shared -> Prop.
Variable R : Step -> Prop.
Hypothesis Pfree : seqlock_free P.

Lemma keeps_set_seqlock rs ws r v (w : World) :
  keeps P R rs ws r w -> keeps P R rs ws r (set_sh (set_seqlock v (sh w)) w).
Proof.
  intros (Hi & Hr & Hw & Hv). repeat split; auto; try apply Hi.
  cbn. apply Pfree. apply Hi.
Qed.

Lemma post_cas_seqlock rs ws r (E : World -> Prop) (old new : Z) (w : World) :
  keeps P R rs ws r w ->
  post (fun _ w' => keeps P R rs ws r w') E (cas_seqlock old new w).
Proof.
  intros H. unfold cas_seqlock.
  eapply post_bind; [apply post_tick; eassumption|].
  intros [] w1 H1. cbn beta.
  eapply post_bind with (R := fun x w' => w' = w1).
  { reflexivity. }
  intros s w2 ->. destruct (s =? old); [|exact H1].
  cbn. apply keeps_set_seqlock. exact H1.
Qed.

Lemma post_acquire rs ws r (fuel : nat) (w : World) :
  keeps P R rs ws r w ->
  post (fun _ w' => keeps P R rs ws (rv w') w') (aborted P R) (acquire fuel w).
Proof.
  revert r w. induction fuel as [|f IH]; intros r w H; [exact I|].
  cbn [acquire].
  eapply post_bind with (R := fun x w' => w' = w).
  { reflexivity. }
  intros x w1 ->.
  eapply post_bind; [apply post_cas_seqlock; eassumption|].
  intros ok w2 H2. cbn beta. destruct ok.
  - cbn. assert (Hrv : rv w2 = r) by apply H2. rewrite Hrv. exact H2.
  - eapply post_bind; [apply (post_sw_validate P R rs ws r); exact H2|].
    intros [] w3 (H3 & _). cbn beta. eapply IH. exact H3.
Qed.

Lemma post_check_counters rs ws r (fuel n : nat) (i : Z) (w : World) :
  keeps P R rs ws r w ->
  post (fun _ w' => keeps P R rs ws (rv w') w') (aborted P R)
       (check_counters fuel n i w).
Proof.
  revert i w. induction n as [|n IH]; intros i w H.
  - cbn. assert (Hrv : rv w = r) by apply H. rewrite Hrv. exact H.
  - cbn [check_counters].
    eapply post_bind with (R := fun x w' => w' = w).
    { reflexivity. }
    intros x w1 ->.
    eapply post_bind; [apply post_load_counter; eassumption|].
    intros c w2 H2. cbn beta. destruct (x =? c).
    + apply IH. exact H2.
    + eapply post_weaken;
        [apply (post_sw_validate P R rs ws r); exact H2 | | auto].
      intros [] w3 (H3 & _). exact H3.
Qed.

End FrameSeqlockFree.

(** Nothing after the counter check of [sw_commit] throws. *)
Lemma commit_tail_no_throw (ws : list Acct) (w : World) :
  post (fun _ _ => True) (fun _ => False)
       ((writeback ws ;; incr_seqlock ;; modify (set_read_set []) ;;
         modify (set_write_set [])) w).
Proof.
  eapply post_bind with (R := fun _ _ => True).
  - revert w. induction ws as [|e ws IH]; intros w; [exact I|].
    cbn [writeback]. unfold store_acct.
    eapply post_bind with (R := fun _ _ => True).
    + unfold bind, tick. destruct (env w); cbn; unfold raw_store_acct;
        match goal with |- context [acct_store ?l ?a ?v] =>
          destruct (acct_store l a v) end; exact I.
    + intros [] w' _. apply IH.
  - intros [] w5 _.
    unfold incr_seqlock, load_seqlock, store_seqlock, bind, tick.
    destruct (env w5); cbn;
      repeat match goal with |- context [match ?l with [] => _ | _ => _ end] =>
        destruct l; cbn end; exact I.
Qed.

Lemma post_sw_commit (P : Shared -> Prop) (R : Step -> Prop) (fuel : nat)
      (w : World) :
  seqlock_free P ->
  inv P R w -> post (fun _ _ => True) (aborted P R) (sw_commit fuel w).
Proof.
  intros Pfree H. unfold sw_commit.
  eapply post_bind with (R := fun x w' => w' = w).
  { reflexivity. }
  intros x w1 ->. destruct x as [|e x]; [exact I|].
  eapply post_bind;
    [apply (post_acquire P R Pfree (read_set w) (write_set w) (rv w));
     apply inv_keeps; exact H|].
  intros [] w2 H2. cbn beta.
  eapply post_bind;
    [apply (post_check_counters P R (read_set w) (write_set w) (rv w2));
     exact H2|].
  intros [] w3 H3. cbn beta.
  eapply post_bind with (R := fun _ _ => True); [exact I|].
  intros ws' w4 _.
  eapply post_weaken; [apply commit_tail_no_throw | auto | intros ? []].
Qed.

(** *** Inside the write-back window *)

Lemma held_tick (E : World -> Prop) (w : World) :
  held w -> post (fun _ w' => held w') E (tick w).
Proof.
  intros [Ho Hr]. unfold tick. destruct (env w) as [|f e] eqn:Ee; cbn.
  - split; [exact Ho | rewrite Ee; exact Hr].
  - inversion Hr as [|f' e' Hf He]; subst. split; [|exact He].
    cbn. rewrite (Hf _ Ho). exact Ho.
Qed.

(** With the window taken and left alone by the others, the loop that
    waits for an even [seqlock] never ends. *)
Lemma wait_even_held (fuel : nat) (w : World) :
  held w -> wait_even fuel w = Spin.
Proof.
  revert w. induction fuel as [|f IH]; intros w H; [reflexivity|].
  cbn [wait_even]. unfold bind at 1, load_seqlock, bind at 1.
  pose proof (held_tick (fun _ => True) w H) as Ht.
  destruct (tick w) as [[] w1|w1| |] eqn:Et;
    try (unfold tick in Et; destruct (env w); discriminate).
  cbn in Ht. unfold get at 1. unfold bind at 1, modify at 1.
  rewrite land1_even. destruct Ht as [Ho Hr]. rewrite Ho.
  apply IH. split; assumption.
Qed.

Lemma sw_validate_held (fuel : nat) (w : World) :
  held w -> sw_validate fuel w = Spin.
Proof.
  intros H. destruct fuel as [|f]; [reflexivity|].
  cbn [sw_validate]. unfold bind at 1.
  rewrite (wait_even_held f w H). reflexivity.
Qed.

Lemma post_check_counters_held (fuel n : nat) (i : Z) (w : World) :
  held w ->
  post (fun _ w' => held w') (fun _ => False) (check_counters fuel n i w).
Proof.
  revert i w. induction n as [|n IH]; intros i w H; [exact H|].
  cbn [check_counters].
  eapply post_bind with (R := fun x w' => w' = w).
  { reflexivity. }
  intros x w1 ->. unfold load_counter.
  eapply post_bind with (R := fun _ w' => held w').
  { eapply post_bind; [apply held_tick; exact H|].
    intros [] w2 H2. exact H2. }
  intros c w2 H2. cbn beta. destruct (x =? c).
  - apply IH. exact H2.
  - rewrite (sw_validate_held fuel w2 H2). exact I.
Qed.

Section FrameWindow.

(** Any property of the shared state that the other threads keep, when
    they also leave a window that is taken alone. *)
Variable P : Shared -> Prop.

Lemma post_cas_window rs ws r (E : World -> Prop) (old : Z) (w : World) :
  keeps P respects rs ws r w -> Z.even old = true ->
  post (fun ok w' => if ok : bool then held w'
                     else keeps P respects rs ws r w') E
       (cas_seqlock old (u32 (old + 1)) w).
Proof.
  intros H Hev. unfold cas_seqlock.
  eapply post_bind; [apply post_tick; eassumption|].
  intros [] w1 H1. cbn beta.
  eapply post_bind with (R := fun s w' => w' = w1 /\ s = seqlock (sh w1)).
  { cbn. auto. }
  intros s w2 [-> ->]. destruct (seqlock (sh w1) =? old); [|exact H1].
  cbn. split; [apply even_u32_succ; exact Hev | apply H1].
Qed.

Lemma post_acquire_window rs ws r (fuel : nat) (w : World) :
  keeps P respects rs ws r w -> Z.even r = true ->
  post (fun _ w' => held w') (aborted P respects) (acquire fuel w).
Proof.
  revert r w. induction fuel as [|f IH]; intros r w H Hev; [exact I|].
  cbn [acquire].
  eapply post_bind with (R := fun x w' => w' = w /\ x = r).
  { cbn. split; [reflexivity | apply H]. }
  intros x w1 [-> ->].
  eapply post_bind; [apply (post_cas_window rs ws r); eassumption|].
  intros ok w2 H2. cbn beta. destruct ok; [exact H2|].
  eapply post_bind; [apply (post_sw_validate P respects rs ws r); exact H2|].
  intros [] w4 (H4 & Hev4 & _). cbn beta. eapply IH; eassumption.
Qed.

Lemma post_sw_commit_window (fuel : nat) (w : World) :
  inv P respects w -> Z.even (rv w) = true ->
  post (fun _ _ => True) (aborted P respects) (sw_commit fuel w).
Proof.
  intros H Hev. unfold sw_commit.
  eapply post_bind with (R := fun x w' => w' = w).
  { reflexivity. }
  intros x w1 ->. destruct x as [|e x]; [exact I|].
  eapply post_bind;
    [apply (post_acquire_window (read_set w) (write_set w) (rv w));
     [apply inv_keeps; exact H | exact Hev]|].
  intros [] w2 H2. cbn beta.
  eapply post_bind.
  { eapply post_weaken;
      [apply (post_check_counters_held fuel NUM_SLOTS 0 w2 H2)
      | intros a w' Hh; exact Hh | intros ? []]. }
  intros [] w3 H3. cbn beta.
  eapply post_bind with (R := fun _ _ => True); [exact I|].
  intros ws' w4 _.
  eapply post_weaken; [apply commit_tail_no_throw | auto | intros ? []].
Qed.

End FrameWindow.

(** ** Runs without concurrent modification *)

Lemma load_acct_quiet (a v : Z) (w : World) :
  env w = [] -> acct_value (accts (sh w)) a = Some v ->
  load_acct a w = Ret v w.
Proof.
  intros He Hv. unfold load_acct, bind. rewrite (tick_quiet w He).
  unfold raw_load_acct. rewrite Hv. reflexivity.
Qed.

Lemma load_seqlock_quiet (w : World) :
  env w = [] -> load_seqlock w = Ret (seqlock (sh w)) w.
Proof.
  intros He. unfold load_seqlock, bind. rewrite (tick_quiet w He). reflexivity.
Qed.

Lemma check_reads_quiet_ok (l : list Acct) (w : World) :
  env w = [] -> Forall (agrees (accts (sh w))) l ->
  check_reads l w = Ret tt w.
Proof.
  intros He Hl. induction Hl as [|e l Ha Hl IH]; [reflexivity|].
  cbn [check_reads]. unfold bind at 1.
  rewrite (load_acct_quiet _ _ w He Ha), Z.eqb_refl. exact IH.
Qed.

Lemma check_reads_quiet_bad (l1 l2 : list Acct) (e : Acct) (x : Z)
      (w : World) :
  env w = [] -> Forall (agrees (accts (sh w))) l1 ->
  acct_value (accts (sh w)) (addr e) = Some x -> x <> value e ->
  check_reads (l1 ++ e :: l2) w = Throw (set_write_set [] (set_read_set [] w)).
Proof.
  intros He Hl Hx Hne. induction Hl as [|e1 l Ha Hl IH].
  - cbn [app check_reads]. unfold bind at 1.
    rewrite (load_acct_quiet _ _ w He Hx).
    destruct (value e =? x) eqn:E; [apply Z.eqb_eq in E; congruence|].
    reflexivity.
  - cbn [app check_reads]. unfold bind at 1.
    rewrite (load_acct_quiet _ _ w He Ha), Z.eqb_refl. exact IH.
Qed.

Lemma wait_even_quiet_even (fuel : nat) (w : World) :
  env w = [] -> Z.even (seqlock (sh w)) = true ->
  wait_even (S fuel) w = Ret tt (set_rv (seqlock (sh w)) w).
Proof.
  intros He Hv. open_world w. cbn. rewrite land1_even.
  cbn in Hv. rewrite Hv. reflexivity.
Qed.

Lemma sw_validate_quiet_ok (fuel : nat) (w : World) :
  env w = [] -> Z.even (seqlock (sh w)) = true ->
  Forall (agrees (accts (sh w))) (read_set w) ->
  sw_validate (S (S fuel)) w = Ret tt (set_rv (seqlock (sh w)) w).
Proof.
  intros He Hv Hl. cbn [sw_validate]. unfold bind at 1.
  rewrite (wait_even_quiet_even fuel w He Hv).
  unfold bind at 1, get at 1. unfold bind at 1.
  rewrite check_reads_quiet_ok; [|exact He|exact Hl].
  unfold bind at 1, get at 1. unfold bind at 1.
  rewrite load_seqlock_quiet by exact He.
  cbn [rv set_rv sh]. rewrite Z.eqb_refl. reflexivity.
Qed.

Lemma sw_validate_quiet_bad (fuel : nat) (l1 l2 : list Acct) (e : Acct)
      (x : Z) (w : World) :
  env w = [] -> Z.even (seqlock (sh w)) = true ->
  read_set w = l1 ++ e :: l2 ->
  Forall (agrees (accts (sh w))) l1 ->
  acct_value (accts (sh w)) (addr e) = Some x -> x <> value e ->
  sw_validate (S (S fuel)) w =
  Throw (set_write_set [] (set_read_set [] (set_rv (seqlock (sh w)) w))).
Proof.
  intros He Hv Hr Hl Hx Hne. cbn [sw_validate]. unfold bind at 1.
  rewrite (wait_even_quiet_even fuel w He Hv).
  unfold bind at 1, get at 1. unfold bind at 1.
  cbn [read_set set_rv]. rewrite Hr.
  rewrite (check_reads_quiet_bad l1 l2 e x); auto.
Qed.

Lemma reload_quiet_same (fuel : nat) (a val : Z) (w : World) :
  env w = [] -> rv w = seqlock (sh w) ->
  reload (S fuel) a val w = Ret val w.
Proof.
  intros He Hv. cbn [reload]. unfold bind at 1, get at 1. unfold bind at 1.
  rewrite load_seqlock_quiet by exact He.
  rewrite Hv, Z.eqb_refl. reflexivity.
Qed.

Lemma acquire_quiet_same (fuel : nat) (w : World) :
  env w = [] -> rv w = seqlock (sh w) ->
  acquire (S fuel) w =
  Ret tt (set_sh (set_seqlock (u32 (rv w + 1)) (sh w)) w).
Proof.
  intros He Hv. open_world w. cbn [acquire].
  unfold bind, get, cas_seqlock, bind, tick, get. cbn.
  rewrite Z.eqb_refl. reflexivity.
Qed.

Lemma check_counters_quiet_same (fuel n : nat) (i : Z) (w : World) :
  env w = [] ->
  (forall j, i <= j < i + Z.of_nat n -> snap_counter w j = counter (sh w) j) ->
  check_counters fuel n i w = Ret tt w.
Proof.
  intros He. revert i. induction n as [|n IH]; intros i Hs; [reflexivity|].
  cbn [check_counters]. unfold bind at 1, get at 1. unfold bind at 1.
  unfold load_counter. unfold bind at 1. rewrite (tick_quiet w He).
  unfold get. rewrite (Hs i) by lia. rewrite Z.eqb_refl.
  apply IH. intros j Hj. apply Hs. lia.
Qed.

Lemma check_counters_quiet_diff (fuel n : nat) (i k : Z) (w : World) :
  env w = [] -> i <= k < i + Z.of_nat n ->
  snap_counter w k <> counter (sh w) k ->
  check_counters fuel n i w = sw_validate fuel w.
Proof.
  intros He. revert i. induction n as [|n IH]; intros i Hk Hne; [lia|].
  cbn [check_counters]. unfold bind at 1, get at 1. unfold bind at 1.
  unfold load_counter. unfold bind at 1. rewrite (tick_quiet w He).
  unfold get. destruct (snap_counter w i =? counter (sh w) i) eqn:E.
  - apply IH; [|exact Hne]. apply Z.eqb_eq in E.
    destruct (Z.eq_dec k i) as [->|]; [congruence|lia].
  - reflexivity.
Qed.

Lemma writeback_quiet (ws : list Acct) (l' : list Acct) (w : World) :
  env w = [] -> flush (accts (sh w)) ws = Some l' ->
  writeback ws w = Ret tt (set_sh (set_accts l' (sh w)) w).
Proof.
  revert w. induction ws as [|e ws IH]; intros w He Hf.
  - cbn in Hf. inversion Hf; subst. open_world w. destruct s. reflexivity.
  - cbn [flush] in Hf. cbn [writeback]. unfold bind at 1, store_acct.
    unfold bind at 1. rewrite (tick_quiet w He). unfold raw_store_acct.
    destruct (acct_store (accts (sh w)) (addr e) (value e)) as [l1|] eqn:Es;
      [|discriminate].
    rewrite (IH (set_sh (set_accts l1 (sh w)) w)); [| |exact Hf].
    + open_world w. reflexivity.
    + open_world w. reflexivity.
Qed.

Lemma incr_seqlock_quiet (w : World) :
  env w = [] ->
  incr_seqlock w = Ret tt (set_sh (set_seqlock (u32 (seqlock (sh w) + 1)) (sh w)) w).
Proof.
  intros He. open_world w. reflexivity.
Qed.

(** Taking the window without interference: at once when [rv] is current,
    after one validation of a read set that still agrees otherwise. *)
Lemma acquire_quiet (fuel : nat) (w : World) :
  env w = [] -> Z.even (seqlock (sh w)) = true ->
  rv w = seqlock (sh w) \/ Forall (agrees (accts (sh w))) (read_set w) ->
  (acquire fuel w = Spin \/ acquire fuel w = Ret tt (in_window w)) /\
  ((3 <= fuel)%nat -> acquire fuel w = Ret tt (in_window w)).
Proof.
  intros He Hev Hor.
  destruct (Z.eq_dec (rv w) (seqlock (sh w))) as [Heq|Hne].
  - destruct fuel as [|f]; [split; [left; reflexivity | lia]|].
    rewrite (acquire_quiet_same f w He Heq).
    assert (Hw : set_sh (set_seqlock (u32 (rv w + 1)) (sh w)) w = in_window w).
    { open_world w. reflexivity. }
    rewrite Hw. split; auto.
  - destruct Hor as [Heq|Hag]; [contradiction|].
    destruct fuel as [|f]; [split; [left; reflexivity | lia]|].
    assert (Hstep : acquire (S f) w = (sw_validate f ;; acquire f) w).
    { cbn [acquire]. unfold bind at 1, get at 1. unfold bind at 1.
      unfold cas_seqlock. unfold bind at 1. rewrite (tick_quiet w He).
      unfold bind at 1, get at 1.
      destruct (seqlock (sh w) =? rv w) eqn:E;
        [apply Z.eqb_eq in E; congruence | reflexivity]. }
    rewrite Hstep. unfold bind.
    destruct f as [|[|f]]; [split; [left; reflexivity | lia] ..|].
    rewrite (sw_validate_quiet_ok f w He Hev Hag).
    rewrite acquire_quiet_same; [|open_world w; reflexivity ..].
    assert (Hw : set_sh (set_seqlock (u32 (rv (set_rv (seqlock (sh w)) w) + 1))
                                     (sh (set_rv (seqlock (sh w)) w)))
                        (set_rv (seqlock (sh w)) w) = in_window w).
    { open_world w. reflexivity. }
    rewrite Hw. split; auto.
Qed.

(** The rest of [sw_commit] once the window is taken at the current
    [seqlock], when the counters are as they were at [sw_begin]: the write
    set is written back in order, the window is released and the logs are
    cleared. *)
Lemma sw_commit_in_window (fuel : nat) (w : World) (l' : list Acct) :
  env w = [] -> write_set w <> [] ->
  acquire fuel w = Ret tt (in_window w) ->
  (forall j, 0 <= j < Z.of_nat NUM_SLOTS ->
             snap_counter w j = counter (sh w) j) ->
  flush (accts (sh w)) (write_set w) = Some l' ->
  sw_commit fuel w =
  Ret tt (mkWorld (mkShared l' (u32 (seqlock (sh w) + 2)) (counter (sh w)))
                  [] [] (seqlock (sh w)) (snap_counter w) (tid w) [] (htm w)).
Proof.
  intros He Hne Hacq Hc Hf. unfold sw_commit.
  unfold bind at 1, get at 1.
  destruct (write_set w) as [|e0 ws0] eqn:Ews; [congruence|].
  unfold bind at 1. rewrite Hacq.
  unfold bind at 1.
  rewrite check_counters_quiet_same;
    [|open_world w; reflexivity|open_world w; exact Hc].
  unfold bind at 1, get at 1. unfold bind at 1.
  rewrite (writeback_quiet _ l');
    [|open_world w; reflexivity|open_world w; cbn in *; subst; exact Hf].
  unfold bind at 1. rewrite incr_seqlock_quiet by (open_world w; reflexivity).
  open_world w. cbn. rewrite u32_succ_succ. reflexivity.
Qed.

(** The same from an even [seqlock], through [acquire]. *)
Lemma sw_commit_quiet_same (fuel : nat) (w : World) (l' : list Acct) :
  env w = [] -> write_set w <> [] -> Z.even (seqlock (sh w)) = true ->
  rv w = seqlock (sh w) \/ Forall (agrees (accts (sh w))) (read_set w) ->
  (forall j, 0 <= j < Z.of_nat NUM_SLOTS ->
             snap_counter w j = counter (sh w) j) ->
  flush (accts (sh w)) (write_set w) = Some l' ->
  sw_commit (3 + fuel) w =
  Ret tt (mkWorld (mkShared l' (u32 (seqlock (sh w) + 2)) (counter (sh w)))
                  [] [] (seqlock (sh w)) (snap_counter w) (tid w) [] (htm w)).
Proof.
  intros He Hne Hev Hor Hc Hf.
  apply sw_commit_in_window; try assumption.
  apply (proj2 (acquire_quiet (3 + fuel) w He Hev Hor)). lia.
Qed.

(** [sw_commit] when a counter moved since [sw_begin]: [sw_validate] is
    called inside the window and waits for an even [seqlock] for ever. *)
Lemma sw_commit_quiet_diff (fuel : nat) (w : World) (k : Z) :
  env w = [] -> write_set w <> [] -> Z.even (seqlock (sh w)) = true ->
  rv w = seqlock (sh w) \/ Forall (agrees (accts (sh w))) (read_set w) ->
  0 <= k < Z.of_nat NUM_SLOTS -> snap_counter w k <> counter (sh w) k ->
  sw_commit fuel w = Spin.
Proof.
  intros He Hne Hev Hor Hk Hd. unfold sw_commit.
  unfold bind at 1, get at 1.
  destruct (write_set w) as [|e0 ws0] eqn:Ews; [congruence|].
  unfold bind at 1.
  destruct (proj1 (acquire_quiet fuel w He Hev Hor)) as [-> | ->];
    [reflexivity|].
  unfold bind at 1.
  rewrite (check_counters_quiet_diff _ _ 0 k);
    [|open_world w; reflexivity|exact Hk|open_world w; exact Hd].
  rewrite sw_validate_quiet_odd; [reflexivity|open_world w; reflexivity|].
  open_world w. cbn. apply even_u32_succ. exact Hev.
Qed.

(** ** The claims about the software routines *)

(** C1 (the code does not do what the claim says).  When [sw_validate] runs
    inside the write-back window of its own thread, that is with [seqlock]
    odd and equal to [rv + 1] and no other thread changing the odd
    [seqlock], it does not terminate: whatever the fuel and whatever else
    the other threads do, its first loop is still waiting for an even
    [seqlock].  The read set is never looked at. *)
Theorem sw_validate_in_window_spins (fuel : nat) (w : World) :
  Forall respects (env w) ->
  seqlock (sh w) = rv w + 1 ->
  Z.odd (seqlock (sh w)) = true ->
  sw_validate fuel w = Spin.
Proof.
  intros He _ Ho. apply sw_validate_held. split; [|exact He].
  rewrite <- Z.negb_odd, Ho. reflexivity.
Qed.

Lemma sw_validate_in_window_spins_witness :
  Forall respects (env world_in_window) /\
  seqlock (sh world_in_window) = rv world_in_window + 1 /\
  Z.odd (seqlock (sh world_in_window)) = true /\
  sw_validate 1000 world_in_window = Spin.
Proof.
  assert (He : Forall respects (env world_in_window)).
  { constructor; [|constructor; [|constructor]].
    - intros s Hs. reflexivity.
    - intros s Hs. unfold writer. rewrite Hs. reflexivity. }
  split; [exact He|]. split; [reflexivity|]. split; [reflexivity|].
  apply (sw_validate_in_window_spins 1000 world_in_window He); reflexivity.
Defined.

(** C4 (the code does not do what the claim says).  [sw_commit] on an empty
    write set returns at once and leaves the whole state as it was: the
    shared variables are untouched, but the read set is not cleared. *)
Theorem sw_commit_read_only (fuel : nat) (w : World) :
  write_set w = [] -> sw_commit fuel w = Ret tt w.
Proof.
  intros H. unfold sw_commit, bind, get. rewrite H. reflexivity.
Qed.

Lemma sw_commit_read_only_witness :
  write_set world_read_only = [] /\
  exists w', sw_commit 10 world_read_only = Ret tt w' /\
             read_set w' = [mkAcct 0 1000].
Proof.
  split; [reflexivity|]. exists world_read_only.
  split; [apply (sw_commit_read_only 10 world_read_only)|]; reflexivity.
Defined.

(** C5, as amended.  [sw_begin] spins until it reads an even [seqlock] into
    [rv]: a call that returns has [rv] even, it returns, with that value in
    [rv], as soon as an even value is met, and never when none is.  Without
    interference during the copy the 72 counters are in [snap_counter].
    The read set and the write set are left as they were; they are not
    cleared. *)
Theorem sw_begin_spec (fuel : nat) (w : World) :
  (forall w', sw_begin fuel w = Ret tt w' ->
     Z.even (rv w') = true /\
     read_set w' = read_set w /\ write_set w' = write_set w) /\
  (forall s', first_even (sh w) (env w) = Some (s', []) ->
     (List.length (env w) < fuel)%nat ->
     exists sc',
       sw_begin fuel w =
       Ret tt (mkWorld s' (read_set w) (write_set w) (seqlock s') sc'
                       (tid w) [] (htm w)) /\
       forall j, 0 <= j < Z.of_nat NUM_SLOTS -> sc' j = counter s' j) /\
  (forall s' e', first_even (sh w) (env w) = Some (s', e') ->
     (List.length (env w) < fuel)%nat ->
     exists w',
       sw_begin fuel w = Ret tt w' /\ rv w' = seqlock s' /\
       Z.even (seqlock s') = true) /\
  (first_even (sh w) (env w) = None -> sw_begin fuel w = Spin).
Proof.
  split; [|split; [|split]].
  - intros w' Hrun.
    assert (Hk : keeps (fun _ => True) (fun _ => True)
                       (read_set w) (write_set w) (rv w) w).
    { apply inv_keeps.
      repeat split; [apply stable_True | apply Forall_any]. }
    pose proof (post_sw_begin _ _ _ _ _ (fun _ => True) fuel w Hk) as Hp.
    rewrite Hrun in Hp. cbn in Hp. destruct Hp as ((_ & Hr & Hw & _) & Hev).
    auto.
  - intros s' Hf Hl. unfold sw_begin, bind.
    rewrite (wait_even_meets fuel w s' [] Hf Hl).
    destruct (copy_counters_quiet NUM_SLOTS 0
                (set_rv (seqlock s') (set_env [] (set_sh s' w))) eq_refl)
      as (sc' & Hrun & Hin & _).
    exists sc'. rewrite Hrun. split; [reflexivity|].
    intros j Hj. apply Hin. lia.
  - intros s' e' Hf Hl. unfold sw_begin, bind.
    rewrite (wait_even_meets fuel w s' e' Hf Hl).
    destruct (copy_counters_returns NUM_SLOTS 0
                (set_rv (seqlock s') (set_env e' (set_sh s' w))))
      as (w' & Hrun & Hr & _).
    exists w'. split; [exact Hrun|]. split; [exact Hr|].
    apply (first_even_even _ _ _ _ Hf).
  - intros Hf. unfold sw_begin, bind. rewrite (wait_even_never fuel w Hf).
    reflexivity.
Qed.

Lemma sw_begin_spec_witness :
  exists sc',
    sw_begin 3 world_waiting =
    Ret tt (mkWorld (mkShared init_accts 2 (fun _ => 0)) [] [] 2 sc' 0 [] []) /\
    forall j, 0 <= j < Z.of_nat NUM_SLOTS -> sc' j = 0.
Proof.
  destruct (proj1 (proj2 (sw_begin_spec 3 world_waiting))
                  (mkShared init_accts 2 (fun _ => 0)) eq_refl)
    as (sc' & Hrun & Hsc); [cbn; lia|].
  exists sc'. split; [exact Hrun | exact Hsc].
Defined.

(** C5 as stated fails: [sw_begin] does not clear the logs.  After the
    read-only transaction of [world_poor] has committed, the next
    [sw_begin] returns with the read set still holding its entry. *)
Lemma sw_begin_keeps_logs :
  exists w1 w2,
    sw_txn lcg 5 world_poor = Ret tt w1 /\
    sw_begin 5 w1 = Ret tt w2 /\
    read_set w2 = [mkAcct 0 10].
Proof.
  do 2 eexists. split; [vm_compute; reflexivity|].
  split; [vm_compute; reflexivity | reflexivity].
Qed.

(** C7 (the code does what the claim says only while the counters are
    unchanged).  [sw_commit] on a write set that is not empty, without
    interference, from an even [seqlock] that is either [rv] or is reached
    by one validation after the failed compare-and-swap:
    - when the 72 counters equal their snapshot, the window is taken, the
      write set is written back in order, [seqlock] ends at the even value
      [rv + 2] (for the validated [rv]) and both logs are cleared;
    - when a counter differs, [sw_validate] is called inside the window and
      never returns, so nothing is written back and the window is never
      released. *)
Theorem sw_commit_window (w : World) :
  env w = [] -> write_set w <> [] -> Z.even (seqlock (sh w)) = true ->
  rv w = seqlock (sh w) \/ Forall (agrees (accts (sh w))) (read_set w) ->
  (forall l',
     (forall j, 0 <= j < Z.of_nat NUM_SLOTS ->
                snap_counter w j = counter (sh w) j) ->
     flush (accts (sh w)) (write_set w) = Some l' ->
     forall fuel,
       sw_commit (3 + fuel) w =
       Ret tt (mkWorld (mkShared l' (u32 (seqlock (sh w) + 2)) (counter (sh w)))
                       [] [] (seqlock (sh w)) (snap_counter w) (tid w) []
                       (htm w)) /\
       Z.even (u32 (seqlock (sh w) + 2)) = true) /\
  (forall k,
     0 <= k < Z.of_nat NUM_SLOTS -> snap_counter w k <> counter (sh w) k ->
     forall fuel, sw_commit fuel w = Spin).
Proof.
  intros He Hne Hev Hor. split.
  - intros l' Hc Hf fuel. split.
    + apply sw_commit_quiet_same; assumption.
    + rewrite even_u32, Z.even_add, Hev. reflexivity.
  - intros k Hk Hd fuel. apply (sw_commit_quiet_diff fuel w k); assumption.
Qed.

Lemma sw_commit_window_witness :
  (exists w',
     sw_commit 3 (world_commit 0) = Ret tt w' /\
     seqlock (sh w') = 6 /\
     acct_value (accts (sh w')) 0 = Some 950 /\
     acct_value (accts (sh w')) 1 = Some 1050 /\
     read_set w' = [] /\ write_set w' = []) /\
  sw_commit 1000 (world_commit 1) = Spin.
Proof.
  split.
  - destruct (flush (accts (sh (world_commit 0))) (write_set (world_commit 0)))
      as [l'|] eqn:Hf; [|discriminate].
    assert (Hc : forall j, 0 <= j < Z.of_nat NUM_SLOTS ->
                snap_counter (world_commit 0) j =
                counter (sh (world_commit 0)) j).
    { intros j _. cbn. unfold upd. destruct (j =? 0); reflexivity. }
    destruct (proj1 (sw_commit_window (world_commit 0) eq_refl
                       ltac:(discriminate) eq_refl (or_introl eq_refl))
                    l' Hc Hf 0%nat) as [Hrun _].
    eexists. split; [exact Hrun|].
    vm_compute in Hf. inversion Hf; subst.
    repeat split; reflexivity.
  - apply (proj2 (sw_commit_window (world_commit 1) eq_refl
                    ltac:(discriminate) eq_refl (or_introl eq_refl)) 0);
      [cbn; lia | cbn; discriminate].
Defined.

(** *** The reverse scan of the write set *)

Lemma find_skip {A} (f : A -> bool) (l m : list A) :
  (forall e, In e l -> f e = false) -> find f (l ++ m) = find f m.
Proof.
  induction l as [|x l IH]; intros H; [reflexivity|].
  cbn. rewrite (H x) by (left; reflexivity).
  apply IH. intros e He. apply H. right. exact He.
Qed.

Lemma ws_lookup_last (a v : Z) (l1 l2 : list Acct) :
  (forall e, In e l2 -> addr e <> a) ->
  ws_lookup a (l1 ++ mkAcct a v :: l2) = Some v.
Proof.
  intros H. unfold ws_lookup.
  rewrite rev_app_distr. cbn [rev]. rewrite <- app_assoc.
  rewrite find_skip.
  - cbn. rewrite Z.eqb_refl. reflexivity.
  - intros e He. apply in_rev in He. apply Z.eqb_neq. apply H. exact He.
Qed.

Lemma ws_lookup_none (a : Z) (ws : list Acct) :
  (forall e, In e ws -> addr e <> a) -> ws_lookup a ws = None.
Proof.
  intros H. unfold ws_lookup.
  rewrite <- (app_nil_r (rev ws)). rewrite find_skip; [reflexivity|].
  intros e He. apply in_rev in He. apply Z.eqb_neq. apply H. exact He.
Qed.

(** *** [sw_read] without interference *)

Lemma reload_step (fuel : nat) (a val : Z) (w : World) :
  env w = [] -> rv w <> seqlock (sh w) ->
  reload (S fuel) a val w =
  (sw_validate fuel ;; v <- load_acct a ;; reload fuel a v) w.
Proof.
  intros He Hne. cbn [reload]. unfold bind at 1, get at 1. unfold bind at 1.
  rewrite load_seqlock_quiet by exact He.
  destruct (rv w =? seqlock (sh w)) eqn:E;
    [apply Z.eqb_eq in E; congruence | reflexivity].
Qed.

Lemma reload_quiet_ok (fuel : nat) (a val v : Z) (w : World) :
  env w = [] -> rv w <> seqlock (sh w) -> Z.even (seqlock (sh w)) = true ->
  Forall (agrees (accts (sh w))) (read_set w) ->
  acct_value (accts (sh w)) a = Some v ->
  reload (3 + fuel) a val w = Ret v (set_rv (seqlock (sh w)) w).
Proof.
  intros He Hne Hev Hag Hv. change (3 + fuel)%nat with (S (S (S fuel))).
  rewrite reload_step by assumption. unfold bind at 1.
  rewrite (sw_validate_quiet_ok fuel w He Hev Hag). unfold bind at 1.
  rewrite (load_acct_quiet a v); [|open_world w; reflexivity ..| ].
  - apply reload_quiet_same; open_world w; reflexivity.
  - open_world w. exact Hv.
Qed.

Lemma reload_quiet_bad (fuel : nat) (a val : Z) (l1 l2 : list Acct)
      (e : Acct) (y : Z) (w : World) :
  env w = [] -> rv w <> seqlock (sh w) -> Z.even (seqlock (sh w)) = true ->
  read_set w = l1 ++ e :: l2 ->
  Forall (agrees (accts (sh w))) l1 ->
  acct_value (accts (sh w)) (addr e) = Some y -> y <> value e ->
  reload (3 + fuel) a val w =
  Throw (set_write_set [] (set_read_set [] (set_rv (seqlock (sh w)) w))).
Proof.
  intros He Hne Hev Hr Hag Hy Hd. change (3 + fuel)%nat with (S (S (S fuel))).
  rewrite reload_step by assumption. unfold bind at 1.
  rewrite (sw_validate_quiet_bad fuel l1 l2 e y w); auto.
Qed.

Lemma sw_read_miss_unfold (fuel : nat) (a v0 : Z) (w : World) :
  env w = [] -> ws_lookup a (write_set w) = None ->
  acct_value (accts (sh w)) a = Some v0 ->
  sw_read fuel a w =
  (v <- reload fuel a v0 ;;
   modify (fun w => set_read_set (read_set w ++ [mkAcct a v]) w) ;;
   ret v) w.
Proof.
  intros He Hm Hv. unfold sw_read. unfold bind at 1, get at 1.
  rewrite Hm. unfold bind at 1. rewrite (load_acct_quiet a v0 w He Hv).
  reflexivity.
Qed.

(** ** The software transaction of [th_run] under interference *)

Section BodyFrame.

Variable rand_r_32 : Z -> Z * Z.
Variable P : Shared -> Prop.
Variable R : Step -> Prop.

Lemma post_pick_accounts (E : World -> Prop) (fuel : nat) (w : World) :
  inv P R w ->
  post (fun _ w' => inv P R w' /\ rv w' = rv w) E
       (pick_accounts rand_r_32 fuel w).
Proof.
  revert w. induction fuel as [|f IH]; intros w H; [exact I|].
  cbn [pick_accounts].
  assert (Hn : forall w0, inv P R w0 ->
            post (fun _ w' => inv P R w' /\ rv w' = rv w0) E
                 (next_acct rand_r_32 w0)).
  { intros w0 H0. unfold next_acct. destruct (rand_r_32 (tid w0)).
    cbn. split; [|reflexivity]. repeat split; apply H0. }
  eapply post_bind; [apply Hn; exact H|].
  intros r1 w1 [H1 E1]. cbn beta.
  eapply post_bind; [apply Hn; exact H1|].
  intros r2 w2 [H2 E2]. cbn beta.
  destruct (r1 =? r2).
  - eapply post_weaken; [apply IH; exact H2 | | auto].
    intros p w3 [H3 E3]. split; [exact H3 | congruence].
  - cbn. split; [exact H2 | congruence].
Qed.

Lemma post_int_arith (Q : World -> Prop) (E : World -> Prop) (z : Z)
      (w : World) :
  Q w -> post (fun _ w' => Q w') E (int_arith z w).
Proof.
  intros H. unfold int_arith. destruct (in_int z); [exact H | exact I].
Qed.

(** The transfer loop keeps the invariant and an even [rv]. *)
Lemma post_sw_body (fuel j : nat) (w : World) :
  inv P R w ->
  post (fun _ w' => inv P R w' /\
                    (Z.even (rv w) = true -> Z.even (rv w') = true))
       (aborted P R) (sw_body rand_r_32 fuel j w).
Proof.
  revert w. induction j as [|j IH]; intros w H; [cbn; auto|].
  cbn [sw_body].
  eapply post_bind; [apply post_pick_accounts; exact H|].
  intros p w1 [H1 E1]. cbn beta.
  eapply post_bind; [apply post_sw_read_inv; exact H1|].
  intros a1 w2 [H2 E2]. cbn beta. rewrite E1 in E2.
  destruct (a1 <? TRFR_AMT); [cbn; auto|].
  eapply post_bind; [apply post_sw_read_inv; exact H2|].
  intros a2 w3 [H3 E3]. cbn beta.
  eapply post_bind;
    [apply (post_int_arith (fun w' => inv P R w' /\ rv w' = rv w3));
     split; [exact H3 | reflexivity]|].
  intros d1 w4 [H4 E4]. cbn beta.
  eapply post_bind; [apply post_sw_write; exact H4|].
  intros [] w5 [H5 E5]. cbn beta.
  eapply post_bind;
    [apply (post_int_arith (fun w' => inv P R w' /\ rv w' = rv w5));
     split; [exact H5 | reflexivity]|].
  intros d2 w6 [H6 E6]. cbn beta.
  eapply post_bind; [apply post_sw_write; exact H6|].
  intros [] w7 [H7 E7].
  eapply post_weaken; [apply IH; exact H7 | | auto].
  intros [] w8 [H8 E8]. split; [exact H8|].
  intros Hev. apply E8. rewrite E7, E6, E5, E4. auto.
Qed.

Lemma post_sw_txn_start (fuel : nat) (w : World) :
  inv P R w ->
  post (fun _ w' => inv P R w' /\ Z.even (rv w') = true) (aborted P R)
       ((sw_begin fuel ;; sw_body rand_r_32 fuel 10) w).
Proof.
  intros H.
  eapply post_bind;
    [apply (post_sw_begin P R (read_set w) (write_set w) (rv w));
     apply inv_keeps; exact H|].
  intros [] w1 [H1 Hev]. cbn beta.
  eapply post_weaken; [apply post_sw_body; apply H1 | | auto].
  intros [] w2 [H2 E2]. auto.
Qed.

End BodyFrame.

Lemma sw_txn_split (rand_r_32 : Z -> Z * Z) (fuel : nat) (w : World) :
  sw_txn rand_r_32 fuel w =
  bind (sw_begin fuel ;; sw_body rand_r_32 fuel 10) (fun _ => sw_commit fuel) w.
Proof.
  unfold sw_txn, bind. destruct (sw_begin fuel w); reflexivity.
Qed.

Lemma post_sw_txn (rand_r_32 : Z -> Z * Z) (P : Shared -> Prop)
      (R : Step -> Prop) (fuel : nat) (w : World) :
  seqlock_free P -> inv P R w ->
  post (fun _ _ => True) (aborted P R) (sw_txn rand_r_32 fuel w).
Proof.
  intros Pfree H. rewrite sw_txn_split.
  eapply post_bind; [apply post_sw_txn_start; exact H|].
  intros [] w2 [H2 _]. apply post_sw_commit; assumption.
Qed.

Lemma post_sw_txn_window (rand_r_32 : Z -> Z * Z) (P : Shared -> Prop)
      (fuel : nat) (w : World) :
  inv P respects w ->
  post (fun _ _ => True) (aborted P respects) (sw_txn rand_r_32 fuel w).
Proof.
  intros H. rewrite sw_txn_split.
  eapply post_bind; [apply post_sw_txn_start; exact H|].
  intros [] w2 [H2 Hev]. apply post_sw_commit_window; assumption.
Qed.

(** C8.  A software transaction that aborts, be it in [sw_read], in
    [sw_commit] or anywhere in the [try] block of [th_run], leaves with an
    empty read set and an empty write set, and it has modified no shared
    location:
    - whatever the other threads do, every property of the accounts and
      the counters that they keep still holds: the aborting thread has
      stored to none of them;
    - when the other threads leave a window that is taken alone (they do
      not change an odd [seqlock]), the same is true of every property of
      the shared state, [seqlock] included: the aborting thread has not
      taken the window ([rv] is even, as [sw_begin] and [sw_validate]
      leave it).
    [sw_write] only appends to the write set. *)
Theorem sw_abort_spec (rand_r_32 : Z -> Z * Z) (fuel : nat) (w w' : World) :
  sw_txn rand_r_32 fuel w = Throw w' \/
  (exists a, sw_read fuel a w = @Throw Z w') \/
  sw_commit fuel w = Throw w' ->
  read_set w' = [] /\ write_set w' = [] /\
  (forall P : Shared -> Prop,
     seqlock_free P -> stable P (env w) -> P (sh w) -> P (sh w')) /\
  (forall P : Shared -> Prop,
     Forall respects (env w) ->
     (sw_commit fuel w = Throw w' -> Z.even (rv w) = true) ->
     stable P (env w) -> P (sh w) -> P (sh w')) /\
  (forall a v w0,
     sw_write a v w0 =
     Ret tt (set_write_set (write_set w0 ++ [mkAcct a v]) w0)).
Proof.
  intros Hrun.
  assert (Hfree : forall P, seqlock_free P -> stable P (env w) -> P (sh w) ->
                            aborted P (fun _ => True) w').
  { intros P Pfree Hst HP.
    assert (Hi : inv P (fun _ => True) w).
    { repeat split; [exact HP | exact Hst | apply Forall_any]. }
    destruct Hrun as [Hrun | [[a Hrun] | Hrun]].
    - pose proof (post_sw_txn rand_r_32 P _ fuel w Pfree Hi) as Hp.
      rewrite Hrun in Hp. exact Hp.
    - pose proof (post_sw_read_inv P _ fuel a w Hi) as Hp.
      rewrite Hrun in Hp. exact Hp.
    - pose proof (post_sw_commit P _ fuel w Pfree Hi) as Hp.
      rewrite Hrun in Hp. exact Hp. }
  destruct (Hfree (fun _ => True) (fun _ _ _ => I) (stable_True _) I)
    as (_ & Hr & Hw).
  split; [exact Hr|]. split; [exact Hw|]. split; [|split].
  - intros P Pfree Hst HP. apply (Hfree P Pfree Hst HP).
  - intros P Hresp Hev Hst HP.
    assert (Hi : inv P respects w) by (repeat split; assumption).
    destruct Hrun as [Hrun | [[a Hrun] | Hrun]].
    + pose proof (post_sw_txn_window rand_r_32 P fuel w Hi) as Hp.
      rewrite Hrun in Hp. apply Hp.
    + pose proof (post_sw_read_inv P _ fuel a w Hi) as Hp.
      rewrite Hrun in Hp. apply Hp.
    + pose proof (post_sw_commit_window P fuel w Hi (Hev Hrun)) as Hp.
      rewrite Hrun in Hp. apply Hp.
  - reflexivity.
Qed.

Lemma sw_abort_spec_witness :
  exists w',
    sw_txn lcg 10 world_abort = Throw w' /\
    read_set w' = [] /\ write_set w' = [] /\
    acct_value (accts (sh w')) 1 = Some 1000 /\
    Z.even (seqlock (sh w')) = true.
Proof.
  destruct (sw_txn lcg 10 world_abort) as [[] w'|w'| |] eqn:Hrun;
    try (vm_compute in Hrun; discriminate).
  exists w'. split; [reflexivity|].
  destruct (sw_abort_spec lcg 10 world_abort w' (or_introl Hrun))
    as (Hr & Hw & Hfree & Hwin & _).
  split; [exact Hr|]. split; [exact Hw|]. split.
  - apply (Hfree (fun s => acct_value (accts s) 1 = Some 1000));
      [intros s v Hs; exact Hs | | reflexivity].
    apply Forall_app. split.
    + apply Forall_forall. intros f Hf. apply repeat_spec in Hf. subst f.
      intros s Hs. exact Hs.
    + constructor; [|constructor]. intros s Hs. unfold writer.
      destruct (Z.even (seqlock s)); [|exact Hs].
      destruct (acct_store (accts s) 0 900) as [l|] eqn:El; [|exact Hs].
      unfold acct_store in El. cbn in El. unfold acct_value in *.
      cbn in Hs |- *.
      destruct (accts s) as [|a0 l0]; [discriminate|].
      cbn in El. inversion El; subst. exact Hs.
  - apply (Hwin (fun s => Z.even (seqlock s) = true)); [| | |reflexivity].
    + apply Forall_app. split.
      * apply Forall_forall. intros f Hf. apply repeat_spec in Hf. subst f.
        intros s Hs. reflexivity.
      * constructor; [|constructor]. intros s Hs. unfold writer.
        rewrite Hs. reflexivity.
    + intros Hc.
      change (sw_commit 10 world_abort) with (@Ret unit tt world_abort) in Hc.
      discriminate.
    + apply Forall_app. split.
      * apply Forall_forall. intros f Hf. apply repeat_spec in Hf. subst f.
        intros s Hs. exact Hs.
      * constructor; [|constructor]. intros s Hs. unfold writer.
        rewrite Hs.
        destruct (acct_store (accts s) 0 900) as [l|]; [|exact Hs].
        cbn. rewrite even_u32, Z.even_add, Hs. reflexivity.
Defined.

(** ** The dispatcher *)

Lemma ticks_succ (n : nat) (w : World) :
  ticks (S n) w = ticks n (ticks 1 w).
Proof.
  cbn [ticks]. destruct (env w) as [|g e] eqn:E; [|reflexivity].
  clear -E. induction n as [|n IH]; [reflexivity|].
  cbn [ticks]. rewrite E. reflexivity.
Qed.

Lemma ticks_set_htm (n : nat) (h : list bool) (w : World) :
  ticks n (set_htm h w) = set_htm h (ticks n w).
Proof.
  revert w. induction n as [|n IH]; intros w; [reflexivity|].
  cbn [ticks]. cbn [env set_htm]. destruct (env w) as [|g e]; [reflexivity|].
  rewrite <- IH. reflexivity.
Qed.

Lemma ticks_comm (n : nat) (w : World) :
  ticks 1 (ticks n w) = ticks n (ticks 1 w).
Proof.
  rewrite <- ticks_succ.
  revert w. induction n as [|n IH]; intros w; [reflexivity|].
  cbn [ticks]. destruct (env w) as [|g e] eqn:E.
  - rewrite E. reflexivity.
  - apply IH.
Qed.

Lemma set_htm_ticks (k : nat) (h h' : list bool) (w : World) :
  set_htm h (ticks k (set_htm h' (ticks 1 w))) = set_htm h (ticks (S k) w).
Proof.
  rewrite ticks_set_htm, (ticks_succ k w).
  destruct (ticks k (ticks 1 w)); reflexivity.
Qed.

Section Dispatcher.

Variable rand_r_32 : Z -> Z * Z.

(** A hardware abort: one step of the other threads and one answer of the
    hardware are consumed, nothing else changes. *)
Lemma htm_txn_abort (fuel : nat) (w : World) (h : list bool) :
  htm w = false :: h ->
  htm_txn rand_r_32 fuel w = Ret false (set_htm h (ticks 1 w)).
Proof.
  intros Hh. open_world w. destruct e as [|g e]; reflexivity.
Qed.

Lemma attempt_aborts (k fuel : nat) (a : Z) (w : World) (h : list bool) :
  htm w = repeat false k ++ h -> Z.of_nat k <= a ->
  attempt rand_r_32 (k + fuel) a w =
  attempt rand_r_32 fuel (a - Z.of_nat k) (set_htm h (ticks k w)).
Proof.
  revert a w. induction k as [|k IH]; intros a w Hh Ha.
  - cbn in Hh |- *. rewrite Z.sub_0_r. subst h. destruct w; reflexivity.
  - change (S k + fuel)%nat with (S (k + fuel)). cbn [attempt].
    unfold bind at 1. cbn [repeat app] in Hh.
    rewrite (htm_txn_abort _ w _ Hh).
    destruct (a >? 0) eqn:Ea; [|lia].
    rewrite (IH (a - 1) (set_htm (repeat false k ++ h) (ticks 1 w)) eq_refl)
      by lia.
    rewrite set_htm_ticks. f_equal. lia.
Qed.

Lemma attempt_last (fuel : nat) (w : World) (h : list bool) :
  htm w = false :: h ->
  attempt rand_r_32 (S fuel) 0 w =
  try_sw rand_r_32 fuel (set_htm h (ticks 1 w)).
Proof.
  intros Hh. cbn [attempt]. unfold bind at 1.
  rewrite (htm_txn_abort _ w _ Hh). reflexivity.
Qed.

End Dispatcher.

(** C2 (the code does not do what the claim says).  Counting the answers
    of the hardware that one transaction consumes, one per execution of the
    hardware path:
    - the software attempt starts after six executions that aborted, not
      five: [attempts] runs from 5 down to 0 and the path is entered once
      for each of the six values;
    - after five aborts the path is executed a sixth time, with
      [attempts = 0];
    - when the software attempt aborts, the transaction starts again, and a
      transaction starts with [attempts = 5]. *)
Theorem dispatcher_six_htm (rand_r_32 : Z -> Z * Z) (fuel : nat) (w : World)
        (h : list bool) :
  (htm w = repeat false 6 ++ h ->
   attempt rand_r_32 (6 + fuel) 5 w =
   try_sw rand_r_32 fuel (set_htm h (ticks 6 w))) /\
  (htm w = repeat false 5 ++ h ->
   attempt rand_r_32 (6 + fuel) 5 w =
   (ok <- htm_txn rand_r_32 fuel ;;
    if ok then ret (Some ByHTM) else try_sw rand_r_32 fuel)
     (set_htm h (ticks 5 w))) /\
  (forall c w',
     attempt rand_r_32 fuel 5 w = Ret None w' ->
     txn rand_r_32 (S fuel) c w = txn rand_r_32 fuel c w') /\
  (forall c,
     txn rand_r_32 (S fuel) c w =
     (r <- attempt rand_r_32 fuel 5 ;;
      match r with
      | Some ByHTM => ret (u32 (fst c + 1), snd c)
      | Some BySW => ret (fst c, u32 (snd c + 1))
      | None => txn rand_r_32 fuel c
      end) w).
Proof.
  split; [|split; [|split]].
  - intros Hh.
    change (6 + fuel)%nat with (5 + S fuel)%nat.
    rewrite (attempt_aborts rand_r_32 5 (S fuel) 5 w (false :: h)) by
      (exact Hh || lia).
    change (5 - Z.of_nat 5) with 0.
    rewrite (attempt_last rand_r_32 fuel (set_htm (false :: h) (ticks 5 w))
               h eq_refl).
    rewrite ticks_set_htm, ticks_comm, <- ticks_succ.
    destruct (ticks 6 w); reflexivity.
  - intros Hh.
    change (6 + fuel)%nat with (5 + S fuel)%nat.
    rewrite (attempt_aborts rand_r_32 5 (S fuel) 5 w h) by (exact Hh || lia).
    reflexivity.
  - intros c w' Hrun. cbn [txn]. unfold bind. rewrite Hrun. reflexivity.
  - reflexivity.
Qed.

Lemma dispatcher_six_htm_witness :
  (exists w',
     attempt lcg (6 + 10) 5 (init_world [] (repeat false 6 ++ [true])) =
     Ret (Some BySW) w' /\ htm w' = [true]) /\
  (exists w',
     attempt small_rand (6 + 10) 5 (init_world [] (repeat false 5 ++ [true])) =
     Ret (Some ByHTM) w' /\ htm w' = []).
Proof.
  split.
  - rewrite (proj1 (dispatcher_six_htm lcg 10
                      (init_world [] (repeat false 6 ++ [true])) [true])
                   eq_refl).
    eexists. split; [vm_compute; reflexivity | reflexivity].
  - rewrite (proj1 (proj2 (dispatcher_six_htm small_rand 10
                      (init_world [] (repeat false 5 ++ [true])) [true]))
                   eq_refl).
    eexists. split; [vm_compute; reflexivity | reflexivity].
Defined.

(** ** The number of transactions *)

Section Counts.

Variable rand_r_32 : Z -> Z * Z.





End Counts.



(** *** Threads that do not finish *)

Section Hang.

Variable rand_r_32 : Z -> Z * Z.





End Hang.






Lemma value_of_ret {A} (r : Res A) (a : A) :
  value_of r = Some a -> exists w', r = Ret a w'.
Proof.
  destruct r; cbn; intros H; try discriminate.
  inversion H; subst. eexists. reflexivity.
Qed.


(** ** The start of [main] *)

(** C9, as amended.  When the number of arguments is not one, or [atoi]
    reads the argument as an [int] that is at most 0 or more than 64,
    [main] prints the usage line and leaves through [exit(0)]: the exit
    code is zero.  An argument whose number does not fit an [int], where
    [atoi] is undefined, is outside the statement. *)
Theorem main_usage (argv : list string) :
  List.length argv <> 2%nat \/
  (exists prog arg n,
     argv = [prog; arg] /\ atoi arg = Some n /\ (n <= 0 \/ 64 < n)) ->
  main argv = Some (Exit 0 usage).
Proof.
  intros [Hlen | (prog & arg & n & -> & Ha & Hn)].
  - unfold main.
    destruct (Z.of_nat (List.length argv) =? 2) eqn:E; [|reflexivity].
    apply Z.eqb_eq in E. lia.
  - unfold main. cbn [List.length List.nth Z.of_nat Pos.of_succ_nat Pos.succ
                      Z.eqb Pos.eqb negb].
    rewrite Ha.
    destruct (n <=? 0) eqn:E1; [reflexivity|].
    destruct (n >? 64) eqn:E2; [reflexivity|]. lia.
Qed.

Lemma main_usage_witness :
  main ["./hynorec"%string] = Some (Exit 0 usage) /\
  main ["./hynorec"; "0"]%string = Some (Exit 0 usage) /\
  main ["./hynorec"; "-4"]%string = Some (Exit 0 usage) /\
  main ["./hynorec"; "65"]%string = Some (Exit 0 usage).
Proof.
  split; [|split; [|split]].
  - apply (main_usage ["./hynorec"%string]). left. discriminate.
  - apply (main_usage ["./hynorec"; "0"]%string). right.
    exists "./hynorec"%string, "0"%string, 0.
    split; [reflexivity|]. split; [reflexivity | lia].
  - apply (main_usage ["./hynorec"; "-4"]%string). right.
    exists "./hynorec"%string, "-4"%string, (-4).
    split; [reflexivity|]. split; [reflexivity | lia].
  - apply (main_usage ["./hynorec"; "65"]%string). right.
    exists "./hynorec"%string, "65"%string, 65.
    split; [reflexivity|]. split; [reflexivity | lia].
Defined.

(** C9 as stated fails: with 65 threads asked for, and with no argument,
    the exit code is not different from zero. *)
Lemma main_exit_code_zero :
  ~ (forall argv,
       List.length argv <> 2%nat \/
       (exists prog arg n,
          argv = [prog; arg] /\ atoi arg = Some n /\ (n <= 0 \/ 64 < n)) ->
       exists code out, main argv = Some (Exit code out) /\ code <> 0).
Proof.
  intros H.
  destruct (H ["./hynorec"; "65"]%string) as (code & out & Hm & Hc).
  - right. exists "./hynorec"%string, "65"%string, 65.
    split; [reflexivity|]. split; [reflexivity | lia].
  - vm_compute in Hm. inversion Hm. congruence.
Qed.

(** ** Balances *)

Lemma store_nth_total (l l' : list Acct) (n : nat) (v : Z) (a : Acct) :
  store_nth l n v = Some l' -> nth_error l n = Some a ->
  total l' = total l - value a + v.
Proof.
  revert n l'. induction l as [|x l IH]; intros n l' Hs Hn;
    [destruct n; discriminate|].
  destruct n as [|n]; cbn in Hs, Hn.
  - inversion Hs; inversion Hn; subst. unfold total. cbn. lia.
  - destruct (store_nth l n v) as [l1|] eqn:E; [|discriminate].
    inversion Hs; subst.
    change (value x + total l1 = value x + total l - value a + v).
    rewrite (IH n l1 E Hn). lia.
Qed.

Lemma store_nth_other (l l' : list Acct) (n m : nat) (v : Z) :
  store_nth l n v = Some l' -> m <> n -> nth_error l' m = nth_error l m.
Proof.
  revert n m l'. induction l as [|x l IH]; intros n m l' Hs Hne;
    [destruct n; discriminate|].
  destruct n as [|n]; cbn in Hs.
  - inversion Hs; subst. destruct m; [congruence | reflexivity].
  - destruct (store_nth l n v) as [l1|] eqn:E; [|discriminate].
    inversion Hs; subst. destruct m as [|m]; [reflexivity|].
    cbn. apply (IH n m l1 E). congruence.
Qed.

Lemma store_nth_same (l l' : list Acct) (n : nat) (v : Z) :
  store_nth l n v = Some l' -> option_map value (nth_error l' n) = Some v.
Proof.
  revert n l'. induction l as [|x l IH]; intros n l' Hs;
    [destruct n; discriminate|].
  destruct n as [|n]; cbn in Hs.
  - inversion Hs; subst. reflexivity.
  - destruct (store_nth l n v) as [l1|] eqn:E; [|discriminate].
    inversion Hs; subst. cbn. apply (IH n l1 E).
Qed.

Lemma store_nth_defined (l : list Acct) (n : nat) (v : Z) (a : Acct) :
  nth_error l n = Some a -> exists l', store_nth l n v = Some l'.
Proof.
  revert n. induction l as [|x l IH]; intros n Hn; [destruct n; discriminate|].
  destruct n as [|n]; cbn in *; [eexists; reflexivity|].
  destruct (IH n Hn) as [l' ->]. eexists. reflexivity.
Qed.

Lemma acct_value_inv (l : list Acct) (i v : Z) :
  acct_value l i = Some v ->
  0 <= i /\ exists a, nth_error l (Z.to_nat i) = Some a /\ value a = v.
Proof.
  unfold acct_value. destruct (i <? 0) eqn:E; [discriminate|].
  destruct (nth_error l (Z.to_nat i)) as [a|]; [|discriminate].
  cbn. intros H. inversion H; subst. split; [lia|]. exists a. auto.
Qed.

Lemma acct_store_total (l l' : list Acct) (i v old : Z) :
  acct_store l i v = Some l' -> acct_value l i = Some old ->
  total l' = total l - old + v.
Proof.
  intros Hs Hv. apply acct_value_inv in Hv. destruct Hv as (Hi & a & Hn & <-).
  unfold acct_store in Hs. destruct (i <? 0); [discriminate|].
  apply (store_nth_total l l' _ v a Hs Hn).
Qed.

Lemma acct_store_other (l l' : list Acct) (i j v : Z) :
  acct_store l i v = Some l' -> j <> i -> acct_value l' j = acct_value l j.
Proof.
  intros Hs Hne. unfold acct_store in Hs. unfold acct_value.
  destruct (i <? 0) eqn:Ei; [discriminate|].
  destruct (j <? 0) eqn:Ej; [reflexivity|].
  rewrite (store_nth_other l l' (Z.to_nat i) (Z.to_nat j) v Hs); [reflexivity|].
  lia.
Qed.

Lemma acct_store_same (l l' : list Acct) (i v : Z) :
  acct_store l i v = Some l' -> acct_value l' i = Some v.
Proof.
  intros Hs. unfold acct_store in Hs. unfold acct_value.
  destruct (i <? 0); [discriminate|].
  apply (store_nth_same l l' _ v Hs).
Qed.

Lemma acct_store_defined (l : list Acct) (i v old : Z) :
  acct_value l i = Some old -> exists l', acct_store l i v = Some l'.
Proof.
  intros Hv. apply acct_value_inv in Hv. destruct Hv as (Hi & a & Hn & _).
  unfold acct_store. destruct (i <? 0) eqn:E; [lia|].
  apply (store_nth_defined l _ v a Hn).
Qed.

Lemma acct_value_bound (l : list Acct) (i v b : Z) :
  Forall (fun a => b <= value a) l -> acct_value l i = Some v -> b <= v.
Proof.
  intros Hall Hv. apply acct_value_inv in Hv. destruct Hv as (_ & a & Hn & <-).
  apply nth_error_In in Hn. rewrite Forall_forall in Hall. apply Hall, Hn.
Qed.

(** *** The write set as an overlay *)

Lemma flush_app (l : list Acct) (ws : list Acct) (e : Acct) :
  flush l (ws ++ [e]) =
  match flush l ws with
  | Some l' => acct_store l' (addr e) (value e)
  | None => None
  end.
Proof.
  revert l. induction ws as [|x ws IH]; intros l; cbn.
  - destruct (acct_store l (addr e) (value e)); reflexivity.
  - destruct (acct_store l (addr x) (value x)); [apply IH | reflexivity].
Qed.

Lemma ws_lookup_app (a : Z) (ws : list Acct) (e : Acct) :
  ws_lookup a (ws ++ [e]) =
  if addr e =? a then Some (value e) else ws_lookup a ws.
Proof.
  unfold ws_lookup. rewrite rev_app_distr. cbn.
  destruct (addr e =? a); reflexivity.
Qed.

(** What [sw_read] answers without interference is the balance in the
    accounts with the write set applied. *)
Lemma overlay_lookup (l0 : list Acct) (ws : list Acct) (l : list Acct) (a : Z) :
  flush l0 ws = Some l ->
  acct_value l a =
  match ws_lookup a ws with
  | Some v => Some v
  | None => acct_value l0 a
  end.
Proof.
  revert l. induction ws as [|e ws IH] using rev_ind; intros l Hf.
  - cbn in Hf. inversion Hf; subst. reflexivity.
  - rewrite flush_app in Hf. rewrite ws_lookup_app.
    destruct (flush l0 ws) as [l1|]; [|discriminate].
    destruct (addr e =? a) eqn:E.
    + apply Z.eqb_eq in E. subst a. apply (acct_store_same l1 l _ _ Hf).
    + apply Z.eqb_neq in E.
      rewrite (acct_store_other l1 l (addr e) a (value e) Hf) by congruence.
      apply IH. reflexivity.
Qed.

(** ** The two transfer loops *)

Section Bodies.

Variable rand_r_32 : Z -> Z * Z.

(** The accounts picked differ, and picking them only moves the seed. *)
Lemma pick_accounts_inv (fuel : nat) (w w' : World) (p : Z * Z) :
  pick_accounts rand_r_32 fuel w = Ret p w' ->
  fst p <> snd p /\ exists t, w' = set_tid t w.
Proof.
  revert w. induction fuel as [|f IH]; intros w Hrun; [discriminate|].
  cbn [pick_accounts] in Hrun. unfold bind, next_acct in Hrun.
  destruct (rand_r_32 (tid w)) as [s1 r1]. cbn [tid set_tid] in Hrun.
  destruct (rand_r_32 (u32 s1)) as [s2 r2].
  destruct (Z.rem r1 NUM_ACCTS =? Z.rem r2 NUM_ACCTS) eqn:E.
  - destruct (IH _ Hrun) as [Hd [t ->]]. split; [exact Hd|].
    exists t. reflexivity.
  - inversion Hrun; subst. cbn [fst snd]. apply Z.eqb_neq in E.
    split; [exact E|]. exists (u32 s2). reflexivity.
Qed.

(** One round of the hardware loop that goes on takes 100 off the sum. *)
Lemma htm_body_round (fuel j : nat) (w w' : World) :
  htm_body rand_r_32 fuel (S j) w = Ret tt w' ->
  exists p t a1,
    fst p <> snd p /\
    acct_value (accts (sh w)) (fst p) = Some a1 /\
    ((a1 < TRFR_AMT /\ w' = set_tid t w) \/
     (TRFR_AMT <= a1 /\
      exists l2,
        total l2 = total (accts (sh w)) - 2 * TRFR_AMT /\
        htm_body rand_r_32 fuel j
                 (set_sh (set_accts l2 (sh w)) (set_tid t w)) = Ret tt w')).
Proof.
  intros Hrun. cbn [htm_body] in Hrun. unfold bind at 1 in Hrun.
  destruct (pick_accounts rand_r_32 fuel w) as [p w1|w1| |] eqn:Ep;
    try discriminate.
  destruct (pick_accounts_inv fuel w w1 p Ep) as [Hd [t ->]].
  unfold bind at 1, raw_load_acct at 1 in Hrun. cbn [sh set_tid] in Hrun.
  destruct (acct_value (accts (sh w)) (fst p)) as [a1|] eqn:E1;
    [|discriminate].
  exists p, t, a1. split; [exact Hd|]. split; [exact E1|].
  destruct (a1 <? TRFR_AMT) eqn:Elt.
  - left. inversion Hrun; subst. split; [lia | reflexivity].
  - right. split; [lia|].
    unfold bind at 1, raw_load_acct at 1 in Hrun. cbn [sh set_tid] in Hrun.
    destruct (acct_value (accts (sh w)) (snd p)) as [a2|] eqn:E2;
      [|discriminate].
    unfold bind at 1, int_arith at 1 in Hrun.
    destruct (in_int (a1 - TRFR_AMT)); [|discriminate].
    unfold ret at 1 in Hrun.
    unfold bind at 1, raw_store_acct at 1 in Hrun. cbn [sh set_tid] in Hrun.
    destruct (acct_store (accts (sh w)) (fst p) (a1 - TRFR_AMT))
      as [l1|] eqn:S1; [|discriminate].
    unfold bind at 1, int_arith at 1 in Hrun.
    destruct (in_int (a2 - TRFR_AMT)); [|discriminate].
    unfold ret at 1 in Hrun.
    unfold bind at 1, raw_store_acct at 1 in Hrun.
    cbn [sh set_tid set_sh accts set_accts] in Hrun.
    destruct (acct_store l1 (snd p) (a2 - TRFR_AMT)) as [l2|] eqn:S2;
      [|discriminate].
    exists l2. split.
    + rewrite (acct_store_total l1 l2 _ _ a2 S2).
      * rewrite (acct_store_total _ l1 _ _ a1 S1 E1). lia.
      * rewrite (acct_store_other _ l1 _ _ _ S1); [exact E2 | congruence].
    + exact Hrun.
Qed.

Lemma htm_body_total (fuel j : nat) (w w' : World) :
  htm_body rand_r_32 fuel j w = Ret tt w' ->
  total (accts (sh w')) <= total (accts (sh w)).
Proof.
  revert w. induction j as [|j IH]; intros w Hrun.
  - inversion Hrun; subst. lia.
  - destruct (htm_body_round fuel j w w' Hrun)
      as (p & t & a1 & _ & _ & [[_ ->] | [_ (l2 & Ht & Hrest)]]).
    + cbn [sh set_tid]. lia.
    + apply IH in Hrest. cbn [sh set_sh accts set_accts set_tid] in Hrest.
      unfold TRFR_AMT in Ht. lia.
Qed.

(** From balances of at least 50 the first round goes on. *)
Lemma htm_body_loses (fuel j : nat) (w w' : World) :
  Forall (fun a => TRFR_AMT <= value a) (accts (sh w)) ->
  htm_body rand_r_32 fuel (S j) w = Ret tt w' ->
  total (accts (sh w')) <= total (accts (sh w)) - 2 * TRFR_AMT.
Proof.
  intros Hall Hrun.
  destruct (htm_body_round fuel j w w' Hrun)
    as (p & t & a1 & _ & Ha1 & [[Hlt _] | [_ (l2 & Ht & Hrest)]]).
  - pose proof (acct_value_bound _ _ _ _ Hall Ha1). lia.
  - apply htm_body_total in Hrest.
    cbn [sh set_sh accts set_accts set_tid] in Hrest. lia.
Qed.

Lemma sw_read_alone s0 sc l (fuel : nat) (a v : Z) (w w' : World) :
  alone s0 sc l w -> sw_read fuel a w = Ret v w' ->
  acct_value l a = Some v /\ alone s0 sc l w'.
Proof.
  intros (He & Hs & Hrv & Hsc & Hf) Hrun.
  pose proof (overlay_lookup _ _ _ a Hf) as Hov.
  unfold sw_read in Hrun. unfold bind at 1, get at 1 in Hrun.
  destruct (ws_lookup a (write_set w)) as [v0|] eqn:El.
  - inversion Hrun; subst. split; [exact Hov|]. repeat split; auto.
  - unfold bind at 1 in Hrun. unfold load_acct, bind at 1 in Hrun.
    rewrite (tick_quiet w He) in Hrun. unfold raw_load_acct in Hrun.
    rewrite Hs in Hrun.
    destruct (acct_value (accts s0) a) as [x|] eqn:Ex; [|discriminate].
    destruct fuel as [|f]; [discriminate|].
    unfold bind at 1 in Hrun.
    rewrite (reload_quiet_same f a x w He) in Hrun by congruence.
    inversion Hrun; subst. split; [exact Hov|].
    repeat split; auto.
Qed.

Lemma sw_write_alone s0 sc l l' (a v : Z) (w : World) :
  alone s0 sc l w -> acct_store l a v = Some l' ->
  alone s0 sc l' (set_write_set (write_set w ++ [mkAcct a v]) w).
Proof.
  intros (He & Hs & Hrv & Hsc & Hf) Hst. repeat split; auto.
  cbn [write_set set_write_set]. rewrite flush_app, Hf. exact Hst.
Qed.

Lemma sw_body_alone s0 sc (fuel j : nat) (l : list Acct) (w w' : World) :
  alone s0 sc l w -> sw_body rand_r_32 fuel j w = Ret tt w' ->
  exists l', alone s0 sc l' w' /\ total l' = total l.
Proof.
  revert l w. induction j as [|j IH]; intros l w Hal Hrun.
  - inversion Hrun; subst. exists l. auto.
  - cbn [sw_body] in Hrun. unfold bind at 1 in Hrun.
    destruct (pick_accounts rand_r_32 fuel w) as [p w1|w1| |] eqn:Ep;
      try discriminate.
    destruct (pick_accounts_inv fuel w w1 p Ep) as [Hd [t ->]].
    assert (Hal1 : alone s0 sc l (set_tid t w)).
    { destruct Hal as (He & Hs & Hrv & Hsc & Hf). repeat split; auto. }
    unfold bind at 1 in Hrun.
    destruct (sw_read fuel (fst p) (set_tid t w)) as [a1 w2|w2| |] eqn:R1;
      try discriminate.
    destruct (sw_read_alone _ _ _ _ _ _ _ _ Hal1 R1) as [Ha1 Hal2].
    destruct (a1 <? TRFR_AMT).
    { inversion Hrun; subst. exists l. auto. }
    unfold bind at 1 in Hrun.
    destruct (sw_read fuel (snd p) w2) as [a2 w3|w3| |] eqn:R2;
      try discriminate.
    destruct (sw_read_alone _ _ _ _ _ _ _ _ Hal2 R2) as [Ha2 Hal3].
    unfold bind at 1, int_arith at 1 in Hrun.
    destruct (in_int (a1 - TRFR_AMT)); [|discriminate].
    unfold ret at 1 in Hrun. unfold bind at 1, sw_write at 1 in Hrun.
    unfold modify at 1 in Hrun.
    unfold bind at 1, int_arith at 1 in Hrun.
    destruct (in_int (a2 + TRFR_AMT)); [|discriminate].
    unfold ret at 1 in Hrun. unfold bind at 1, sw_write at 1 in Hrun.
    unfold modify at 1 in Hrun.
    destruct (acct_store_defined l (fst p) (a1 - TRFR_AMT) a1 Ha1)
      as [l1 S1].
    assert (Ha2' : acct_value l1 (snd p) = Some a2).
    { rewrite (acct_store_other _ l1 _ _ _ S1); [exact Ha2 | congruence]. }
    destruct (acct_store_defined l1 (snd p) (a2 + TRFR_AMT) a2 Ha2')
      as [l2 S2].
    pose proof (sw_write_alone _ _ _ _ _ _ _ Hal3 S1) as Hal4.
    pose proof (sw_write_alone _ _ _ _ _ _ _ Hal4 S2) as Hal5.
    destruct (IH l2 _ Hal5 Hrun) as (l' & Hal' & Ht).
    exists l'. split; [exact Hal'|]. rewrite Ht.
    rewrite (acct_store_total l1 l2 _ _ a2 S2 Ha2').
    rewrite (acct_store_total l l1 _ _ a1 S1 Ha1). lia.
Qed.

End Bodies.

Lemma sw_begin_quiet (fuel : nat) (w w' : World) :
  env w = [] -> sw_begin fuel w = Ret tt w' ->
  Z.even (seqlock (sh w)) = true /\
  (exists sc',
     w' = set_snap_counter sc' (set_rv (seqlock (sh w)) w) /\
     forall j, 0 <= j < Z.of_nat NUM_SLOTS -> sc' j = counter (sh w) j).
Proof.
  intros He Hrun. unfold sw_begin, bind in Hrun.
  destruct (Z.even (seqlock (sh w))) eqn:Ev.
  - split; [reflexivity|].
    destruct fuel as [|f]; [discriminate|].
    rewrite (wait_even_quiet_even f w He Ev) in Hrun.
    destruct (copy_counters_quiet NUM_SLOTS 0 (set_rv (seqlock (sh w)) w))
      as (sc' & Hc & Hin & _); [open_world w; reflexivity|].
    rewrite Hc in Hrun. inversion Hrun; subst.
    exists sc'. split; [reflexivity|].
    intros j Hj. rewrite Hin by lia. open_world w. reflexivity.
  - rewrite (wait_even_quiet_odd fuel w He Ev) in Hrun. discriminate.
Qed.

(** [sw_commit] of a transaction that ran alone installs the accounts with
    the write set applied. *)
Lemma sw_commit_alone s0 sc l (fuel : nat) (w w' : World) :
  alone s0 sc l w ->
  (forall j, 0 <= j < Z.of_nat NUM_SLOTS -> sc j = counter s0 j) ->
  sw_commit fuel w = Ret tt w' ->
  accts (sh w') = l.
Proof.
  intros (He & Hs & Hrv & Hsc & Hf) Hc Hrun.
  destruct (write_set w) as [|e0 ws0] eqn:Ews.
  - unfold sw_commit, bind, get in Hrun. rewrite Ews in Hrun.
    inversion Hrun; subst. cbn in Hf. congruence.
  - destruct fuel as [|f].
    { unfold sw_commit, bind, get in Hrun. rewrite Ews in Hrun.
      discriminate. }
    assert (Hacq : acquire (S f) w = Ret tt (in_window w)).
    { rewrite (acquire_quiet_same f w He) by congruence.
      open_world w. reflexivity. }
    rewrite (sw_commit_in_window (S f) w l) in Hrun.
    + inversion Hrun; subst. reflexivity.
    + exact He.
    + congruence.
    + exact Hacq.
    + intros j Hj. rewrite Hsc, Hs. apply Hc. exact Hj.
    + rewrite Hs, Ews. exact Hf.
Qed.

(** C3 (the code does not do what the claim says).  From the same seed and
    the same accounts, all with at least 50, and without interference, one
    transaction run by the software path keeps the sum of the balances,
    while the same transaction run by the hardware path takes at least 100
    off it: the hardware loop subtracts the amount from both accounts.  The
    two final account states differ. *)
Theorem bodies_differ (rand_r_32 : Z -> Z * Z) (f1 f2 : nat)
        (w wh wsw : World) :
  env w = [] -> write_set w = [] ->
  Forall (fun a => TRFR_AMT <= value a) (accts (sh w)) ->
  htm_body rand_r_32 f1 10 w = Ret tt wh \/
  htm_txn rand_r_32 f1 w = Ret true wh ->
  sw_txn rand_r_32 f2 w = Ret tt wsw ->
  total (accts (sh wsw)) = total (accts (sh w)) /\
  total (accts (sh wh)) <= total (accts (sh w)) - 2 * TRFR_AMT /\
  accts (sh wh) <> accts (sh wsw).
Proof.
  intros He Hws Hall Hh Hsw.
  assert (Hs : total (accts (sh wsw)) = total (accts (sh w))).
  { unfold sw_txn in Hsw. unfold bind at 1 in Hsw.
    destruct (sw_begin f2 w) as [[] w1|w1| |] eqn:Eb; try discriminate.
    destruct (sw_begin_quiet f2 w w1 He Eb) as (_ & sc' & -> & Hsc).
    unfold bind at 1 in Hsw.
    match type of Hsw with
    | match sw_body _ _ _ ?w0 with _ => _ end = _ =>
        destruct (sw_body rand_r_32 f2 10 w0) as [[] w2|w2| |] eqn:Ebody;
          try discriminate;
        assert (Hal : alone (sh w) sc' (accts (sh w)) w0)
    end.
    { open_world w. repeat split; reflexivity. }
    destruct (sw_body_alone rand_r_32 _ _ _ _ _ _ _ Hal Ebody)
      as (l' & Hal' & Ht).
    rewrite (sw_commit_alone _ _ _ _ _ _ Hal' Hsc Hsw). exact Ht. }
  assert (Hl : total (accts (sh wh)) <= total (accts (sh w)) - 2 * TRFR_AMT).
  { destruct Hh as [Hh | Hh].
    - apply (htm_body_loses rand_r_32 f1 9 w wh Hall Hh).
    - unfold htm_txn in Hh. unfold bind at 1 in Hh.
      rewrite (tick_quiet w He) in Hh.
      unfold bind at 1, xbegin at 1 in Hh.
      destruct (htm w) as [|[|] h] eqn:Eh; try discriminate.
      unfold bind at 1, get at 1 in Hh. cbn [sh set_htm] in Hh.
      destruct (Z.land (seqlock (sh w)) 1 =? 0); [|discriminate].
      unfold bind at 1 in Hh.
      destruct (htm_body rand_r_32 f1 10 (set_htm h w))
        as [[] w2|w2| |] eqn:Ebody; try discriminate.
      unfold bind at 1, incr_counter_tid at 1 in Hh.
      destruct ((0 <=? tid w2) && (tid w2 <? Z.of_nat NUM_SLOTS));
        [|discriminate].
      inversion Hh; subst. cbn [sh set_sh accts set_counter].
      apply (htm_body_loses rand_r_32 f1 9 (set_htm h w) w2); assumption. }
  split; [exact Hs|]. split; [exact Hl|].
  intros Heq. rewrite Heq, Hs in Hl. unfold TRFR_AMT in Hl. lia.
Qed.

Lemma bodies_differ_witness :
  exists wh wsw,
    htm_body lcg 10 10 (init_world [] []) = Ret tt wh /\
    sw_txn lcg 10 (init_world [] []) = Ret tt wsw /\
    total (accts (sh wsw)) = 1000000 /\
    total (accts (sh wh)) <= 999900 /\
    accts (sh wh) <> accts (sh wsw).
Proof.
  assert (Hall : Forall (fun a => TRFR_AMT <= value a)
                        (accts (sh (init_world [] [])))).
  { apply Forall_forall. intros a Ha. cbn in Ha. unfold init_accts in Ha.
    apply in_map_iff in Ha. destruct Ha as (i & <- & _).
    cbn. unfold TRFR_AMT, INIT_BALANCE. lia. }
  destruct (value_of_ret (htm_body lcg 10 10 (init_world [] [])) tt)
    as [wh Hh]; [vm_compute; reflexivity|].
  destruct (value_of_ret (sw_txn lcg 10 (init_world [] [])) tt)
    as [wsw Hsw]; [vm_compute; reflexivity|].
  exists wh, wsw. split; [exact Hh|]. split; [exact Hsw|].
  destruct (bodies_differ lcg 10 10 (init_world [] []) wh wsw eq_refl eq_refl
              Hall (or_introl Hh) Hsw) as (H1 & H2 & H3).
  split; [rewrite H1; reflexivity|]. split; [|exact H3].
  change (total (accts (sh (init_world [] [])))) with 1000000 in H2.
  unfold TRFR_AMT in H2. lia.
Defined.

(** ** The read set as a snapshot *)

Lemma stable_snapshot (v : Z) (a0 l : list Acct) (e : list Step) :
  Z.even v = true -> Forall sw_step e -> stable (snapshot v a0 l) e.
Proof.
  intros Hev H. unfold stable. rewrite Forall_forall in *.
  intros f Hf s [Hle Hs].
  destruct (H f Hf s) as [[Hq Ha] | Hlt].
  - split; [lia|]. intros Hv. rewrite Ha by congruence. apply Hs. lia.
  - split; [lia|]. intros Hv. lia.
Qed.

Lemma snapshot_now (w : World) (l : list Acct) :
  Forall (agrees (accts (sh w))) l ->
  snapshot (seqlock (sh w)) (accts (sh w)) l (sh w).
Proof. intros H. split; [lia|]. auto. Qed.

Lemma keeps_snapshot_start (rs ws : list Acct) (w : World) (l : list Acct) :
  keeps (fun _ => True) sw_step rs ws (rv w) w ->
  Z.even (rv w) = true -> rv w = seqlock (sh w) ->
  Forall (agrees (accts (sh w))) l ->
  keeps (snapshot (rv w) (accts (sh w)) l) sw_step rs ws (rv w) w.
Proof.
  intros ((_ & _ & He) & Hr & Hw & Hv) Hev Hrv Hl.
  repeat split; auto.
  - lia.
  - apply stable_snapshot; assumption.
Qed.

(** One more entry is known to agree once it has been found equal to the
    account. *)
Lemma keeps_snapshot_add v a0 l rs ws r (e : Acct) (w : World) :
  Z.even v = true ->
  keeps (snapshot v a0 l) sw_step rs ws r w ->
  agrees (accts (sh w)) e ->
  keeps (snapshot v a0 (l ++ [e])) sw_step rs ws r w.
Proof.
  intros Hev (((Hle & Hs) & _ & He) & Hr & Hw & Hv) Ha.
  repeat split; auto.
  - apply Hs. assumption.
  - apply Forall_app. split; [apply Hs; assumption|].
    constructor; [|constructor].
    destruct (Hs H) as [Heq _]. rewrite <- Heq. exact Ha.
  - apply stable_snapshot; assumption.
Qed.

Lemma keeps_forget (P : Shared -> Prop) (R : Step -> Prop) rs ws r (w : World) :
  keeps P R rs ws r w -> keeps (fun _ => True) R rs ws r w.
Proof.
  intros ((_ & _ & He) & Hr & Hw & Hv).
  repeat split; auto. apply stable_True.
Qed.

Lemma wait_even_reads (fuel : nat) (w w' : World) :
  wait_even fuel w = Ret tt w' -> rv w' = seqlock (sh w').
Proof.
  revert w. induction fuel as [|f IH]; intros w Hrun; [discriminate|].
  cbn [wait_even] in Hrun. unfold bind at 1, load_seqlock, bind at 1 in Hrun.
  assert (Ht : exists w1, tick w = Ret tt w1).
  { unfold tick. destruct (env w); eexists; reflexivity. }
  destruct Ht as [w1 Ht]. rewrite Ht in Hrun.
  unfold get at 1 in Hrun. unfold bind at 1, modify at 1 in Hrun.
  destruct (Z.land (seqlock (sh w1)) 1 =? 0).
  - inversion Hrun; subst. reflexivity.
  - apply (IH _ Hrun).
Qed.

Lemma post_check_reads_snapshot v a0 rs ws r (l done : list Acct) (w : World) :
  Z.even v = true ->
  keeps (snapshot v a0 done) sw_step rs ws r w ->
  post (fun _ w' => keeps (snapshot v a0 (done ++ l)) sw_step rs ws r w')
       (fun _ => True) (check_reads l w).
Proof.
  intros Hev. revert done w. induction l as [|e l IH]; intros done w H.
  - cbn. rewrite app_nil_r. exact H.
  - cbn [check_reads].
    eapply post_bind; [apply post_load_acct; eassumption|].
    intros x w1 [H1 Hx]. cbn beta.
    destruct (value e =? x) eqn:E; [|exact I].
    apply Z.eqb_eq in E. subst x.
    replace (done ++ e :: l) with ((done ++ [e]) ++ l)
      by (rewrite <- app_assoc; reflexivity).
    apply IH. apply keeps_snapshot_add; assumption.
Qed.

(** What [sw_validate] has established when it returns, the others running
    in software: [rv] is the current, even [seqlock] and every entry of the
    read set agrees with the accounts as they are now. *)
Lemma post_validate_snap rs ws r (fuel : nat) (w : World) :
  keeps (fun _ => True) sw_step rs ws r w -> read_set w = rs ->
  post (fun _ w' =>
          keeps (snapshot (rv w') (accts (sh w')) rs) sw_step rs ws (rv w') w' /\
          rv w' = seqlock (sh w') /\ Z.even (rv w') = true /\
          Forall (agrees (accts (sh w'))) rs)
       (fun _ => True) (sw_validate fuel w).
Proof.
  revert r w. induction fuel as [|f IH]; intros r w H Hrs; [exact I|].
  cbn [sw_validate].
  destruct (wait_even f w) as [[] w1|w1| |] eqn:Ew;
    unfold bind at 1; rewrite Ew; try exact I.
  - pose proof (post_wait_even _ _ rs ws r (fun _ => True) f w H) as Hp.
    rewrite Ew in Hp. destruct Hp as [H1 Hev].
    pose proof (wait_even_reads f w w1 Ew) as Hrv.
    eapply post_bind with (R := fun l w' => w' = w1 /\ l = rs).
    { cbn. split; [reflexivity | apply H1]. }
    intros l w2 [-> ->].
    eapply post_bind.
    { apply (post_check_reads_snapshot (rv w1) (accts (sh w1)) rs ws (rv w1)
               rs [] w1 Hev).
      apply keeps_snapshot_start; [exact H1 | exact Hev | exact Hrv | constructor]. }
    intros [] w3 H3. cbn beta. cbn [app] in H3.
    eapply post_bind with (R := fun x w' => w' = w3 /\ x = rv w1).
    { cbn. split; [reflexivity | apply H3]. }
    intros x w4 [-> ->].
    eapply post_bind; [apply post_load_seqlock; eassumption|].
    intros s w5 [H5 ->]. cbn beta.
    destruct (rv w1 =? seqlock (sh w5)) eqn:Eq.
    + cbn. apply Z.eqb_eq in Eq.
      assert (Hrv5 : rv w5 = rv w1) by apply H5.
      destruct H5 as (((Hle & Hs) & Hst & He) & Hr5 & Hw5 & _).
      destruct (Hs (eq_sym Eq)) as [Ha Hag].
      rewrite Hrv5, Ha. repeat split; auto; try lia.
    + eapply IH; [apply (keeps_forget _ _ _ _ _ _ H5)|apply H5].
Qed.

Lemma sw_step_bump_other : sw_step bump_other.
Proof. intros s. right. cbn. lia. Qed.

Lemma sw_step_store_other (a v : Z) : sw_step (store_other a v).
Proof.
  intros s. left. unfold store_other.
  destruct (Z.even (seqlock s)) eqn:E; [auto|].
  destruct (acct_store (accts s) a v); split; auto; discriminate.
Qed.

Lemma world_validating_sw : Forall sw_step (env world_validating).
Proof.
  constructor; [apply sw_step_bump_other|].
  constructor; [apply sw_step_store_other|].
  constructor; [apply sw_step_bump_other | constructor].
Qed.

(** X1.  When [sw_validate] returns, the other threads running in software
    (they store to the accounts only while [seqlock] is odd, and [seqlock]
    only goes up),
    [rv] is the current [seqlock], it is even, the logs are as they were and
    every entry of the read set equals the account as it is now: the read
    set is a snapshot of the accounts at [rv]. *)
Theorem sw_validate_snapshot (fuel : nat) (w w' : World) :
  Forall sw_step (env w) ->
  sw_validate fuel w = Ret tt w' ->
  rv w' = seqlock (sh w') /\ Z.even (rv w') = true /\
  read_set w' = read_set w /\ write_set w' = write_set w /\
  Forall (agrees (accts (sh w'))) (read_set w').
Proof.
  intros He Hrun.
  assert (Hk : keeps (fun _ => True) sw_step (read_set w) (write_set w)
                     (rv w) w).
  { apply inv_keeps. repeat split; [apply stable_True | exact He]. }
  pose proof (post_validate_snap _ _ _ fuel w Hk eq_refl) as Hp.
  rewrite Hrun in Hp. destruct Hp as ((_ & Hr & Hw & _) & Hrv & Hev & Hag).
  rewrite Hr. auto.
Qed.

Lemma sw_validate_snapshot_witness :
  exists w',
    sw_validate 5 world_validating = Ret tt w' /\
    rv w' = seqlock (sh w') /\ Z.even (rv w') = true /\
    Forall (agrees (accts (sh w'))) (read_set w').
Proof.
  destruct (value_of_ret (sw_validate 5 world_validating) tt)
    as [w' Hrun]; [vm_compute; reflexivity|].
  exists w'.
  destruct (sw_validate_snapshot 5 world_validating w' world_validating_sw
              Hrun) as (Hrv & Hev & _ & _ & Hag).
  split; [exact Hrun|]. split; [exact Hrv|]. split; [exact Hev | exact Hag].
Defined.

Lemma post_reload_snapshot rs ws (fuel : nat) (a : Z) :
  forall v a0 val (w : World),
    Z.even v = true ->
    keeps (snapshot v a0 (rs ++ [mkAcct a val])) sw_step rs ws v w ->
    read_set w = rs ->
    post (fun val' w' =>
            keeps (fun _ => True) sw_step rs ws (rv w') w' /\
            rv w' = seqlock (sh w') /\ Z.even (rv w') = true /\
            Forall (agrees (accts (sh w'))) (rs ++ [mkAcct a val']))
         (fun _ => True) (reload fuel a val w).
Proof.
  induction fuel as [|f IH]; intros v a0 val w Hev H Hrs; [exact I|].
  cbn [reload].
  eapply post_bind with (R := fun x w' => w' = w /\ x = v).
  { cbn. split; [reflexivity | apply H]. }
  intros x w1 [-> ->].
  eapply post_bind; [apply post_load_seqlock; eassumption|].
  intros s w2 [H2 ->]. cbn beta.
  destruct (v =? seqlock (sh w2)) eqn:Eq.
  - cbn. apply Z.eqb_eq in Eq.
    assert (Hrv2 : rv w2 = v) by apply H2.
    pose proof (keeps_forget _ _ _ _ _ _ H2) as Hf.
    destruct H2 as (((Hle & Hs) & _) & _).
    destruct (Hs (eq_sym Eq)) as [Ha Hag].
    rewrite Hrv2, Ha. auto.
  - eapply post_bind.
    { apply (post_validate_snap rs ws v f w2);
        [apply (keeps_forget _ _ _ _ _ _ H2) | apply H2]. }
    intros [] w3 (H3 & Hrv3 & Hev3 & Hag3). cbn beta.
    set (v3 := rv w3) in *. set (a3 := accts (sh w3)) in *.
    eapply post_bind; [apply post_load_acct; exact H3|].
    intros y w4 [H4 Hy]. cbn beta.
    apply (IH v3 a3 y w4); [exact Hev3 | |apply H4].
    apply keeps_snapshot_add; [exact Hev3 | exact H4 | exact Hy].
Qed.

Lemma coherent_keeps (w : World) :
  Forall sw_step (env w) -> coherent w ->
  keeps (snapshot (rv w) (accts (sh w)) (read_set w)) sw_step
        (read_set w) (write_set w) (rv w) w.
Proof.
  intros He (Hev & Hle & Hag). repeat split; auto.
  apply stable_snapshot; assumption.
Qed.

(** X2.  The other threads running in software, [sw_read] keeps the read
    set a view of the accounts as of [rv]; and when it returns a value
    loaded from memory, [rv] is the current [seqlock] and the whole read
    set, the new entry included, equals the accounts as they are at that
    moment: the transaction never sees two values from different states. *)
Theorem sw_read_coherent (fuel : nat) (a v : Z) (w w' : World) :
  Forall sw_step (env w) -> coherent w ->
  sw_read fuel a w = Ret v w' ->
  coherent w' /\
  (ws_lookup a (write_set w) = None ->
   rv w' = seqlock (sh w') /\
   read_set w' = read_set w ++ [mkAcct a v] /\
   acct_value (accts (sh w')) a = Some v /\
   Forall (agrees (accts (sh w'))) (read_set w')).
Proof.
  intros He Hc Hrun.
  destruct (ws_lookup a (write_set w)) as [v0|] eqn:Hm.
  - unfold sw_read, bind, get in Hrun. rewrite Hm in Hrun.
    inversion Hrun; subst. split; [exact Hc | discriminate].
  - assert (Hp : post (fun v w' =>
                   rv w' = seqlock (sh w') /\ Z.even (rv w') = true /\
                   read_set w' = read_set w ++ [mkAcct a v] /\
                   Forall (agrees (accts (sh w'))) (read_set w'))
                 (fun _ => True) (sw_read fuel a w)).
    { unfold sw_read.
      eapply post_bind with (R := fun x w' => w' = w /\ x = write_set w).
      { cbn. auto. }
      intros x w1 [-> ->]. rewrite Hm.
      eapply post_bind;
        [apply post_load_acct; apply (coherent_keeps w He Hc)|].
      intros x w2 [H2 Hx]. cbn beta.
      eapply post_bind.
      { apply (post_reload_snapshot (read_set w) (write_set w) fuel a
                 (rv w) (accts (sh w)) x w2); [apply Hc | |apply H2].
        apply keeps_snapshot_add; [apply Hc | exact H2 | exact Hx]. }
      intros y w3 (H3 & Hrv3 & Hev3 & Hag3). cbn beta. cbn.
      assert (Hr3 : read_set w3 = read_set w) by apply H3.
      rewrite Hr3. auto. }
    rewrite Hrun in Hp. destruct Hp as (Hrv & Hev & Hr & Hag).
    split.
    + split; [exact Hev|]. split; [lia | auto].
    + intros _. repeat split; auto.
      rewrite Hr in Hag. apply Forall_app in Hag. destruct Hag as [_ Hl].
      inversion Hl; subst. assumption.
Qed.

Lemma post_acquire_snapshot rs ws (fuel : nat) :
  forall v a0 (w : World),
    Z.even v = true ->
    keeps (snapshot v a0 rs) sw_step rs ws v w -> read_set w = rs ->
    post (fun _ w' =>
            Forall (agrees (accts (sh w'))) rs /\
            seqlock (sh w') = u32 (rv w' + 1) /\
            read_set w' = rs /\ write_set w' = ws)
         (fun _ => True) (acquire fuel w).
Proof.
  induction fuel as [|f IH]; intros v a0 w Hev H Hrs; [exact I|].
  cbn [acquire].
  eapply post_bind with (R := fun x w' => w' = w /\ x = v).
  { cbn. split; [reflexivity | apply H]. }
  intros x w1 [-> ->]. unfold cas_seqlock.
  destruct (tick w) as [[] w1|w1| |] eqn:Et;
    try (unfold tick in Et; destruct (env w); discriminate).
  pose proof (post_tick _ _ rs ws v (fun _ => True) w H) as Hp.
  rewrite Et in Hp. cbn in Hp.
  unfold bind at 1. unfold bind at 1. rewrite Et.
  unfold bind at 1, get at 1.
  destruct (seqlock (sh w1) =? v) eqn:Eq.
  - cbn. apply Z.eqb_eq in Eq.
    destruct Hp as (((Hle & Hs) & _) & Hr1 & Hw1 & Hv1).
    destruct (Hs Eq) as [Ha Hag]. rewrite Ha, Hv1. auto.
  - cbn.
    eapply post_bind.
    { apply (post_validate_snap rs ws v f w1);
        [apply (keeps_forget _ _ _ _ _ _ Hp) | apply Hp]. }
    intros [] w3 (H3 & Hrv3 & Hev3 & Hag3). cbn beta.
    apply (IH (rv w3) (accts (sh w3)) w3); [exact Hev3 | exact H3 | apply H3].
Qed.

(** X3.  The other threads running in software, and the read set a view of
    the accounts as of an even [rv] when the loop starts ([coherent], as
    [sw_validate] and [sw_read] leave it; an entry left behind by an earlier
    read-only commit breaks it): when the compare-and-swap loop of
    [sw_commit] has taken the window every value in the read set is still
    the current balance of its account, so that the write-back that follows
    happens on the state the transaction has seen.  The logs are untouched
    and [seqlock] is [rv + 1]. *)
Theorem acquire_on_snapshot (fuel : nat) (w w' : World) :
  Forall sw_step (env w) -> coherent w ->
  acquire fuel w = Ret tt w' ->
  Forall (agrees (accts (sh w'))) (read_set w') /\
  seqlock (sh w') = u32 (rv w' + 1) /\
  read_set w' = read_set w /\ write_set w' = write_set w.
Proof.
  intros He Hc Hrun.
  pose proof (post_acquire_snapshot (read_set w) (write_set w) fuel
                (rv w) (accts (sh w)) w (proj1 Hc) (coherent_keeps w He Hc)
                eq_refl)
    as Hp.
  rewrite Hrun in Hp. destruct Hp as (Hag & Hs & Hr & Hw).
  rewrite Hr. auto.
Qed.

Lemma sw_read_coherent_witness :
  exists w',
    sw_read 5 1 world_validating = Ret 900 w' /\
    read_set w' = [mkAcct 0 1000; mkAcct 1 900] /\
    Forall (agrees (accts (sh w'))) (read_set w').
Proof.
  destruct (value_of_ret (sw_read 5 1 world_validating) 900)
    as [w' Hrun]; [vm_compute; reflexivity|].
  exists w'. split; [exact Hrun|].
  pose proof world_validating_sw as He.
  assert (Hc : coherent world_validating).
  { split; [reflexivity|]. split; [cbn; lia|].
    intros _. constructor; [reflexivity | constructor]. }
  destruct (proj2 (sw_read_coherent 5 1 900 world_validating w' He Hc Hrun)
                  eq_refl) as (_ & Hr & _ & Hag).
  split; [exact Hr | exact Hag].
Defined.

Lemma acquire_on_snapshot_witness :
  exists w',
    acquire 6 world_validating = Ret tt w' /\
    seqlock (sh w') = u32 (rv w' + 1) /\
    Forall (agrees (accts (sh w'))) (read_set w').
Proof.
  destruct (value_of_ret (acquire 6 world_validating) tt)
    as [w' Hrun]; [vm_compute; reflexivity|].
  exists w'. split; [exact Hrun|].
  pose proof world_validating_sw as He.
  assert (Hc : coherent world_validating).
  { split; [reflexivity|]. split; [cbn; lia|].
    intros _. constructor; [reflexivity | constructor]. }
  destruct (acquire_on_snapshot 6 world_validating w' He Hc Hrun)
    as (Hag & Hs & _).
  split; [exact Hs | exact Hag].
Defined.

(** ** [sw_read] under interference *)

Lemma tick_ticks (w : World) : tick w = Ret tt (ticks 1 w).
Proof. unfold tick. cbn. destruct (env w); reflexivity. Qed.

Lemma ticks_local (n : nat) (w : World) :
  read_set (ticks n w) = read_set w /\ write_set (ticks n w) = write_set w /\
  rv (ticks n w) = rv w /\ snap_counter (ticks n w) = snap_counter w /\
  tid (ticks n w) = tid w /\ htm (ticks n w) = htm w.
Proof.
  revert w. induction n as [|n IH]; intros w; [repeat split|].
  cbn [ticks]. destruct (env w) as [|f e]; [repeat split|].
  destruct (IH (set_env e (set_sh (f (sh w)) w))) as (A & B & C & D & E & F).
  repeat split; assumption.
Qed.

Lemma ticks_seqlock_kept (n : nat) (w : World) :
  Forall seqlock_kept (env w) ->
  seqlock (sh (ticks n w)) = seqlock (sh w) /\
  Forall seqlock_kept (env (ticks n w)).
Proof.
  revert w. induction n as [|n IH]; intros w H; [auto|].
  cbn [ticks]. destruct (env w) as [|f e] eqn:E; [rewrite E; auto|].
  inversion H as [|f' e' Hf He]; subst.
  destruct (IH (set_env e (set_sh (f (sh w)) w)) He) as [A B].
  split; [|exact B]. rewrite A. cbn. apply Hf.
Qed.

(** *** The value of [sw_read] is the last one loaded *)

Lemma ticks_shared (k : nat) (w1 w2 : World) :
  sh w1 = sh w2 -> env w1 = env w2 ->
  sh (ticks k w1) = sh (ticks k w2) /\ env (ticks k w1) = env (ticks k w2).
Proof.
  revert w1 w2. induction k as [|k IH]; intros w1 w2 Hs He; [auto|].
  cbn [ticks]. rewrite He. destruct (env w2) as [|f e] eqn:E2.
  - split; congruence.
  - apply IH; cbn; congruence.
Qed.

Lemma ticks_add (j k : nat) (w : World) :
  ticks (j + k) w = ticks k (ticks j w).
Proof.
  revert w. induction j as [|j IH]; intros w; [reflexivity|].
  change (S j + k)%nat with (S (j + k)).
  rewrite (ticks_succ (j + k)), IH, <- ticks_succ. reflexivity.
Qed.

Lemma advanced_refl (w w' : World) :
  sh w' = sh w -> env w' = env w -> advanced 0 w w'.
Proof. intros Hs He. split; assumption. Qed.

Lemma advanced_trans (j k : nat) (w w1 w2 : World) :
  advanced j w w1 -> advanced k w1 w2 -> advanced (j + k) w w2.
Proof.
  intros [Hs1 He1] [Hs2 He2]. unfold advanced. rewrite ticks_add.
  destruct (ticks_shared k w1 (ticks j w) Hs1 He1) as [A B].
  split; congruence.
Qed.

Lemma advanced_tick (k : nat) (w w1 : World) :
  advanced k w w1 -> advanced (S k) w (ticks 1 w1).
Proof.
  intros H. replace (S k) with (k + 1)%nat by lia.
  apply (advanced_trans k 1 w w1); [exact H | split; reflexivity].
Qed.

Lemma post_tick_advanced (E : World -> Prop) (k : nat) (w0 w : World) :
  advanced k w0 w -> post (fun _ w' => advanced (S k) w0 w') E (tick w).
Proof. intros H. rewrite tick_ticks. cbn. apply advanced_tick. exact H. Qed.

Lemma post_wait_even_advanced (E : World -> Prop) (fuel : nat) :
  forall (k : nat) (w0 w : World),
    advanced k w0 w ->
    post (fun _ w' => exists k', advanced k' w0 w') E (wait_even fuel w).
Proof.
  induction fuel as [|f IH]; intros k w0 w H; [exact I|].
  cbn [wait_even]. unfold bind at 1, load_seqlock, bind at 1.
  rewrite tick_ticks. unfold get at 1. unfold bind at 1, modify at 1.
  pose proof (advanced_tick k w0 w H) as H1.
  destruct (Z.land (seqlock (sh (ticks 1 w))) 1 =? 0).
  - cbn. exists (S k). exact H1.
  - apply (IH (S k)). exact H1.
Qed.

Lemma post_check_reads_advanced (l : list Acct) :
  forall (k : nat) (w0 w : World),
    advanced k w0 w ->
    post (fun _ w' => exists k', advanced k' w0 w') (fun _ => True)
         (check_reads l w).
Proof.
  induction l as [|e l IH]; intros k w0 w H.
  - cbn. exists k. exact H.
  - cbn [check_reads]. unfold bind at 1, load_acct, bind at 1.
    rewrite tick_ticks. unfold raw_load_acct.
    destruct (acct_value (accts (sh (ticks 1 w))) (addr e)) as [x|];
      [|exact I].
    destruct (value e =? x); [|exact I].
    apply (IH (S k)). apply advanced_tick. exact H.
Qed.

Lemma post_sw_validate_advanced (fuel : nat) :
  forall (k : nat) (w0 w : World),
    advanced k w0 w ->
    post (fun _ w' => exists k', advanced k' w0 w') (fun _ => True)
         (sw_validate fuel w).
Proof.
  induction fuel as [|f IH]; intros k w0 w H; [exact I|].
  cbn [sw_validate].
  eapply post_bind; [apply (post_wait_even_advanced _ f k w0 w H)|].
  intros [] w1 [k1 H1]. cbn beta.
  eapply post_bind with (R := fun _ w' => w' = w1); [reflexivity|].
  intros l w2 ->.
  eapply post_bind; [apply (post_check_reads_advanced l k1 w0 w1 H1)|].
  intros [] w3 [k3 H3]. cbn beta.
  eapply post_bind with (R := fun _ w' => w' = w3); [reflexivity|].
  intros r w4 ->. unfold bind at 1, load_seqlock, bind at 1.
  rewrite tick_ticks. unfold get at 1.
  pose proof (advanced_tick k3 w0 w3 H3) as H5.
  destruct (r =? seqlock (sh (ticks 1 w3))).
  - cbn. exists (S k3). exact H5.
  - apply (IH (S k3)). exact H5.
Qed.

Lemma post_reload_latest (a : Z) (fuel : nat) :
  forall (k : nat) (val : Z) (w0 w : World),
    advanced k w0 w -> acct_value (accts (sh w)) a = Some val ->
    post (fun v w' =>
            exists k', acct_value (accts (sh (ticks k' w0))) a = Some v /\
                       advanced (S k') w0 w')
         (fun _ => True) (reload fuel a val w).
Proof.
  induction fuel as [|f IH]; intros k val w0 w H Hv; [exact I|].
  cbn [reload]. unfold bind at 1, get at 1.
  unfold bind at 1, load_seqlock, bind at 1.
  rewrite tick_ticks. unfold get at 1.
  destruct (rv w =? seqlock (sh (ticks 1 w))).
  - cbn. exists k. split; [|apply advanced_tick; exact H].
    destruct H as [Hs _]. rewrite <- Hs. exact Hv.
  - eapply post_bind;
      [apply (post_sw_validate_advanced f (S k) w0 (ticks 1 w));
       apply advanced_tick; exact H|].
    intros [] w2 [k2 H2]. cbn beta.
    unfold bind at 1, load_acct, bind at 1. rewrite tick_ticks.
    unfold raw_load_acct.
    destruct (acct_value (accts (sh (ticks 1 w2))) a) as [y|] eqn:Ey;
      [|exact I].
    apply (IH (S k2) y w0 (ticks 1 w2)); [|exact Ey].
    apply advanced_tick. exact H2.
Qed.

Lemma post_sw_read_latest (fuel : nat) (a : Z) (w : World) :
  ws_lookup a (write_set w) = None ->
  post (fun v w' =>
          exists k, acct_value (accts (sh (ticks k w))) a = Some v /\
                    advanced (S k) w w')
       (fun _ => True) (sw_read fuel a w).
Proof.
  intros Hm. unfold sw_read. unfold bind at 1, get at 1. rewrite Hm.
  unfold bind at 1, load_acct, bind at 1. rewrite tick_ticks.
  unfold raw_load_acct.
  destruct (acct_value (accts (sh (ticks 1 w))) a) as [x|] eqn:Ex;
    [|exact I].
  eapply post_bind.
  { apply (post_reload_latest a fuel 1 x w (ticks 1 w));
      [split; reflexivity | exact Ex]. }
  intros v w1 (k & Hk & Ha). cbn. exists k. split; [exact Hk | exact Ha].
Qed.

(** What [sw_read] has established when it returns a value loaded from
    memory, the others running in software. *)
Lemma post_sw_read_snapshot (fuel : nat) (a : Z) (w : World) :
  Forall sw_step (env w) -> coherent w ->
  ws_lookup a (write_set w) = None ->
  post (fun v w' =>
          rv w' = seqlock (sh w') /\ Z.even (rv w') = true /\
          read_set w' = read_set w ++ [mkAcct a v] /\
          Forall (agrees (accts (sh w'))) (read_set w'))
       (fun _ => True) (sw_read fuel a w).
Proof.
  intros He Hc Hm. unfold sw_read.
  eapply post_bind with (R := fun x w' => w' = w /\ x = write_set w).
  { cbn. auto. }
  intros x w1 [-> ->]. rewrite Hm.
  eapply post_bind;
    [apply post_load_acct; apply (coherent_keeps w He Hc)|].
  intros x w2 [H2 Hx]. cbn beta.
  eapply post_bind.
  { apply (post_reload_snapshot (read_set w) (write_set w) fuel a
             (rv w) (accts (sh w)) x w2); [apply Hc | |apply H2].
    apply keeps_snapshot_add; [apply Hc | exact H2 | exact Hx]. }
  intros y w3 (H3 & Hrv3 & Hev3 & Hag3). cbn beta. cbn.
  assert (Hr3 : read_set w3 = read_set w) by apply H3.
  rewrite Hr3. auto.
Qed.

(** C6.  [sw_read(addr)]:
    - when [addr] is in the write set, the value written last is returned
      and nothing changes: no shared variable is accessed (no step of the
      other threads is consumed) and the read set is as it was;
    - otherwise a call that returns [v] has appended [(addr, v)] to the
      read set, has left the write set alone and ends with [rv] equal to
      [seqlock]; [v] is a value that memory held at [addr] (whatever the
      other threads keep true of the shared state still holds, and holds
      of [v]);
    - otherwise and without interference: with [seqlock = rv] the value in
      memory is returned with no validation; with [seqlock <> rv] the read
      set is validated ([rv] moves to [seqlock]), the value is loaded again
      and returned, or the transaction aborts when an entry of the read set
      no longer agrees;
    - otherwise and with the other threads committing in software while
      the call runs, from a read set that is a view of the accounts as of
      [rv]: the value returned is the balance that the account holds when
      the call returns, and the whole read set agrees with the accounts at
      that moment.  A value loaded before a commit of the others is not
      returned: it has been loaded again after the validation;
    - otherwise and whatever the other threads do: the value returned is
      the last one loaded, the balance that the account held right before
      the last access of the call to shared memory (the comparison of [rv]
      with [seqlock] that ended the loop), [k] steps of the other threads
      into the call; a value loaded before a validation is never
      returned. *)
Theorem sw_read_spec (fuel : nat) (a : Z) (w : World) :
  (forall l1 v l2,
     write_set w = l1 ++ mkAcct a v :: l2 ->
     (forall e, In e l2 -> addr e <> a) ->
     sw_read fuel a w = Ret v w) /\
  ((forall e, In e (write_set w) -> addr e <> a) ->
   (forall v w',
      sw_read fuel a w = Ret v w' ->
      read_set w' = read_set w ++ [mkAcct a v] /\
      write_set w' = write_set w /\
      rv w' = seqlock (sh w') /\
      forall (P : Shared -> Prop) x,
        stable P (env w) -> P (sh w) ->
        (forall s, P s -> acct_value (accts s) a = Some x) ->
        v = x /\ P (sh w')) /\
   (env w = [] ->
    forall v, acct_value (accts (sh w)) a = Some v ->
      (rv w = seqlock (sh w) ->
       sw_read (S fuel) a w =
       Ret v (set_read_set (read_set w ++ [mkAcct a v]) w)) /\
      (rv w <> seqlock (sh w) -> Z.even (seqlock (sh w)) = true ->
       Forall (agrees (accts (sh w))) (read_set w) ->
       sw_read (3 + fuel) a w =
       Ret v (set_read_set (read_set w ++ [mkAcct a v])
                           (set_rv (seqlock (sh w)) w))) /\
      (rv w <> seqlock (sh w) -> Z.even (seqlock (sh w)) = true ->
       forall l1 e l2 y,
         read_set w = l1 ++ e :: l2 ->
         Forall (agrees (accts (sh w))) l1 ->
         acct_value (accts (sh w)) (addr e) = Some y -> y <> value e ->
         sw_read (3 + fuel) a w =
         Throw (set_write_set [] (set_read_set []
                                    (set_rv (seqlock (sh w)) w))))) /\
   (Forall sw_step (env w) -> coherent w ->
    forall v w',
      sw_read fuel a w = Ret v w' ->
      acct_value (accts (sh w')) a = Some v /\
      Forall (agrees (accts (sh w'))) (read_set w') /\
      coherent w') /\
   (forall v w',
      sw_read fuel a w = Ret v w' ->
      exists k,
        acct_value (accts (sh (ticks k w))) a = Some v /\
        advanced (S k) w w')).
Proof.
  split.
  - intros l1 v l2 Hws Hl2. unfold sw_read, bind, get.
    rewrite Hws, (ws_lookup_last a v l1 l2 Hl2). reflexivity.
  - intros Hmiss. apply ws_lookup_none in Hmiss. split; [|split; [|split]].
    + intros v w' Hrun.
      assert (Hk : keeps (fun _ => True) (fun _ => True)
                         (read_set w) (write_set w) (rv w) w).
      { apply inv_keeps.
        repeat split; [apply stable_True | apply Forall_any]. }
      pose proof (post_sw_read_miss _ _ _ _ _ (fun _ => True)
                    fuel a w (fun _ _ _ _ => I) Hk Hmiss) as Hp.
      rewrite Hrun in Hp. cbn in Hp.
      destruct Hp as ((_ & Hr & Hw & _) & Hrv & _).
      repeat (split; [assumption|]).
      intros P x Hst HP Hx.
      assert (Hk' : keeps P (fun _ => True)
                          (read_set w) (write_set w) (rv w) w).
      { apply inv_keeps. repeat split; [assumption .. | apply Forall_any]. }
      assert (HV : forall s v1, P s -> acct_value (accts s) a = Some v1 ->
                                v1 = x).
      { intros s v1 Hs Hv1. rewrite (Hx s Hs) in Hv1. congruence. }
      pose proof (post_sw_read_miss P _ (read_set w) (write_set w) (rv w)
                    (fun v => v = x) fuel a w HV Hk' Hmiss) as Hq.
      rewrite Hrun in Hq. cbn in Hq.
      destruct Hq as (((HP' & _) & _) & _ & _ & Hvx). auto.
    + intros He v Hv. split; [|split].
      * intros Hrv. rewrite (sw_read_miss_unfold (S fuel) a v w He Hmiss Hv).
        unfold bind at 1. rewrite (reload_quiet_same fuel a v w He Hrv).
        reflexivity.
      * intros Hne Hev Hag.
        rewrite (sw_read_miss_unfold (3 + fuel) a v w He Hmiss Hv).
        unfold bind at 1.
        rewrite (reload_quiet_ok fuel a v v w He Hne Hev Hag Hv).
        reflexivity.
      * intros Hne Hev l1 e l2 y Hr Hag Hy Hd.
        rewrite (sw_read_miss_unfold (3 + fuel) a v w He Hmiss Hv).
        unfold bind at 1.
        rewrite (reload_quiet_bad fuel a v l1 l2 e y w He Hne Hev Hr Hag Hy Hd).
        reflexivity.
    + intros He Hc v w' Hrun.
      pose proof (post_sw_read_snapshot fuel a w He Hc Hmiss) as Hp.
      rewrite Hrun in Hp. cbn in Hp. destruct Hp as (Hrv & Hev & Hr & Hag).
      split; [|split; [exact Hag|]].
      * rewrite Hr in Hag. apply Forall_app in Hag. destruct Hag as [_ Hl].
        inversion Hl; subst. assumption.
      * split; [exact Hev|]. split; [lia | auto].
    + intros v w' Hrun.
      pose proof (post_sw_read_latest fuel a w Hmiss) as Hp.
      rewrite Hrun in Hp. exact Hp.
Qed.

Lemma sw_read_spec_witness :
  sw_read 3 1 (world_reading 1000) = Ret 950 (world_reading 1000) /\
  sw_read 3 2 (world_reading 1000) =
  Ret 700 (set_read_set [mkAcct 0 1000; mkAcct 2 700]
             (set_rv 2 (world_reading 1000))) /\
  sw_read 3 2 (world_reading 1050) =
  Throw (set_write_set [] (set_read_set [] (set_rv 2 (world_reading 1050)))) /\
  acct_value (accts (sh (ticks 1 world_validating))) 1 = Some 1000 /\
  exists w',
    sw_read 5 1 world_validating = Ret 900 w' /\
    acct_value (accts (sh w')) 1 = Some 900 /\
    Forall (agrees (accts (sh w'))) (read_set w').
Proof.
  split; [|split; [|split; [|split]]].
  - apply (proj1 (sw_read_spec 3 1 (world_reading 1000))
                 [mkAcct 1 900] 950 []); [reflexivity|].
    intros e [].
  - assert (Hmiss : forall e, In e (write_set (world_reading 1000)) ->
                              addr e <> 2).
    { intros e [<- | [<- | []]]; discriminate. }
    destruct (proj1 (proj2 (proj2 (sw_read_spec 0 2 (world_reading 1000))
                                  Hmiss))
                    eq_refl 700 eq_refl) as (_ & Hval & _).
    apply Hval; [discriminate | reflexivity|].
    constructor; [reflexivity | constructor].
  - assert (Hmiss : forall e, In e (write_set (world_reading 1050)) ->
                              addr e <> 2).
    { intros e [<- | [<- | []]]; discriminate. }
    destruct (proj1 (proj2 (proj2 (sw_read_spec 0 2 (world_reading 1050))
                                  Hmiss))
                    eq_refl 700 eq_refl) as (_ & _ & Hbad).
    apply (Hbad ltac:(discriminate) eq_refl [] (mkAcct 0 1050) [] 1000);
      [reflexivity | constructor | reflexivity | discriminate].
  - reflexivity.
  - destruct (value_of_ret (sw_read 5 1 world_validating) 900)
      as [w' Hrun]; [vm_compute; reflexivity|].
    exists w'. split; [exact Hrun|].
    assert (Hmiss : forall e, In e (write_set world_validating) ->
                              addr e <> 1).
    { intros e []. }
    assert (Hc : coherent world_validating).
    { split; [reflexivity|]. split; [cbn; lia|].
      intros _. constructor; [reflexivity | constructor]. }
    destruct (proj1 (proj2 (proj2 (proj2 (sw_read_spec 5 1 world_validating)
                                         Hmiss)))
                    world_validating_sw Hc 900 w' Hrun) as (Hv & Hag & _).
    split; [exact Hv | exact Hag].
Defined.

(** ** What [sw_read] does not see *)

(** X4.  [sw_read] validates only when [seqlock] has moved.  When the steps
    of the other threads leave [seqlock] alone, as hardware commits do,
    a read that misses the write set returns whatever the account holds
    after their first step and appends it to the read set, without any
    validation, whatever those steps have done to the accounts already
    read. *)
Theorem sw_read_blind (fuel : nat) (a v : Z) (w : World) :
  Forall seqlock_kept (env w) ->
  rv w = seqlock (sh w) ->
  ws_lookup a (write_set w) = None ->
  acct_value (accts (sh (ticks 1 w))) a = Some v ->
  sw_read (S fuel) a w =
  Ret v (set_read_set (read_set w ++ [mkAcct a v]) (ticks 2 w)).
Proof.
  intros He Hrv Hm Hv. unfold sw_read.
  unfold bind at 1, get at 1. rewrite Hm.
  unfold bind at 1, load_acct, bind at 1. rewrite tick_ticks.
  unfold raw_load_acct. rewrite Hv.
  unfold bind at 1. cbn [reload].
  unfold bind at 1, get at 1. unfold bind at 1, load_seqlock, bind at 1.
  rewrite tick_ticks, <- ticks_succ. unfold get at 1.
  destruct (ticks_local 1 w) as (_ & _ & Hr1 & _).
  destruct (ticks_local 2 w) as (Hrs2 & _).
  destruct (ticks_seqlock_kept 2 w He) as [Hs2 _].
  rewrite Hr1, Hs2, Hrv, Z.eqb_refl.
  unfold ret, bind, modify. rewrite Hrs2. reflexivity.
Qed.

Lemma sw_read_blind_witness :
  exists w',
    sw_read 1 1 world_htm_race = Ret 950 w' /\
    read_set w' = [mkAcct 0 1000; mkAcct 1 950] /\
    acct_value (accts (sh w')) 0 = Some 950.
Proof.
  eexists. split.
  - apply (sw_read_blind 0 1 950 world_htm_race);
      [|reflexivity | reflexivity | reflexivity].
    constructor; [|constructor; [|constructor]]; intros s; reflexivity.
  - split; reflexivity.
Defined.

Lemma sw_read_hit (fuel : nat) (a v : Z) (w : World) :
  ws_lookup a (write_set w) = Some v -> sw_read fuel a w = Ret v w.
Proof.
  intros H. unfold sw_read. unfold bind at 1, get at 1. rewrite H. reflexivity.
Qed.

(** X5.  A transaction reads its own writes: [sw_read] right after
    [sw_write] to the same address returns the value written, and after
    two writes the second one, with no access to shared memory and no
    entry in the read set. *)
Theorem sw_read_own_write (fuel : nat) (a v1 v2 : Z) (w : World) :
  (sw_write a v1 ;; sw_read fuel a) w =
  Ret v1 (set_write_set (write_set w ++ [mkAcct a v1]) w) /\
  (sw_write a v1 ;; sw_write a v2 ;; sw_read fuel a) w =
  Ret v2 (set_write_set (write_set w ++ [mkAcct a v1; mkAcct a v2]) w).
Proof.
  split.
  - unfold bind at 1. unfold sw_write, modify.
    apply sw_read_hit. cbn [write_set set_write_set].
    apply (ws_lookup_last a v1 (write_set w) []). intros e [].
  - unfold bind at 1. unfold sw_write at 1, modify at 1.
    unfold bind at 1. unfold sw_write, modify.
    rewrite sw_read_hit with (v := v2).
    + open_world w. cbn. rewrite <- app_assoc. reflexivity.
    + cbn [write_set set_write_set].
      apply (ws_lookup_last a v2 (write_set w ++ [mkAcct a v1]) []). intros e [].
Qed.

(** ** What a commit installs *)

Lemma store_nth_shape (l l' : list Acct) (n : nat) (v : Z) :
  store_nth l n v = Some l' -> map addr l' = map addr l.
Proof.
  revert n l'. induction l as [|x l IH]; intros n l' Hs;
    [destruct n; discriminate|].
  destruct n as [|n]; cbn in Hs.
  - inversion Hs; subst. reflexivity.
  - destruct (store_nth l n v) as [l1|] eqn:E; [|discriminate].
    inversion Hs; subst. cbn. rewrite (IH n l1 E). reflexivity.
Qed.

Lemma store_nth_out (l : list Acct) (n : nat) (v : Z) :
  (List.length l <= n)%nat -> store_nth l n v = None.
Proof.
  revert n. induction l as [|x l IH]; intros n Hn; [destruct n; reflexivity|].
  destruct n as [|n]; cbn in *; [lia|]. rewrite IH by lia. reflexivity.
Qed.

Lemma store_nth_in (l : list Acct) (n : nat) (v : Z) :
  (n < List.length l)%nat -> exists l', store_nth l n v = Some l'.
Proof.
  intros Hn. destruct (nth_error l n) as [a|] eqn:E.
  - apply (store_nth_defined l n v a E).
  - apply nth_error_None in E. lia.
Qed.

Lemma acct_store_shape (l l' : list Acct) (a v : Z) :
  acct_store l a v = Some l' ->
  map addr l' = map addr l /\ List.length l' = List.length l.
Proof.
  unfold acct_store. destruct (a <? 0); [discriminate|]. intros Hs.
  pose proof (store_nth_shape _ _ _ _ Hs) as Hm. split; [exact Hm|].
  rewrite <- (length_map addr l'), Hm. apply length_map.
Qed.

Lemma acct_store_in (l : list Acct) (a v : Z) :
  0 <= a < Z.of_nat (List.length l) -> exists l', acct_store l a v = Some l'.
Proof.
  intros Ha. unfold acct_store. destruct (a <? 0) eqn:E; [lia|].
  apply store_nth_in. lia.
Qed.

Lemma acct_store_out (l : list Acct) (a v : Z) :
  ~ 0 <= a < Z.of_nat (List.length l) -> acct_store l a v = None.
Proof.
  intros Ha. unfold acct_store. destruct (a <? 0) eqn:E; [reflexivity|].
  apply store_nth_out. lia.
Qed.

Lemma flush_shape (l : list Acct) (ws : list Acct) (l' : list Acct) :
  flush l ws = Some l' ->
  map addr l' = map addr l /\ List.length l' = List.length l.
Proof.
  revert l. induction ws as [|e ws IH]; intros l Hf; cbn in Hf.
  - inversion Hf; subst. auto.
  - destruct (acct_store l (addr e) (value e)) as [l1|] eqn:E; [|discriminate].
    destruct (acct_store_shape _ _ _ _ E) as [A B].
    destruct (IH l1 Hf) as [C D]. split; congruence.
Qed.

Lemma flush_in (l : list Acct) (ws : list Acct) :
  Forall (fun e => 0 <= addr e < Z.of_nat (List.length l)) ws ->
  exists l', flush l ws = Some l'.
Proof.
  revert l. induction ws as [|e ws IH]; intros l Hall; cbn.
  - eexists. reflexivity.
  - inversion Hall as [|e' ws' He Hws]; subst.
    destruct (acct_store_in l (addr e) (value e) He) as [l1 E]. rewrite E.
    apply IH. destruct (acct_store_shape _ _ _ _ E) as [_ ->]. exact Hws.
Qed.

Lemma flush_out (l : list Acct) (ws : list Acct) (e : Acct) :
  In e ws -> ~ 0 <= addr e < Z.of_nat (List.length l) -> flush l ws = None.
Proof.
  revert l. induction ws as [|x ws IH]; intros l Hin Hout; [destruct Hin|].
  cbn. destruct (acct_store l (addr x) (value x)) as [l1|] eqn:E;
    [|reflexivity].
  destruct Hin as [-> | Hin].
  - rewrite (acct_store_out l (addr e) (value e) Hout) in E. discriminate.
  - apply IH; [exact Hin|].
    destruct (acct_store_shape _ _ _ _ E) as [_ ->]. exact Hout.
Qed.

Lemma writeback_quiet_out (ws : list Acct) (w : World) :
  env w = [] -> flush (accts (sh w)) ws = None -> writeback ws w = Undef.
Proof.
  revert w. induction ws as [|e ws IH]; intros w He Hf; [discriminate|].
  cbn [flush] in Hf. cbn [writeback]. unfold bind at 1, store_acct.
  unfold bind at 1. rewrite (tick_quiet w He). unfold raw_store_acct.
  destruct (acct_store (accts (sh w)) (addr e) (value e)) as [l1|] eqn:Es;
    [|reflexivity].
  apply IH; [open_world w; reflexivity | open_world w; exact Hf].
Qed.

(** X6.  Without interference, from an even [seqlock], with [rv] equal to
    [seqlock] or else every entry of the read set still equal to its
    account (otherwise the validation in the compare-and-swap loop
    aborts), with the counters as [sw_begin] saw them and every buffered
    address inside the vector, a commit with writes returns, and afterwards
    every account holds the last value buffered for it, or what it held
    when none was; the [addr] fields and the counters are as before,
    [seqlock] is two further and both logs are empty. *)
Theorem sw_commit_installs (fuel : nat) (w : World) :
  env w = [] -> write_set w <> [] -> Z.even (seqlock (sh w)) = true ->
  rv w = seqlock (sh w) \/ Forall (agrees (accts (sh w))) (read_set w) ->
  (forall j, 0 <= j < Z.of_nat NUM_SLOTS ->
             snap_counter w j = counter (sh w) j) ->
  Forall (fun e => 0 <= addr e < Z.of_nat (List.length (accts (sh w))))
         (write_set w) ->
  exists w',
    sw_commit (3 + fuel) w = Ret tt w' /\
    (forall a, acct_value (accts (sh w')) a =
               match ws_lookup a (write_set w) with
               | Some v => Some v
               | None => acct_value (accts (sh w)) a
               end) /\
    map addr (accts (sh w')) = map addr (accts (sh w)) /\
    counter (sh w') = counter (sh w) /\
    seqlock (sh w') = u32 (seqlock (sh w) + 2) /\
    read_set w' = [] /\ write_set w' = [].
Proof.
  intros He Hne Hev Hor Hc Hin.
  destruct (flush_in _ _ Hin) as [l' Hf].
  eexists. split;
    [apply (sw_commit_quiet_same fuel w l' He Hne Hev Hor Hc Hf)|].
  cbn [sh accts counter seqlock read_set write_set].
  split; [intros a; apply (overlay_lookup _ _ _ a Hf)|].
  split; [apply (flush_shape _ _ _ Hf)|]. repeat split.
Qed.

Lemma sw_commit_installs_witness :
  exists w',
    sw_commit 3 (world_commit 0) = Ret tt w' /\
    acct_value (accts (sh w')) 0 = Some 950 /\
    acct_value (accts (sh w')) 1 = Some 1050 /\
    acct_value (accts (sh w')) 2 = Some 1000 /\
    seqlock (sh w') = 6.
Proof.
  destruct (sw_commit_installs 0 (world_commit 0)) as (w' & Hrun & Hv & _ & _ & Hs & _).
  - reflexivity.
  - discriminate.
  - reflexivity.
  - left. reflexivity.
  - intros j _. cbn. unfold upd. destruct (j =? 0); reflexivity.
  - repeat constructor; cbn; lia.
  - exists w'. split; [exact Hrun|].
    split; [rewrite Hv; reflexivity|].
    split; [rewrite Hv; reflexivity|].
    split; [rewrite Hv; reflexivity|]. exact Hs.
Defined.

(** X7.  [sw_write] takes any address and [sw_commit] checks none: with an
    address outside the vector in the write set, the commit that runs alone
    takes the window, passes the counter check and then stores outside
    [accts], which is undefined. *)
Theorem sw_commit_bad_address (fuel : nat) (a v : Z) (w : World) :
  env w = [] -> Z.even (seqlock (sh w)) = true ->
  rv w = seqlock (sh w) \/ Forall (agrees (accts (sh w))) (read_set w) ->
  (forall j, 0 <= j < Z.of_nat NUM_SLOTS ->
             snap_counter w j = counter (sh w) j) ->
  ~ 0 <= a < Z.of_nat (List.length (accts (sh w))) ->
  (sw_write a v ;; sw_commit (3 + fuel)) w = Undef.
Proof.
  intros He Hev Hor Hc Hout.
  unfold bind at 1. unfold sw_write, modify.
  set (w1 := set_write_set (write_set w ++ [mkAcct a v]) w).
  assert (He1 : env w1 = []) by exact He.
  assert (Hacq : acquire (3 + fuel) w1 = Ret tt (in_window w1)).
  { apply (proj2 (acquire_quiet (3 + fuel) w1 He1 Hev Hor)). lia. }
  unfold sw_commit. unfold bind at 1, get at 1.
  destruct (write_set w1) as [|e0 ws0] eqn:Ews.
  { unfold w1 in Ews. cbn in Ews. destruct (write_set w); discriminate. }
  unfold bind at 1. rewrite Hacq. unfold bind at 1.
  rewrite check_counters_quiet_same;
    [|unfold w1; open_world w; reflexivity|unfold w1; open_world w; exact Hc].
  unfold bind at 1, get at 1. unfold bind at 1.
  rewrite writeback_quiet_out; [reflexivity | unfold w1; open_world w; reflexivity|].
  apply (flush_out _ _ (mkAcct a v)).
  - unfold w1. open_world w. cbn. apply in_or_app. right. left. reflexivity.
  - unfold w1. open_world w. exact Hout.
Qed.

Lemma sw_commit_bad_address_witness :
  (sw_write 1000 50 ;; sw_commit 3) world_read_only = Undef.
Proof.
  apply (sw_commit_bad_address 0 1000 50 world_read_only).
  - reflexivity.
  - reflexivity.
  - left. reflexivity.
  - intros j _. reflexivity.
  - change (List.length (accts (sh world_read_only)))
      with (List.length init_accts).
    unfold init_accts. rewrite length_map, length_seq. unfold NUM_ACCTS. lia.
Defined.

(** ** A thread that runs alone *)

Section Alone.

Variable rand_r_32 : Z -> Z * Z.

Lemma pick_accounts_post (fuel : nat) (w : World) :
  post (fun p w' => fst p <> snd p /\ exists t, w' = set_tid t w)
       (fun _ => False) (pick_accounts rand_r_32 fuel w).
Proof.
  revert w. induction fuel as [|f IH]; intros w; [exact I|].
  cbn [pick_accounts]. unfold bind, next_acct.
  destruct (rand_r_32 (tid w)) as [s1 r1]. cbn [tid set_tid].
  destruct (rand_r_32 (u32 s1)) as [s2 r2].
  destruct (Z.rem r1 NUM_ACCTS =? Z.rem r2 NUM_ACCTS) eqn:E.
  - eapply post_weaken; [apply IH | | auto].
    intros p w' [Hd [t ->]]. split; [exact Hd|]. exists t. reflexivity.
  - cbn. apply Z.eqb_neq in E. split; [exact E|]. exists (u32 s2). reflexivity.
Qed.

Lemma sw_read_alone_post s0 sc l (fuel : nat) (a : Z) (w : World) :
  alone s0 sc l w ->
  post (fun v w' => acct_value l a = Some v /\ alone s0 sc l w' /\
                    htm w' = htm w)
       (fun _ => False) (sw_read fuel a w).
Proof.
  intros (He & Hs & Hrv & Hsc & Hf).
  pose proof (overlay_lookup _ _ _ a Hf) as Hov.
  unfold sw_read. unfold bind at 1, get at 1.
  destruct (ws_lookup a (write_set w)) as [v0|] eqn:El.
  - cbn. split; [exact Hov|]. split; [repeat split; auto | reflexivity].
  - unfold bind at 1. unfold load_acct, bind at 1.
    rewrite (tick_quiet w He). unfold raw_load_acct. rewrite Hs.
    destruct (acct_value (accts s0) a) as [x|] eqn:Ex; [|exact I].
    destruct fuel as [|f]; [exact I|].
    unfold bind at 1.
    rewrite (reload_quiet_same f a x w He) by congruence.
    cbn. split; [exact Hov|]. split; [repeat split; auto | reflexivity].
Qed.

Lemma sw_body_alone_post s0 sc (fuel j : nat) (l : list Acct) (w : World) :
  alone s0 sc l w ->
  post (fun _ w' => exists l', alone s0 sc l' w' /\ total l' = total l /\
                               htm w' = htm w)
       (fun _ => False) (sw_body rand_r_32 fuel j w).
Proof.
  revert l w. induction j as [|j IH]; intros l w Hal.
  - cbn. exists l. auto.
  - cbn [sw_body].
    eapply post_bind; [apply pick_accounts_post|].
    intros p w1 [Hd [t ->]]. cbn beta.
    assert (Hal1 : alone s0 sc l (set_tid t w)).
    { destruct Hal as (He & Hs & Hrv & Hsc & Hf). repeat split; auto. }
    eapply post_bind; [apply (sw_read_alone_post _ _ _ fuel (fst p) _ Hal1)|].
    intros a1 w2 (Ha1 & Hal2 & Hh2). cbn beta.
    destruct (a1 <? TRFR_AMT).
    { cbn. exists l. split; [exact Hal2|]. split; [reflexivity | exact Hh2]. }
    eapply post_bind; [apply (sw_read_alone_post _ _ _ fuel (snd p) _ Hal2)|].
    intros a2 w3 (Ha2 & Hal3 & Hh3). cbn beta.
    unfold bind at 1, int_arith at 1.
    destruct (in_int (a1 - TRFR_AMT)); [|exact I].
    unfold ret at 1. unfold bind at 1, sw_write at 1. unfold modify at 1.
    unfold bind at 1, int_arith at 1.
    destruct (in_int (a2 + TRFR_AMT)); [|exact I].
    unfold ret at 1. unfold bind at 1, sw_write at 1. unfold modify at 1.
    destruct (acct_store_defined l (fst p) (a1 - TRFR_AMT) a1 Ha1)
      as [l1 S1].
    assert (Ha2' : acct_value l1 (snd p) = Some a2).
    { rewrite (acct_store_other _ l1 _ _ _ S1); [exact Ha2 | congruence]. }
    destruct (acct_store_defined l1 (snd p) (a2 + TRFR_AMT) a2 Ha2')
      as [l2 S2].
    pose proof (sw_write_alone _ _ _ _ _ _ _ Hal3 S1) as Hal4.
    pose proof (sw_write_alone _ _ _ _ _ _ _ Hal4 S2) as Hal5.
    eapply post_weaken; [apply (IH l2 _ Hal5) | | auto].
    intros [] w' (l' & Hal' & Ht & Hh). exists l'.
    split; [exact Hal'|]. split.
    + rewrite Ht.
      rewrite (acct_store_total l1 l2 _ _ a2 S2 Ha2').
      rewrite (acct_store_total l l1 _ _ a1 S1 Ha1). lia.
    + rewrite Hh. cbn [htm set_write_set]. rewrite Hh3, Hh2. reflexivity.
Qed.

Lemma sw_commit_alone_post s0 sc l (fuel : nat) (w : World) :
  alone s0 sc l w ->
  (forall j, 0 <= j < Z.of_nat NUM_SLOTS -> sc j = counter s0 j) ->
  post (fun _ w' => env w' = [] /\ write_set w' = [] /\ htm w' = htm w /\
                    accts (sh w') = l /\ counter (sh w') = counter s0)
       (fun _ => False) (sw_commit fuel w).
Proof.
  intros (He & Hs & Hrv & Hsc & Hf) Hc.
  destruct (write_set w) as [|e0 ws0] eqn:Ews.
  - unfold sw_commit, bind, get. rewrite Ews. cbn.
    cbn in Hf. inversion Hf; subst. repeat split; auto.
  - destruct fuel as [|f].
    { unfold sw_commit, bind, get. rewrite Ews. exact I. }
    assert (Hacq : acquire (S f) w = Ret tt (in_window w)).
    { rewrite (acquire_quiet_same f w He) by congruence.
      open_world w. reflexivity. }
    rewrite (sw_commit_in_window (S f) w l).
    + cbn. rewrite <- Hs. repeat split.
    + exact He.
    + congruence.
    + exact Hacq.
    + intros j Hj. rewrite Hsc, Hs. apply Hc. exact Hj.
    + rewrite Hs, Ews. exact Hf.
Qed.

Lemma sw_txn_alone_post (fuel : nat) (w : World) :
  env w = [] -> write_set w = [] ->
  post (fun _ w' => env w' = [] /\ write_set w' = [] /\ htm w' = htm w /\
                    total (accts (sh w')) = total (accts (sh w)) /\
                    counter (sh w') = counter (sh w))
       (fun _ => False) (sw_txn rand_r_32 fuel w).
Proof.
  intros He Hws. unfold sw_txn.
  destruct (Z.even (seqlock (sh w))) eqn:Ev.
  2:{ unfold bind at 1. unfold sw_begin. unfold bind at 1.
      rewrite (wait_even_quiet_odd fuel w He Ev). exact I. }
  destruct fuel as [|f]; [exact I|].
  destruct (copy_counters_quiet NUM_SLOTS 0 (set_rv (seqlock (sh w)) w))
    as (sc' & Hc & Hin & _); [open_world w; reflexivity|].
  assert (Hb : sw_begin (S f) w =
               Ret tt (set_snap_counter sc' (set_rv (seqlock (sh w)) w))).
  { unfold sw_begin. unfold bind at 1.
    rewrite (wait_even_quiet_even f w He Ev). exact Hc. }
  unfold bind at 1. rewrite Hb.
  assert (Hal : alone (sh w) sc' (accts (sh w))
                      (set_snap_counter sc' (set_rv (seqlock (sh w)) w))).
  { open_world w. repeat split; reflexivity. }
  eapply post_bind; [apply (sw_body_alone_post _ _ (S f) 10 _ _ Hal)|].
  intros [] w2 (l' & Hal' & Ht & Hh). cbn beta.
  eapply post_weaken; [apply (sw_commit_alone_post _ _ _ (S f) w2 Hal') | |auto].
  - intros j Hj. rewrite Hin by lia. open_world w. reflexivity.
  - intros [] w3 (A & B & C & D & E). repeat split; auto.
    + rewrite C, Hh. reflexivity.
    + rewrite D. exact Ht.
Qed.

(** The hardware loop only moves the seed and the balances. *)
Lemma htm_body_post (fuel j : nat) (w : World) :
  post (fun _ w' => exists t l,
          w' = set_sh (set_accts l (sh w)) (set_tid t w) /\
          total l <= total (accts (sh w)) /\
          map addr l = map addr (accts (sh w)))
       (fun _ => False) (htm_body rand_r_32 fuel j w).
Proof.
  revert w. induction j as [|j IH]; intros w.
  - cbn. exists (tid w), (accts (sh w)).
    split; [destruct w as [[] ? ? ? ? ? ? ?]; reflexivity|]. split; [lia | reflexivity].
  - cbn [htm_body].
    eapply post_bind; [apply pick_accounts_post|].
    intros p w1 [Hd [t ->]]. cbn beta.
    unfold bind at 1, raw_load_acct at 1. cbn [sh set_tid].
    destruct (acct_value (accts (sh w)) (fst p)) as [a1|] eqn:E1; [|exact I].
    destruct (a1 <? TRFR_AMT) eqn:Elt.
    { cbn. exists t, (accts (sh w)).
      split; [destruct w as [[] ? ? ? ? ? ? ?]; reflexivity|].
      split; [lia | reflexivity]. }
    unfold bind at 1, raw_load_acct at 1. cbn [sh set_tid].
    destruct (acct_value (accts (sh w)) (snd p)) as [a2|] eqn:E2; [|exact I].
    unfold bind at 1, int_arith at 1.
    destruct (in_int (a1 - TRFR_AMT)); [|exact I].
    unfold ret at 1.
    unfold bind at 1, raw_store_acct at 1. cbn [sh set_tid].
    destruct (acct_store (accts (sh w)) (fst p) (a1 - TRFR_AMT))
      as [l1|] eqn:S1; [|exact I].
    unfold bind at 1, int_arith at 1.
    destruct (in_int (a2 - TRFR_AMT)); [|exact I].
    unfold ret at 1.
    unfold bind at 1, raw_store_acct at 1.
    cbn [sh set_tid set_sh accts set_accts].
    destruct (acct_store l1 (snd p) (a2 - TRFR_AMT)) as [l2|] eqn:S2;
      [|exact I].
    eapply post_weaken; [apply IH | | auto].
    intros [] w' (t' & l' & -> & Ht & Hm).
    cbn [sh set_sh accts set_accts set_tid] in Ht, Hm.
    exists t', l'. split; [destruct w as [[] ? ? ? ? ? ? ?]; reflexivity|].
    assert (Ha2 : acct_value l1 (snd p) = Some a2).
    { rewrite (acct_store_other _ l1 _ _ _ S1); [exact E2 | congruence]. }
    pose proof (acct_store_total l1 l2 _ _ a2 S2 Ha2) as T2.
    pose proof (acct_store_total _ l1 _ _ a1 S1 E1) as T1.
    destruct (acct_store_shape _ _ _ _ S1) as [M1 _].
    destruct (acct_store_shape _ _ _ _ S2) as [M2 _].
    apply Z.ltb_ge in Elt. unfold TRFR_AMT in *.
    split; [lia | congruence].
Qed.




Lemma try_sw_settled (fuel : nat) (w : World) :
  env w = [] -> write_set w = [] ->
  post (fun r w' => r = Some BySW /\ env w' = [] /\ write_set w' = [] /\
                    htm w' = htm w /\
                    total (accts (sh w')) = total (accts (sh w)) /\
                    counter (sh w') = counter (sh w))
       (fun _ => False) (try_sw rand_r_32 fuel w).
Proof.
  intros He Hws. pose proof (sw_txn_alone_post fuel w He Hws) as H.
  unfold try_sw. destruct (sw_txn rand_r_32 fuel w) as [[] w'|w'| |];
    cbn in *; auto. destruct H.
Qed.




End Alone.

(** X8.  A software transaction of a thread that runs alone never aborts:
    whenever the [try] block of [th_run] returns, it has committed, and it
    leaves an empty write set, the same sum of balances and the counters
    untouched, whatever the read set held before. *)
Theorem try_sw_alone (rand_r_32 : Z -> Z * Z) (fuel : nat)
        (r : option Path) (w w' : World) :
  env w = [] -> write_set w = [] ->
  try_sw rand_r_32 fuel w = Ret r w' ->
  r = Some BySW /\ write_set w' = [] /\
  total (accts (sh w')) = total (accts (sh w)) /\
  counter (sh w') = counter (sh w).
Proof.
  intros He Hws Hrun.
  pose proof (try_sw_settled rand_r_32 fuel w He Hws) as H.
  rewrite Hrun in H. cbn in H.
  destruct H as (A & _ & B & _ & C & D). auto.
Qed.

Lemma try_sw_alone_witness :
  exists w',
    try_sw lcg 10 world_read_only = Ret (Some BySW) w' /\
    total (accts (sh w')) = 1000000.
Proof.
  destruct (value_of_ret (try_sw lcg 10 world_read_only) (Some BySW))
    as [w' Hrun]; [vm_compute; reflexivity|].
  exists w'. split; [exact Hrun|].
  destruct (try_sw_alone lcg 10 (Some BySW) world_read_only w'
              eq_refl eq_refl Hrun) as (_ & _ & Ht & _).
  rewrite Ht. reflexivity.
Defined.



(** X10.  A hardware transaction that commits: the region started on an
    even [seqlock], after one step of the other threads; it leaves
    [seqlock], both logs and [rv] as they were and the [addr] fields in
    place, it does not add money, and it adds one (modulo 2^64) to exactly
    one counter: the slot indexed by [tid] as the picks of the loop left
    it, which lies in 0..71. *)
Theorem htm_txn_commit (rand_r_32 : Z -> Z * Z) (fuel : nat) (w w' : World) :
  htm_txn rand_r_32 fuel w = Ret true w' ->
  Z.even (seqlock (sh (ticks 1 w))) = true /\
  seqlock (sh w') = seqlock (sh (ticks 1 w)) /\
  read_set w' = read_set w /\ write_set w' = write_set w /\ rv w' = rv w /\
  env w' = env (ticks 1 w) /\
  0 <= tid w' < 72 /\
  counter (sh w') =
    upd (counter (sh (ticks 1 w))) (tid w')
        (u64 (counter (sh (ticks 1 w)) (tid w') + 1)) /\
  map addr (accts (sh w')) = map addr (accts (sh (ticks 1 w))) /\
  total (accts (sh w')) <= total (accts (sh (ticks 1 w))).
Proof.
  intros Hrun. unfold htm_txn in Hrun. unfold bind at 1 in Hrun.
  rewrite tick_ticks in Hrun.
  destruct (ticks_local 1 w) as (Lrs & Lws & Lrv & _ & _ & Lh).
  set (w1 := ticks 1 w) in *.
  unfold bind at 1, xbegin at 1 in Hrun.
  destruct (htm w1) as [|[|] h] eqn:Eh; try discriminate.
  unfold bind at 1, get at 1 in Hrun. cbn [sh set_htm] in Hrun.
  destruct (Z.land (seqlock (sh w1)) 1 =? 0) eqn:Ev; [|discriminate].
  rewrite land1_even in Ev.
  unfold bind at 1 in Hrun.
  pose proof (htm_body_post rand_r_32 fuel 10 (set_htm h w1)) as Hb.
  destruct (htm_body rand_r_32 fuel 10 (set_htm h w1)) as [[] w2|w2| |];
    try discriminate.
  cbn in Hb. destruct Hb as (t & l & -> & Ht & Hm).
  unfold bind at 1, incr_counter_tid at 1 in Hrun.
  cbn [tid set_sh set_tid] in Hrun.
  destruct ((0 <=? t) && (t <? Z.of_nat NUM_SLOTS)) eqn:Et; [|discriminate].
  inversion Hrun; subst w'. clear Hrun.
  apply andb_prop in Et. destruct Et as [Et1 Et2].
  cbn. repeat split; auto; try lia.
  apply Z.ltb_lt in Et2. unfold NUM_SLOTS in Et2. lia.
Qed.

Lemma htm_txn_commit_witness :
  exists w',
    htm_txn small_rand 10 (init_world [] [true]) = Ret true w' /\
    seqlock (sh w') = 0 /\ 0 <= tid w' < 72 /\
    counter (sh w') (tid w') = 1.
Proof.
  destruct (value_of_ret (htm_txn small_rand 10 (init_world [] [true])) true)
    as [w' Hrun]; [vm_compute; reflexivity|].
  exists w'. split; [exact Hrun|].
  destruct (htm_txn_commit small_rand 10 (init_world [] [true]) w' Hrun)
    as (_ & Hs & _ & _ & _ & _ & Ht & Hc & _).
  split; [exact Hs|]. split; [exact Ht|].
  rewrite Hc. unfold upd. rewrite Z.eqb_refl. reflexivity.
Defined.

(** ** The counters and the software path *)

Section FrameFree.

(** A property of the shared state that depends neither on [seqlock] nor on
    the accounts: one of the counters. *)
Variable P : Shared -> Prop.
Variable R : Step -> Prop.
Hypothesis Pfree : seqlock_free P.
Hypothesis Afree : accts_free P.

Lemma inv_tick_post (E : World -> Prop) (w : World) :
  inv P R w -> post (fun _ w' => inv P R w') E (tick w).
Proof.
  intros H. unfold tick. pose proof (inv_tick P R w H) as Ht.
  destruct (env w); cbn; [repeat split; apply H | exact Ht].
Qed.

Lemma post_store_acct (E : World -> Prop) (a v : Z) (w : World) :
  inv P R w -> post (fun _ w' => inv P R w') E (store_acct a v w).
Proof.
  intros H. unfold store_acct.
  eapply post_bind; [apply inv_tick_post; exact H|].
  intros [] w1 (Hp & Hs & Hr). unfold raw_store_acct.
  destruct (acct_store (accts (sh w1)) a v) as [l|]; [|exact I].
  cbn. split; [|split; assumption]. apply Afree. exact Hp.
Qed.

Lemma post_writeback (E : World -> Prop) (ws : list Acct) (w : World) :
  inv P R w -> post (fun _ w' => inv P R w') E (writeback ws w).
Proof.
  revert w. induction ws as [|e ws IH]; intros w H; [exact H|].
  cbn [writeback].
  eapply post_bind; [apply post_store_acct; exact H|].
  intros [] w1 H1. apply IH. exact H1.
Qed.

Lemma post_incr_seqlock (E : World -> Prop) (w : World) :
  inv P R w -> post (fun _ w' => inv P R w') E (incr_seqlock w).
Proof.
  intros H. unfold incr_seqlock, load_seqlock.
  eapply post_bind with (R := fun _ w' => inv P R w').
  { eapply post_bind; [apply inv_tick_post; exact H|].
    intros [] w1 H1. exact H1. }
  intros s w1 H1. unfold store_seqlock.
  eapply post_bind; [apply inv_tick_post; exact H1|].
  intros [] w2 (Hp & Hs & Hr). cbn.
  split; [|split; assumption]. apply Pfree. exact Hp.
Qed.

Lemma post_sw_commit_free (fuel : nat) (w : World) :
  inv P R w ->
  post (fun _ w' => inv P R w') (aborted P R) (sw_commit fuel w).
Proof.
  intros H. unfold sw_commit.
  eapply post_bind with (R := fun x w' => w' = w).
  { reflexivity. }
  intros x w1 ->. destruct x as [|e x]; [exact H|].
  eapply post_bind;
    [apply (post_acquire P R Pfree (read_set w) (write_set w) (rv w));
     apply inv_keeps; exact H|].
  intros [] w2 H2. cbn beta.
  eapply post_bind;
    [apply (post_check_counters P R (read_set w) (write_set w) (rv w2));
     exact H2|].
  intros [] w3 [H3 _]. cbn beta.
  eapply post_bind with (R := fun _ w' => w' = w3); [reflexivity|].
  intros ws' w4 ->.
  eapply post_bind; [apply post_writeback; exact H3|].
  intros [] w5 H5. cbn beta.
  eapply post_bind; [apply post_incr_seqlock; exact H5|].
  intros [] w6 (Hp & Hs & Hr). cbn. repeat split; assumption.
Qed.

Lemma post_sw_txn_free (rand_r_32 : Z -> Z * Z) (fuel : nat) (w : World) :
  inv P R w ->
  post (fun _ w' => inv P R w') (aborted P R) (sw_txn rand_r_32 fuel w).
Proof.
  intros H. rewrite sw_txn_split.
  eapply post_bind; [apply post_sw_txn_start; exact H|].
  intros [] w2 [H2 _]. apply post_sw_commit_free. exact H2.
Qed.

End FrameFree.

(** X11.  The software path stores to no counter: when the other threads
    leave the counters alone, a software transaction that commits or
    aborts leaves every counter as it found it. *)
Theorem sw_txn_counters (rand_r_32 : Z -> Z * Z) (fuel : nat) (w w' : World) :
  Forall counter_kept (env w) ->
  sw_txn rand_r_32 fuel w = Ret tt w' \/ sw_txn rand_r_32 fuel w = Throw w' ->
  counter (sh w') = counter (sh w).
Proof.
  intros He Hrun.
  set (P := fun s : Shared => counter s = counter (sh w)).
  assert (Hi : inv P counter_kept w).
  { split; [reflexivity|]. split; [|exact He].
    unfold stable. eapply Forall_impl; [|exact He].
    intros f Hf s Hs. unfold P in *. rewrite Hf. exact Hs. }
  assert (Pfree : seqlock_free P) by (intros s v Hs; exact Hs).
  assert (Afree : accts_free P) by (intros s l Hs; exact Hs).
  pose proof (post_sw_txn_free P counter_kept Pfree Afree rand_r_32 fuel w Hi)
    as H.
  destruct Hrun as [Hrun | Hrun]; rewrite Hrun in H; cbn in H; apply H.
Qed.

Lemma sw_txn_counters_witness :
  exists w',
    sw_txn lcg 10 world_validating = Ret tt w' /\
    counter (sh w') 0 = 0.
Proof.
  destruct (value_of_ret (sw_txn lcg 10 world_validating) tt)
    as [w' Hrun]; [vm_compute; reflexivity|].
  exists w'. split; [exact Hrun|].
  rewrite (sw_txn_counters lcg 10 world_validating w');
    [reflexivity | | left; exact Hrun].
  constructor; [intros s; reflexivity|].
  constructor; [|constructor; [intros s; reflexivity | constructor]].
  intros s. unfold store_other. destruct (Z.even (seqlock s)); [reflexivity|].
  destruct (acct_store (accts s) 1 900); reflexivity.
Defined.

(** ** The barrier *)

Lemma s32_small (z : Z) : - 2 ^ 31 <= z < 2 ^ 31 -> s32 z = z.
Proof. intros H. unfold s32. rewrite Z.mod_small by lia. lia. Qed.

Lemma barrier_wait_arrivals (n which : Z) (ks : list Z) :
  forall (fuel : nat) (w : BWorld),
    benv w = map arrive ks -> 0 <= barriers w which ->
    arrived which ks w < 2 ^ 31 ->
    (n <= arrived which ks w -> (List.length ks < fuel)%nat ->
     exists w', barrier_wait fuel n which w = BRet w' /\
                n <= barriers w' which <= arrived which ks w) /\
    (arrived which ks w < n -> barrier_wait fuel n which w = BSpin).
Proof.
  unfold arrived.
  induction ks as [|k ks IH]; intros fuel w He Hb Hlt.
  - cbn [count_occ Z.of_nat] in *. rewrite Z.add_0_r in *.
    assert (Ht : btick w = w) by (unfold btick; rewrite He; reflexivity).
    split.
    + intros Hn Hf. destruct fuel as [|f]; [cbn in Hf; lia|].
      cbn [barrier_wait]. rewrite Ht.
      destruct (barriers w which <? n) eqn:E; [lia|].
      exists w. split; [reflexivity | lia].
    + intros Hn. induction fuel as [|f IHf]; [reflexivity|].
      cbn [barrier_wait]. rewrite Ht.
      destruct (barriers w which <? n) eqn:E; [exact IHf | lia].
  - destruct fuel as [|f].
    { split; [cbn; lia | reflexivity]. }
    cbn [barrier_wait]. unfold btick. rewrite He. cbn [map].
    set (w1 := mkBWorld (arrive k (barriers w)) (map arrive ks)).
    assert (Hc : barriers w1 which + Z.of_nat (count_occ Z.eq_dec ks which) =
                 barriers w which +
                 Z.of_nat (count_occ Z.eq_dec (k :: ks) which) /\
                 barriers w which <= barriers w1 which).
    { unfold w1, arrive, upd. cbn [barriers count_occ].
      destruct (Z.eq_dec k which) as [->|Hne].
      - rewrite Z.eqb_refl. rewrite s32_small.
        + split; lia.
        + rewrite count_occ_cons_eq in Hlt by reflexivity. lia.
      - destruct (which =? k) eqn:E; [lia|]. split; lia. }
    destruct Hc as [Hc Hmono].
    destruct (IH f w1 eq_refl) as [I1 I2]; [lia | lia|].
    split.
    + intros Hn Hf. cbn [List.length] in Hf.
      destruct (barriers w1 which <? n) eqn:E.
      * destruct I1 as (w' & Hr & Hw); [lia | lia|].
        exists w'. split; [exact Hr | lia].
      * exists w1. split; [reflexivity | lia].
    + intros Hn. destruct (barriers w1 which <? n) eqn:E; [|lia].
      apply I2. lia.
Qed.

(** X12.  [barrier] lets a thread through exactly when [numThreads]
    arrivals at its slot are reached.  With the other threads only arriving
    at barriers (the slots [ks], in this order), from a slot that holds a
    count of at least 0 and far from the end of [int]: when the count, the
    thread itself and the arrivals at this slot among [ks] make up
    [numThreads], the call returns, with at least [numThreads] in the
    slot; when they do not, it spins for ever. *)
Theorem barrier_arrivals (numThreads which : Z) (ks : list Z) (w : BWorld) :
  0 <= which < NUM_BARRIERS ->
  benv w = map arrive ks ->
  0 <= barriers w which ->
  arrived which ks w + 1 < 2 ^ 31 ->
  (numThreads <= arrived which ks w + 1 ->
   exists w',
     barrier (S (List.length ks)) numThreads which w = BRet w' /\
     numThreads <= barriers w' which <= arrived which ks w + 1) /\
  (arrived which ks w + 1 < numThreads ->
   forall fuel, barrier fuel numThreads which w = BSpin).
Proof.
  intros Hw He Hb Hlt. unfold barrier.
  assert (Hin : (0 <=? which) && (which <? NUM_BARRIERS) = true).
  { apply andb_true_intro. split; [apply Z.leb_le | apply Z.ltb_lt]; lia. }
  rewrite Hin. unfold arrived in *.
  destruct ks as [|k ks].
  - cbn [count_occ Z.of_nat List.length] in *. rewrite Z.add_0_r in *.
    assert (Hf : fetch_and_add which w =
                 mkBWorld (upd (barriers w) which (barriers w which + 1)) []).
    { unfold fetch_and_add, btick. rewrite He. cbn.
      rewrite He, s32_small by lia. reflexivity. }
    rewrite Hf.
    assert (Hv : barriers
                   (mkBWorld (upd (barriers w) which (barriers w which + 1)) [])
                   which = barriers w which + 1).
    { cbn. unfold upd. rewrite Z.eqb_refl. reflexivity. }
    destruct (barrier_wait_arrivals numThreads which [] 1
                (mkBWorld (upd (barriers w) which (barriers w which + 1)) [])
                eq_refl) as [I1 _];
      [rewrite Hv; lia | unfold arrived; rewrite Hv; cbn; lia|].
    split.
    + intros Hn. destruct I1 as (w' & Hr & Hw');
        [unfold arrived; rewrite Hv; cbn; lia | cbn; lia|].
      exists w'. split; [exact Hr|].
      unfold arrived in Hw'. rewrite Hv in Hw'. cbn in Hw'. lia.
    + intros Hn fuel.
      apply (barrier_wait_arrivals numThreads which [] fuel
               (mkBWorld (upd (barriers w) which (barriers w which + 1)) [])
               eq_refl).
      * rewrite Hv. lia.
      * unfold arrived. rewrite Hv. cbn. lia.
      * unfold arrived. rewrite Hv. cbn. lia.
  - set (b1 := arrive k (barriers w)).
    set (w2 := mkBWorld (upd b1 which (s32 (b1 which + 1))) (map arrive ks)).
    assert (Hf : fetch_and_add which w = w2).
    { unfold fetch_and_add, btick. rewrite He. reflexivity. }
    rewrite Hf.
    assert (Hb1 : b1 which + Z.of_nat (count_occ Z.eq_dec ks which) =
                  barriers w which +
                  Z.of_nat (count_occ Z.eq_dec (k :: ks) which) /\
                  barriers w which <= b1 which).
    { unfold b1, arrive, upd. cbn [count_occ].
      destruct (Z.eq_dec k which) as [->|Hne].
      - rewrite Z.eqb_refl. rewrite s32_small.
        + split; lia.
        + rewrite count_occ_cons_eq in Hlt by reflexivity. lia.
      - destruct (which =? k) eqn:E; [lia|]. split; lia. }
    destruct Hb1 as [Hb1 Hmono].
    assert (Hv : barriers w2 which = b1 which + 1).
    { unfold w2. cbn. unfold upd at 1. rewrite Z.eqb_refl.
      apply s32_small. lia. }
    destruct (barrier_wait_arrivals numThreads which ks
                (S (List.length (k :: ks))) w2 eq_refl) as [I1 _];
      [rewrite Hv; lia | unfold arrived; rewrite Hv; lia|].
    split.
    + intros Hn. destruct I1 as (w' & Hr & Hw');
        [unfold arrived; rewrite Hv; lia | cbn; lia|].
      exists w'. split; [exact Hr|].
      unfold arrived in Hw'. rewrite Hv in Hw'. lia.
    + intros Hn fuel.
      apply (barrier_wait_arrivals numThreads which ks fuel w2 eq_refl).
      * rewrite Hv. lia.
      * unfold arrived. rewrite Hv. lia.
      * unfold arrived. rewrite Hv. lia.
Qed.

Lemma barrier_arrivals_witness :
  (exists w',
     barrier 4 3 0 (mkBWorld (fun _ => 0) (map arrive [0; 5; 0])) = BRet w' /\
     3 <= barriers w' 0 <= 3) /\
  (forall fuel,
     barrier fuel 4 0 (mkBWorld (fun _ => 0) (map arrive [0; 5; 0])) = BSpin).
Proof.
  split.
  - apply (barrier_arrivals 3 0 [0; 5; 0]
             (mkBWorld (fun _ => 0) (map arrive [0; 5; 0])));
      [unfold NUM_BARRIERS; lia | reflexivity | cbn; lia | cbn; lia | cbn; lia].
  - apply (barrier_arrivals 4 0 [0; 5; 0]
             (mkBWorld (fun _ => 0) (map arrive [0; 5; 0])));
      [unfold NUM_BARRIERS; lia | reflexivity | cbn; lia | cbn; lia | cbn; lia].
Defined.

(** ** The threads that [main] starts *)

Lemma NoDup_map_of_nat (l : list nat) : NoDup l -> NoDup (map Z.of_nat l).
Proof.
  induction 1 as [|x l Hx Hl IH]; cbn; constructor; [|exact IH].
  intros Hin. apply in_map_iff in Hin. destruct Hin as (y & Hy & Hin).
  apply Nat2Z.inj in Hy. subst y. contradiction.
Qed.

(** X13.  When [main] goes on, the thread count is in 1..64 and [th_run]
    is started once on each of the ids 0, ..., count - 1 and on nothing
    else, the id 0 last, in [main] itself. *)
Theorem main_go (argv : list string) (n : Z) (ids : list Z) :
  main argv = Some (Go n ids) ->
  1 <= n <= 64 /\ NoDup ids /\ (forall i, In i ids <-> 0 <= i < n) /\
  Z.of_nat (List.length ids) = n /\ last ids 1 = 0.
Proof.
  unfold main.
  destruct (negb (Z.of_nat (List.length argv) =? 2)); [discriminate|].
  destruct (atoi (List.nth 1 argv EmptyString)) as [m|]; [|discriminate].
  destruct ((m <=? 0) || (m >? 64)) eqn:E; [discriminate|].
  intros H. inversion H; subst. clear H.
  apply orb_false_elim in E. destruct E as [E1 E2].
  apply Z.leb_gt in E1. assert (E3 : n <= 64) by lia. clear E2.
  split; [lia|]. unfold thread_ids.
  assert (Hin : forall i, In i (map Z.of_nat (seq 1 (Z.to_nat (n - 1)))) <->
                          1 <= i < n).
  { intros i. rewrite in_map_iff. split.
    - intros (k & <- & Hk). apply in_seq in Hk. lia.
    - intros Hi. exists (Z.to_nat i). split; [lia|]. apply in_seq. lia. }
  split; [|split; [|split]].
  - apply NoDup_app.
    + apply NoDup_map_of_nat, seq_NoDup.
    + constructor; [intros [] | constructor].
    + intros a Ha [<- | []]. apply Hin in Ha. lia.
  - intros i. rewrite in_app_iff, Hin. cbn. lia.
  - rewrite length_app, length_map, length_seq. cbn. lia.
  - apply last_last.
Qed.

Lemma main_go_witness :
  main ["./hynorec"; "4"]%string = Some (Go 4 [1; 2; 3; 0]) /\
  NoDup [1; 2; 3; 0] /\ In 3 [1; 2; 3; 0].
Proof.
  split; [reflexivity|].
  destruct (main_go ["./hynorec"; "4"]%string 4 [1; 2; 3; 0] eq_refl)
    as (_ & Hn & Hi & _).
  split; [exact Hn|]. apply Hi. lia.
Defined.

(** ** The accounts of a transfer *)

(** X14.  The two accounts that the transfer loops pick are different, and
    with a generator that returns no negative number both are indices of
    [accts], 0..999; picking them changes nothing but the seed. *)
Theorem pick_accounts_range (rand_r_32 : Z -> Z * Z) (fuel : nat)
        (w w' : World) (p : Z * Z) :
  (forall s, 0 <= snd (rand_r_32 s)) ->
  pick_accounts rand_r_32 fuel w = Ret p w' ->
  fst p <> snd p /\
  0 <= fst p < NUM_ACCTS /\ 0 <= snd p < NUM_ACCTS /\
  exists t, w' = set_tid t w.
Proof.
  intros Hpos. revert w. induction fuel as [|f IH]; intros w Hrun;
    [discriminate|].
  cbn [pick_accounts] in Hrun. unfold bind, next_acct in Hrun.
  pose proof (Hpos (tid w)) as H1.
  destruct (rand_r_32 (tid w)) as [s1 r1]. cbn [tid set_tid] in Hrun.
  pose proof (Hpos (u32 s1)) as H2.
  destruct (rand_r_32 (u32 s1)) as [s2 r2].
  cbn [snd] in H1, H2.
  destruct (Z.rem r1 NUM_ACCTS =? Z.rem r2 NUM_ACCTS) eqn:E.
  - destruct (IH _ Hrun) as (Hd & B1 & B2 & t & ->).
    split; [exact Hd|]. split; [exact B1|]. split; [exact B2|].
    exists t. reflexivity.
  - inversion Hrun; subst. cbn [fst snd]. apply Z.eqb_neq in E.
    split; [exact E|].
    split; [apply Z.rem_bound_pos; unfold NUM_ACCTS; lia|].
    split; [apply Z.rem_bound_pos; unfold NUM_ACCTS; lia|].
    exists (u32 s2). reflexivity.
Qed.

Lemma pick_accounts_range_witness :
  exists p w',
    pick_accounts lcg 3 (init_world [] []) = Ret p w' /\
    fst p <> snd p /\ 0 <= fst p < 1000 /\ 0 <= snd p < 1000.
Proof.
  destruct (pick_accounts lcg 3 (init_world [] [])) as [p w'|w'| |] eqn:Hrun;
    try (vm_compute in Hrun; discriminate).
  exists p, w'. split; [reflexivity|].
  assert (Hpos : forall s, 0 <= snd (lcg s)).
  { intros s. unfold lcg. cbn [snd].
    apply Z.div_pos; [|lia]. apply Z.mod_pos_bound. lia. }
  destruct (pick_accounts_range lcg 3 (init_world [] []) w' p Hpos Hrun)
    as (Hd & B1 & B2 & _).
  unfold NUM_ACCTS in *. auto.
Defined.

(** X15.  An argument that does not start with white space, a sign or a
    digit reads as 0 threads: [main] prints the usage line and leaves
    through [exit(0)]. *)
Theorem main_not_a_number (prog : string) (c : ascii) (s : string) :
  isspace c = false -> digit c = None ->
  c <> "-"%char -> c <> "+"%char ->
  main [prog; String c s] = Some (Exit 0 usage).
Proof.
  intros Hsp Hd Hm Hp.
  assert (Ha : atoi (String c s) = Some 0).
  { destruct c as [[] [] [] [] [] [] [] []];
      try (vm_compute in Hd; discriminate);
      try (vm_compute in Hsp; discriminate);
      try (exfalso; apply Hm; reflexivity);
      try (exfalso; apply Hp; reflexivity);
      reflexivity. }
  unfold main. cbn [List.length List.nth]. rewrite Ha. reflexivity.
Qed.

Lemma main_not_a_number_witness :
  main ["./hynorec"; "four"]%string = Some (Exit 0 usage).
Proof.
  apply (main_not_a_number "./hynorec" "f" "our");
    [reflexivity | reflexivity | discriminate | discriminate].
Defined.
